(** * The blog content cache of marvinblum.de

    A shallow embedding of package [blog] (the second part of
    [src/main.go]): the article cache with its two indexes, the
    demand-driven refresh, the rewriting of article markup with the three
    regular expressions, and the mirroring of attachments.

    Go strings are byte strings and are modelled by [string]; maps are
    stdpp's [gmap]; the outside world (the CMS client, HTTP, the file
    system, the clock and the iteration order of Go maps) is explicit. *)

From stdpp Require Import gmap strings list fin_maps.
From Stdlib Require Import ZArith Ascii String.

Set Default Proof Using "Type".

(** ** Byte strings *)

Module Str.

(** The double quote, written by its code: it cannot be typed inside a
    string literal. *)
Definition dq : ascii := "034"%char.

(** [markup s] is [s] with a double quote for every apostrophe, to write
    HTML fixtures legibly. *)
Fixpoint markup (s : string) : string :=
  match s with
  | EmptyString => EmptyString
  | String c s' => String (if Ascii.eqb c "'" then dq else c) (markup s')
  end.

(** [strings.HasPrefix] *)
Fixpoint hasPrefix (p s : string) : bool :=
  match p, s with
  | EmptyString, _ => true
  | String a p', String b s' => Ascii.eqb a b && hasPrefix p' s'
  | String _ _, EmptyString => false
  end.


(** [s[:n]] for [n <= len(s)] *)
Fixpoint take (n : nat) (s : string) : string :=
  match n, s with
  | S n', String c s' => String c (take n' s')
  | _, _ => EmptyString
  end.

(** The bytes of [s] that precede its suffix [rest]. *)
Definition consumed (s rest : string) : string :=
  take (String.length s - String.length rest) s.

(** No byte of [s] is [c]. *)
Fixpoint free_of (c : ascii) (s : string) : bool :=
  match s with
  | EmptyString => true
  | String a s' => negb (Ascii.eqb a c) && free_of c s'
  end.

(** [s] ends with the character [c]. *)
Fixpoint endsWith (c : ascii) (s : string) : bool :=
  match s with
  | EmptyString => false
  | String a EmptyString => Ascii.eqb a c
  | String _ s' => endsWith c s'
  end.

End Str.
Export Str.

(** ** Regular expressions (Go's [regexp], the fragment the package uses)

    Go's [regexp] finds the leftmost match and, among the matches that
    start there, the one a backtracking search finds first.  The matcher
    below is that backtracking search, in continuation-passing style.

    The package compiles its three patterns with the flags [(?iU)]:
    [i] folds case, [U] swaps the meaning of [x+] and [x+?], so that every
    [+] of the patterns is the non-greedy one. *)

Module Regexp.

Inductive Regexp : Type :=
| Lit (lit : string)            (* a literal string *)
| NotChar (c : ascii)           (* the class [^c] *)
| Cat (r1 r2 : Regexp)          (* r1r2 *)
| Alt (r1 r2 : Regexp)          (* r1|r2 *)
| Plus (r : Regexp)             (* r+ *)
| Cap (i : N) (r : Regexp).     (* the i-th parenthesised group *)

Record Flags := { foldCase : bool; ungreedy : bool }.

(** The capture groups of a match, most recent first. *)
Definition Caps := list (N * string).

Fixpoint group (i : N) (caps : Caps) : option string :=
  match caps with
  | [] => None
  | (j, x) :: caps' => if N.eqb i j then Some x else group i caps'
  end.

(** ASCII case folding of one byte. *)
Definition lower (c : ascii) : ascii :=
  let n := nat_of_ascii c in
  if (65 <=? n)%nat && (n <=? 90)%nat then ascii_of_nat (n + 32) else c.

(** A byte that the literal character [c] accepts: [c] itself and, with
    [fold], its other case. *)
Definition foldEq (fold : bool) (c a : ascii) : bool :=
  Ascii.eqb a c || (fold && Ascii.eqb (lower a) (lower c)).

(** [strip_char fold c s]: the rest of [s] after one occurrence of the
    literal character [c].  With [fold], [regexp] accepts every rune of
    the simple-folding orbit of [c]: the other case of an ASCII letter,
    and for [s] and [k] also U+017F (bytes C5 BF) and U+212A (bytes
    E2 84 AA). *)
Definition strip_char (fold : bool) (c : ascii) (s : string) : option string :=
  match s with
  | EmptyString => None
  | String a s1 =>
      if foldEq fold c a then Some s1
      else if fold && Ascii.eqb (lower c) "s" && Ascii.eqb a "197" then
        match s1 with
        | String b s2 => if Ascii.eqb b "191" then Some s2 else None
        | EmptyString => None
        end
      else if fold && Ascii.eqb (lower c) "k" && Ascii.eqb a "226" then
        match s1 with
        | String b1 (String b2 s3) =>
            if Ascii.eqb b1 "132" && Ascii.eqb b2 "170" then Some s3 else None
        | _ => None
        end
      else None
  end.

Fixpoint strip_lit (fold : bool) (lit s : string) : option string :=
  match lit with
  | EmptyString => Some s
  | String c lit' =>
      match strip_char fold c s with
      | Some s' => strip_lit fold lit' s'
      | None => None
      end
  end.

Section Matcher.
Context (fl : Flags) {R : Type}.

(** The loop of [x+]: [body] matches [x] once; after each round the rest
    of the pattern ([k]) comes first when the loop is non-greedy, another
    round when it is greedy.  [n] bounds the rounds; a round that takes
    nothing from the input ends the loop. *)
Fixpoint plusLoop
    (body : string → Caps → (string → Caps → option R) → option R)
    (k : string → Caps → option R)
    (n : nat) (s : string) (caps : Caps) : option R :=
  match n with
  | O => None
  | S n' =>
      body s caps (λ s' caps',
        if negb (String.length s' <? String.length s)%nat then None
        else if ungreedy fl then
          match k s' caps' with
          | Some x => Some x
          | None => plusLoop body k n' s' caps'
          end
        else
          match plusLoop body k n' s' caps' with
          | Some x => Some x
          | None => k s' caps'
          end)
  end.

(** [rmatch r s caps k]: match [r] at the start of [s] and hand the rest
    of the input to [k]; when [k] fails, try the next way to match [r].
    A class over an ASCII character consumes one byte here and one rune
    in Go; the two agree wherever the class is followed by an ASCII
    literal, as in the three patterns, because no byte of a multi-byte
    rune is ASCII.  The rounds of [Plus] are bounded by the length of the
    input, which each round must shorten. *)
Fixpoint rmatch (r : Regexp) (s : string) (caps : Caps)
    (k : string → Caps → option R) : option R :=
  match r with
  | Lit lit =>
      match strip_lit (foldCase fl) lit s with
      | Some s' => k s' caps
      | None => None
      end
  | NotChar c =>
      match s with
      | String a s' => if Ascii.eqb a c then None else k s' caps
      | EmptyString => None
      end
  | Cat r1 r2 => rmatch r1 s caps (λ s' caps', rmatch r2 s' caps' k)
  | Alt r1 r2 =>
      match rmatch r1 s caps k with
      | Some x => Some x
      | None => rmatch r2 s caps k
      end
  | Cap i r1 =>
      rmatch r1 s caps (λ s' caps', k s' ((i, consumed s s') :: caps'))
  | Plus r1 => plusLoop (rmatch r1) k (S (String.length s)) s caps
  end.
End Matcher.

(** The literal [lit], with case folded, occurs in [s]. *)
Fixpoint containsFold (lit s : string) : bool :=
  bool_decide (is_Some (strip_lit true lit s)) ||
  match s with
  | EmptyString => false
  | String _ s' => containsFold lit s'
  end.

(** A compiled pattern: [regexp.MustCompile]. *)
Record Prog := { flags : Flags; expr : Regexp }.

(** The match of [p] that starts at the beginning of [s]: its groups
    (group 0 is the whole match) and the input after it. *)
Definition match_here (p : Prog) (s : string) : option (Caps * string) :=
  rmatch (flags p) (Cap 0 (expr p)) s [] (λ s' caps, Some (caps, s')).

End Regexp.
Export Regexp.

(** ** Replacement templates and the functions over all matches *)

Module Replace.

Definition is_digit (c : ascii) : bool :=
  let n := nat_of_ascii c in (48 <=? n)%nat && (n <=? 57)%nat.

(** [utf8.DecodeRuneInString]: the rune that starts [s] and its width
    in bytes; U+FFFD with width 1 where the bytes are not UTF-8. *)
Definition RuneError : N := 65533.

Definition within (lo hi b : N) : bool := (lo <=? b)%N && (b <=? hi)%N.

Definition decodeRune (s : string) : N * nat :=
  match s with
  | EmptyString => (RuneError, 0)
  | String c0 s1 =>
      let b0 := N_of_ascii c0 in
      if (b0 <? 128)%N then (b0, 1)
      else if (b0 <? 194)%N || (244 <? b0)%N then (RuneError, 1)
      else
        let size := if (b0 <? 224)%N then 2 else if (b0 <? 240)%N then 3 else 4 in
        let lo := if (b0 =? 224)%N then 160%N else if (b0 =? 240)%N then 144%N else 128%N in
        let hi := if (b0 =? 237)%N then 159%N else if (b0 =? 244)%N then 143%N else 191%N in
        if (String.length s <? size)%nat then (RuneError, 1)
        else
          match s1 with
          | EmptyString => (RuneError, 1)
          | String c1 s2 =>
              let b1 := N_of_ascii c1 in
              if negb (within lo hi b1) then (RuneError, 1)
              else if (size =? 2)%nat then
                (N.lor (N.shiftl (N.land b0 31) 6) (N.land b1 63), 2)
              else
                match s2 with
                | EmptyString => (RuneError, 1)
                | String c2 s3 =>
                    let b2 := N_of_ascii c2 in
                    if negb (within 128 191 b2) then (RuneError, 1)
                    else if (size =? 3)%nat then
                      (N.lor (N.shiftl (N.land b0 15) 12)
                         (N.lor (N.shiftl (N.land b1 63) 6) (N.land b2 63)), 3)
                    else
                      match s3 with
                      | EmptyString => (RuneError, 1)
                      | String c3 _ =>
                          let b3 := N_of_ascii c3 in
                          if negb (within 128 191 b3) then (RuneError, 1)
                          else
                            (N.lor (N.shiftl (N.land b0 7) 18)
                               (N.lor (N.shiftl (N.land b1 63) 12)
                                  (N.lor (N.shiftl (N.land b2 63) 6) (N.land b3 63))), 4)
                      end
                end
          end
  end.

(** [unicode.IsLetter(r) || unicode.IsDigit(r)] for the runes beyond
    ASCII: the tables of package [unicode], which the model takes as
    they are given. *)
Definition RuneClass : Type := N → bool.

(** A rune of a group name in a template: a letter, a digit or an
    underscore. *)
Definition is_name_rune (letterOrDigit : RuneClass) (r : N) : bool :=
  if (r <? 128)%N then
    within 48 57 r || within 65 90 r || within 97 122 r || (r =? 95)%N
  else letterOrDigit r.

(** The bytes of the name that starts [s]; [skip] counts the bytes of
    the rune just accepted that are still ahead. *)
Fixpoint name_len_from (letterOrDigit : RuneClass) (skip : nat) (s : string) : nat :=
  match s with
  | EmptyString => O
  | String _ s' =>
      match skip with
      | S n => S (name_len_from letterOrDigit n s')
      | O =>
          let '(r, size) := decodeRune s in
          if is_name_rune letterOrDigit r
          then S (name_len_from letterOrDigit (size - 1) s')
          else O
      end
  end.

Definition name_len (letterOrDigit : RuneClass) (s : string) : nat :=
  name_len_from letterOrDigit 0 s.

(** The group number a name denotes: all digits, no leading zero, and
    not beyond the 10^8 guard of the library. *)
Fixpoint parse_digits (acc : N) (name : string) : option N :=
  match name with
  | EmptyString => Some acc
  | String c name' =>
      if negb (is_digit c) || (100000000 <=? acc)%N then None
      else parse_digits (acc * 10 + (N_of_ascii c - 48))%N name'
  end.

Definition parse_num (name : string) : option N :=
  match name with
  | String "0" (String _ _) => None
  | _ => parse_digits 0 name
  end.

(** [extract t], for the template text [t] after a [$]: the group number
    of the name that starts [t] ([None] for a name that is not a number)
    and how many bytes of [t] the reference takes; [None] when [t] does
    not start with a name or [{name}]. *)
Definition extract (letterOrDigit : RuneClass) (t : string) : option (option N * nat) :=
  match t with
  | EmptyString => None
  | String c t' =>
      let brace := Ascii.eqb c "{" in
      let body := if brace then t' else t in
      let i := name_len letterOrDigit body in
      if (i =? 0)%nat then None
      else
        let name := Str.take i body in
        if brace then
          match String.get i body with
          | Some "}"%char => Some (parse_num name, S (S i))
          | _ => None
          end
        else Some (parse_num name, i)
  end.

Definition group_text (num : option N) (caps : Caps) : string :=
  match num with
  | Some n => default EmptyString (group n caps)
  | None => EmptyString
  end.

(** [Regexp.expand]: the template with [$n] and [${n}] replaced by the
    text of group [n] and [$$] by [$].  [skip] counts the bytes of the
    template that belong to the reference just expanded. *)
Fixpoint expand_from (letterOrDigit : RuneClass) (caps : Caps) (skip : nat) (t : string) : string :=
  match t with
  | EmptyString => EmptyString
  | String c t' =>
      match skip with
      | S n => expand_from letterOrDigit caps n t'
      | O =>
          if Ascii.eqb c "$" then
            match t' with
            | String "$" _ => String "$" (expand_from letterOrDigit caps 1 t')
            | _ =>
                match extract letterOrDigit t' with
                | Some (num, used) =>
                    group_text num caps +:+ expand_from letterOrDigit caps used t'
                | None => String "$" (expand_from letterOrDigit caps 0 t')
                end
            end
          else String c (expand_from letterOrDigit caps 0 t')
      end
  end.

Definition expand (letterOrDigit : RuneClass) (caps : Caps) (template : string) : string :=
  expand_from letterOrDigit caps 0 template.

(** The number of bytes of [s] that a match leaving [rest] has taken. *)
Definition match_len (s rest : string) : nat :=
  String.length s - String.length rest.

(** [ReplaceAllString]: every match, found from left to right without
    overlap, is replaced by the expanded template.  [skip] counts the
    bytes of the match just replaced that are still ahead.  The patterns
    of the package never match the empty string (each starts with a
    literal), so an empty match counts as none here. *)
Fixpoint replace_from (letterOrDigit : RuneClass) (p : Prog) (repl : string)
    (skip : nat) (s : string) : string :=
  match s with
  | EmptyString => EmptyString
  | String c s' =>
      match skip with
      | S n => replace_from letterOrDigit p repl n s'
      | O =>
          match match_here p s with
          | Some (caps, rest) =>
              match match_len s rest with
              | S n =>
                  expand letterOrDigit caps repl +:+ replace_from letterOrDigit p repl n s'
              | O => String c (replace_from letterOrDigit p repl 0 s')
              end
          | None => String c (replace_from letterOrDigit p repl 0 s')
          end
      end
  end.

Definition ReplaceAllString (letterOrDigit : RuneClass) (p : Prog) (src repl : string) : string :=
  replace_from letterOrDigit p repl 0 src.

Fixpoint numSubexp (r : Regexp) : nat :=
  match r with
  | Lit _ | NotChar _ => 0
  | Cat r1 r2 | Alt r1 r2 => numSubexp r1 `max` numSubexp r2
  | Plus r1 => numSubexp r1
  | Cap i r1 => N.to_nat i `max` numSubexp r1
  end.

(** The slice a submatch function returns: the whole match, then each
    group, the empty string for a group that took no part. *)
Definition submatches (p : Prog) (caps : Caps) : list string :=
  (λ i, default EmptyString (group (N.of_nat i) caps)) <$> seq 0 (S (numSubexp (expr p))).

(** [FindAllStringSubmatch(s, -1)] *)
Fixpoint find_all_from (p : Prog) (skip : nat) (s : string) : list (list string) :=
  match s with
  | EmptyString => []
  | String c s' =>
      match skip with
      | S n => find_all_from p n s'
      | O =>
          match match_here p s with
          | Some (caps, rest) =>
              match match_len s rest with
              | S n => submatches p caps :: find_all_from p n s'
              | O => find_all_from p 0 s'
              end
          | None => find_all_from p 0 s'
          end
      end
  end.

Definition FindAllStringSubmatch (p : Prog) (s : string) : list (list string) :=
  find_all_from p 0 s.

End Replace.
Export Replace.

(** ** The three patterns of the package *)

Definition iU : Flags := {| foldCase := true; ungreedy := true |}.

(** The patterns are written here with Q for the double quote.
    [linkRegex] is (?iU)href=Q/read/([^Q]+)Q *)
Definition linkRegex : Prog :=
  {| flags := iU;
     expr := Cat (Lit ("href=" +:+ String dq "/read/"))
            (Cat (Cap 1 (Plus (NotChar dq))) (Lit (String dq EmptyString))) |}.

(** (?iU)(href|src)=Q([^Q]+)/api/v1/content/([^Q]+)Q *)
Definition attachmentRegex : Prog :=
  {| flags := iU;
     expr := Cat (Cap 1 (Alt (Lit "href") (Lit "src")))
            (Cat (Lit ("=" +:+ String dq EmptyString))
            (Cat (Cap 2 (Plus (NotChar dq)))
            (Cat (Lit "/api/v1/content/")
            (Cat (Cap 3 (Plus (NotChar dq))) (Lit (String dq EmptyString)))))) |}.

(** (?iU)(href|src)=Q([^Q]+/api/v1/content/)([^Q]+)Q *)
Definition attachmentURLRegex : Prog :=
  {| flags := iU;
     expr := Cat (Cap 1 (Alt (Lit "href") (Lit "src")))
            (Cat (Lit ("=" +:+ String dq EmptyString))
            (Cat (Cap 2 (Cat (Plus (NotChar dq)) (Lit "/api/v1/content/")))
            (Cat (Cap 3 (Plus (NotChar dq))) (Lit (String dq EmptyString))))) |}.



(** ** The parts of Go's library the package calls *)

Module time.

(** A [time.Time]: an instant, in nanoseconds since the Unix epoch, and
    the offset of its location, in seconds east of UTC. *)
Record Time := { instant : Z; zoneOffset : Z }.

#[global] Instance Time_eq_dec : EqDecision Time.
Proof. solve_decision. Defined.

(** A [time.Duration] counts nanoseconds. *)
Definition Hour : Z := 3600 * 1000000000.

Definition Add (t : Time) (d : Z) : Time :=
  {| instant := instant t + d; zoneOffset := zoneOffset t |}.

Definition Before (t u : Time) : bool := (instant t <? instant u)%Z.

(** The year of the civil date of [t] in its location (proleptic
    Gregorian calendar, as in Go). *)
Definition Year (t : Time) : Z :=
  let secs := (instant t / 1000000000 + zoneOffset t)%Z in
  let z := (secs / 86400 + 719468)%Z in
  let era := (z / 146097)%Z in
  let doe := (z - era * 146097)%Z in
  let yoe := ((doe - doe / 1460 + doe / 36524 - doe / 146096) / 365)%Z in
  let doy := (doe - (365 * yoe + yoe / 4 - yoe / 100))%Z in
  let mp := ((5 * doy + 2) / 153)%Z in
  (yoe + era * 400 + (if (mp <? 10)%Z then 0 else 1))%Z.

(** The zero [Time]: January 1 of year 1, UTC. *)
Definition zero : Time := {| instant := -62135596800 * 1000000000; zoneOffset := 0 |}.

End time.

Module filepath.

(** The elements of a slash-separated path. *)
Fixpoint split (cur : string) (s : string) : list string :=
  match s with
  | EmptyString => [cur]
  | String c s' =>
      if Ascii.eqb c "/" then cur :: split EmptyString s'
      else split (cur +:+ String c EmptyString) s'
  end.

Fixpoint join (elems : list string) : string :=
  match elems with
  | [] => EmptyString
  | [e] => e
  | e :: elems' => e +:+ String "/" (join elems')
  end.

(** One element of [Clean]: the elements kept so far are in [stack],
    the last one first. *)
Definition cleanStep (rooted : bool) (stack : list string) (e : string) : list string :=
  if decide (e = EmptyString ∨ e = ".") then stack
  else if decide (e = "..") then
    match stack with
    | top :: stack' =>
        if decide (top = "..") then e :: stack else stack'
    | [] => if rooted then stack else [e]
    end
  else e :: stack.

(** [filepath.Clean] on a Unix path. *)
Definition Clean (path : string) : string :=
  let rooted := Str.hasPrefix "/" path in
  let kept := reverse (foldl (cleanStep rooted) [] (split EmptyString path)) in
  let out := (if rooted then "/" else EmptyString) +:+ join kept in
  if decide (out = EmptyString) then "." else out.

(** [filepath.Join]: the elements from the first non-empty one on,
    joined by slashes and cleaned. *)
Fixpoint Join (elem : list string) : string :=
  match elem with
  | [] => EmptyString
  | e :: elem' =>
      if decide (e = EmptyString) then Join elem' else Clean (join elem)
  end.

End filepath.

(** ** The CMS client (package [emvi]): the types the package uses *)

Module emvi.

Record ArticleContent := {
  Title : string;
  Content : string;
  LanguageId : string;
}.

(** [LatestArticleContent] is a pointer in Go: [None] is [nil]. *)
Record Article := {
  Id : string;
  Published : time.Time;
  LatestArticleContent : option ArticleContent;
}.

#[global] Instance ArticleContent_eq_dec : EqDecision ArticleContent.
Proof. solve_decision. Defined.
#[global] Instance Article_eq_dec : EqDecision Article.
Proof. solve_decision. Defined.

(** The zero value of [Article], which a Go map yields for a key it
    does not hold. *)
Definition zeroArticle : Article :=
  {| Id := EmptyString; Published := time.zero; LatestArticleContent := None |}.

(** A Go result with an error. *)
Inductive Result (A : Type) : Type :=
| Ok (a : A)
| Err (e : string).
Arguments Ok {A} a.
Arguments Err {A} e.

(** What the remote answers during one refresh.  [FindArticles off] is
    the page of published articles tagged [blog], newest first, at
    offset [off]; a refresh asks for each offset at most once, and once
    for the content of each article. *)
Record Client := {
  FindArticles : nat → Result (list Article);
  GetArticle : string → string → Result ArticleContent;
}.

End emvi.
Import emvi.


(** ** The outside world *)

Module world.

Inductive Level := LDebug | LInfo | LError.

(** What the package does to the outside, in the order it does it. *)
Inductive Event :=
| EvLog (lvl : Level) (msg : string)          (* logbuch.Debug/Info/Error *)
| EvFindArticles (offset : nat)               (* client.FindArticles *)
| EvGetArticle (id languageId : string)       (* client.GetArticle *)
| EvHttpGet (url : string)                    (* http.Get *)
| EvStat (path : string)                      (* os.Stat *)
| EvMkdirAll (path : string)                  (* os.MkdirAll *)
| EvWriteFile (path data : string).           (* ioutil.WriteFile *)

#[global] Instance Level_eq_dec : EqDecision Level.
Proof. solve_decision. Defined.
#[global] Instance Event_eq_dec : EqDecision Event.
Proof. solve_decision. Defined.

(** The file system under the working directory, and the trace. *)
Record World := {
  dirs : gset string;
  files : gmap string string;
  trace : list Event;
}.

(** [http.Get] followed by [ioutil.ReadAll]. *)
Inductive Download :=
| GetFails
| ReadFails
| Body (data : string).

(** Go leaves the order of a [range] over a map open: any order of the
    entries, not the same from one loop to the next. *)
Record RangeOrder := {
  range : gmap string Article → list (string * Article);
  range_perm : ∀ m, range m ≡ₚ map_to_list m;
}.

(** How the outside answers during one operation of the cache. *)
Record Env := {
  client : Client;
  httpGet : string → Download;
  statFails : string → bool;  (* os.Stat fails, and not because the path is missing *)
  mkdirAllFails : string → bool;
  writeFileFails : string → bool;
  letterOrDigit : RuneClass;  (* the tables of package unicode *)
  now : time.Time;            (* time.Now() when the operation starts *)
  nowDone : time.Time;        (* time.Now() at the end of a refresh *)
  rangeLoad : RangeOrder;     (* the range in loadArticles *)
  rangeSet : RangeOrder;      (* the range in setArticles *)
  rangeLatest : RangeOrder;   (* the range in GetLatestArticles *)
}.

(** A call returns, panics (a nil pointer is dereferenced) or does not
    come back within the pages the model follows. *)
Inductive Outcome (A : Type) : Type :=
| Done (a : A)
| Panics
| Diverges.
Arguments Done {A} a.
Arguments Panics {A}.
Arguments Diverges {A}.

Definition M (A : Type) : Type := World → Outcome (A * World).

#[global] Instance M_ret : MRet M := λ A a w, Done (a, w).
#[global] Instance M_bind : MBind M := λ A B f m w,
  match m w with
  | Done (a, w') => f a w'
  | Panics => Panics
  | Diverges => Diverges
  end.

(** The world after one more event. *)
Definition logged (e : Event) (w : World) : World :=
  {| dirs := dirs w; files := files w; trace := trace w ++ [e] |}.

Definition emit (e : Event) : M unit := λ w, Done (tt, logged e w).
Definition getWorld : M World := λ w, Done (w, w).
Definition addDir (path : string) : M unit := λ w,
  Done (tt, {| dirs := {[path]} ∪ dirs w; files := files w; trace := trace w |}).
Definition putFile (path data : string) : M unit := λ w,
  Done (tt, {| dirs := dirs w; files := <[path := data]> (files w); trace := trace w |}).
Definition panic {A} : M A := λ _, Panics.
Definition diverge {A} : M A := λ _, Diverges.

(** The disk has neither a directory nor a file at [path]. *)
Definition notExist (path : string) (w : World) : bool :=
  bool_decide ((path ∉ dirs w) ∧ (files w !! path = None)).

(** [os.IsNotExist] of the error of [os.Stat(path)]: the call has failed
    because the path is missing.  It can fail for other reasons (a name
    too long, a directory that may not be searched, ...), and then the
    error is not of that kind. *)
Definition statIsNotExist (env : Env) (path : string) (w : World) : bool :=
  negb (statFails env path) && notExist path w.

(** A [for] over a slice, for its effects. *)
Fixpoint forEach {A} (l : list A) (body : A → M unit) : M unit :=
  match l with
  | [] => mret tt
  | x :: l' => body x ;; forEach l' body
  end.

End world.
Import world.

(** ** Package [blog] *)

Module blog.

Definition blogCacheTime : Z := time.Hour.
Definition blogFileCache : string := "static/blog".
Definition maxLatestArticles : nat := 3.

(** The replacement of [linkRegex]: href=Q/blog/$1Q *)
Definition linkTemplate : string :=
  "href=" +:+ String dq ("/blog/$1" +:+ String dq EmptyString).

(** [fmt.Sprintf] of $1=Q/static/blog/%s/$3Q with the article id. *)
Definition attachmentTemplate (id : string) : string :=
  "$1=" +:+ String dq ("/static/blog/" +:+ id +:+ "/$3" +:+ String dq EmptyString).

Record Blog := {
  articles : gmap string Article;          (* id -> article *)
  articlesYear : gmap Z (list Article);    (* year -> articles *)
  nextUpdate : time.Time;
}.

Definition withContent (v : Article) (c : option ArticleContent) : Article :=
  {| Id := Id v; Published := Published v; LatestArticleContent := c |}.

Definition withBody (c : ArticleContent) (body : string) : ArticleContent :=
  {| Title := Title c; Content := body; LanguageId := LanguageId c |}.

Definition withNextUpdate (b : Blog) (t : time.Time) : Blog :=
  {| articles := articles b; articlesYear := articlesYear b; nextUpdate := t |}.

(** One attachment of [downloadAttachments]: fetch it and save it. *)
Definition downloadAttachment (env : Env) (id : string) (attachment : list string) : M unit :=
  match attachment with
  | [_; _; prefix; name] =>
      emit (EvHttpGet (prefix +:+ name)) ;;
      match httpGet env (prefix +:+ name) with
      | GetFails => emit (EvLog LError "Error downloading blog attachment")
      | ReadFails => emit (EvLog LError "Error reading blog attachment body")
      | Body data =>
          let path := filepath.Join [blogFileCache; id; name] in
          emit (EvWriteFile path data) ;;
          if writeFileFails env path
          then emit (EvLog LError "Error saving blog attachment on disk")
          else putFile path data
      end
  | _ => mret tt
  end.

Definition downloadAttachments (env : Env) (id content : string) : M unit :=
  let dir := filepath.Join [blogFileCache; id] in
  emit (EvStat dir) ;;
  w ← getWorld;
  made ←
    (if statIsNotExist env dir w then
       emit (EvMkdirAll dir) ;;
       if mkdirAllFails env dir
       then emit (EvLog LError "Error creating article file cache directory") ;; mret false
       else addDir dir ;; mret true
     else mret true);
  if made : bool then
    forEach (FindAllStringSubmatch attachmentURLRegex content) (downloadAttachment env id)
  else mret tt.

(** The two replacements of [loadArticle]: of the links to other
    articles, then of the references to attachments. *)
Definition rewriteLinks (env : Env) (content : string) : string :=
  ReplaceAllString (letterOrDigit env) linkRegex content linkTemplate.

Definition rewriteAttachments (env : Env) (id content : string) : string :=
  ReplaceAllString (letterOrDigit env) attachmentRegex content (attachmentTemplate id).

Definition rewriteContent (env : Env) (id content : string) : string :=
  rewriteAttachments env id (rewriteLinks env content).

Definition loadArticle (env : Env) (article : Article) : M (option ArticleContent) :=
  match LatestArticleContent article with
  | None => panic
  | Some latest =>
      emit (EvGetArticle (Id article) (LanguageId latest)) ;;
      match GetArticle (client env) (Id article) (LanguageId latest) with
      | Err _ => emit (EvLog LError "Error loading article") ;; mret None
      | Ok content =>
          downloadAttachments env (Id article) (Content content) ;;
          emit (EvLog LDebug "Article loaded") ;;
          mret (Some (withBody content (rewriteContent env (Id article) (Content content))))
      end
  end.

(** One round of the [for] in [setArticles]. *)
Definition addToYear (years : gmap Z (list Article)) (article : Article) : gmap Z (list Article) :=
  let year := time.Year (Published article) in
  let years := match years !! year with
               | None => <[year := []]> years
               | Some _ => years
               end in
  <[year := default [] (years !! year) ++ [article]]> years.

Definition setArticles (env : Env) (arts : gmap string Article) (b : Blog) : Blog :=
  {| articles := arts;
     articlesYear := foldl addToYear ∅ ((range (rangeSet env) arts).*2);
     nextUpdate := nextUpdate b |}.

(** The inner [for] of the paging loop: the articles of a page, stored
    under their ids. *)
Definition addAll (arts : gmap string Article) (results : list Article) :
    gmap string Article :=
foldl (λ m article, <[Id article := article]> m) arts results.

(** The paging loop of [loadArticles], from the call at [offset] on:
    the articles found and the error of the last call.  [fuel] bounds the
    number of pages. *)
Fixpoint findAll (fuel : nat) (c : Client) (offset : nat)
    (arts : gmap string Article) : M (gmap string Article * option string) :=
  match fuel with
  | O => diverge
  | S fuel' =>
      emit (EvFindArticles offset) ;;
      match FindArticles c offset with
      | Err e =>
          emit (EvLog LError "Error loading blog articles") ;;
          mret (arts, Some e)
      | Ok results =>
          let arts := addAll arts results in
          if (0 <? List.length results)%nat
          then findAll fuel' c (offset + List.length results) arts
          else mret (arts, None)
      end
  end.

(** The second loop of [loadArticles]: the content of every article. *)
Fixpoint loadAll (env : Env) (entries : list (string * Article))
    (arts : gmap string Article) : M (gmap string Article) :=
  match entries with
  | [] => mret arts
  | (k, v) :: entries' =>
      content ← loadArticle env v;
      loadAll env entries' (<[k := withContent v content]> arts)
  end.

Definition loadArticles (fuel : nat) (env : Env) (b : Blog) : M Blog :=
  emit (EvLog LInfo "Refreshing blog articles...") ;;
  '(arts, err) ← findAll fuel (client env) 0 ∅;
  b ← match err with
      | None =>
          arts ← loadAll env (range (rangeLoad env) arts) arts;
          mret (setArticles env arts b)
      | Some _ => mret b
      end;
  let b := withNextUpdate b (time.Add (nowDone env) blogCacheTime) in
  emit (EvLog LInfo "Done") ;;
  mret b.

Definition refreshIfRequired (fuel : nat) (env : Env) (b : Blog) : M Blog :=
  if time.Before (nextUpdate b) (now env) then loadArticles fuel env b else mret b.

Definition NewBlog (fuel : nat) (env : Env) : M Blog :=
  emit (EvLog LInfo "Initializing blog") ;;
  let b := {| articles := ∅; articlesYear := ∅;
              nextUpdate := time.Add (now env) blogCacheTime |} in
  emit (EvMkdirAll blogFileCache) ;;
  (if mkdirAllFails env blogFileCache
   then emit (EvLog LError "Error creating blog file cache directory")
   else addDir blogFileCache) ;;
  loadArticles fuel env b.

Definition GetArticle (fuel : nat) (env : Env) (id : string) (b : Blog) : M (Article * Blog) :=
  b ← refreshIfRequired fuel env b;
  mret (default zeroArticle (articles b !! id), b).

Definition GetArticles (fuel : nat) (env : Env) (b : Blog) : M (gmap Z (list Article) * Blog) :=
  b ← refreshIfRequired fuel env b;
  mret (articlesYear b, b).

(** The [for] of [GetLatestArticles] over the values still to come, with
    the counter [i] and the slice built so far. *)
Fixpoint latestLoop (values : list Article) (i : nat) (acc : list Article) : list Article :=
  match values with
  | [] => acc
  | v :: values' =>
      let acc := acc ++ [v] in
      let i := S i in
      if (maxLatestArticles <? i)%nat then acc else latestLoop values' i acc
  end.

Definition GetLatestArticles (fuel : nat) (env : Env) (b : Blog) : M (list Article * Blog) :=
  b ← refreshIfRequired fuel env b;
  mret (latestLoop ((range (rangeLatest env) (articles b)).*2) 0 [], b).

End blog.
Import blog.


(** ** Fixtures: a remote with three articles, used by the examples *)

Module fixtures.

(** The order [map_to_list] gives, and its reverse: two orders a
    [range] may take. *)
Definition listOrder : RangeOrder :=
  {| range := map_to_list; range_perm := λ m, reflexivity _ |}.

Definition reverseOrder : RangeOrder :=
  {| range := λ m, reverse (map_to_list m);
     range_perm := λ m, reverse_Permutation _ |}.

Definition at_ (secs : Z) : time.Time :=
  {| time.instant := secs * 1000000000; time.zoneOffset := 0 |}.

Definition listed (id : string) (published : Z) : Article :=
  {| Id := id; Published := at_ published;
     LatestArticleContent :=
       Some {| Title := EmptyString; Content := EmptyString; LanguageId := "en" |} |}.

Definition body : string :=
  markup "<a href='/read/x'>next</a><img src='https://emvi.com/api/v1/content/f.png'>".

(** Two articles of 2021 and one of 1970 on the first page; the
    content of [b] cannot be fetched. *)
Definition remote : Client :=
  {| emvi.FindArticles := λ off,
       if (off =? 0)%nat
       then Ok [listed "a" 1609459200; listed "b" 1609459300; listed "c" 0]
       else Ok [];
     emvi.GetArticle := λ id lang,
       if decide (id = "b") then Err "unavailable"
       else Ok {| Title := id; Content := body; LanguageId := lang |} |}.

(** A remote with one article, whose body is one image. *)
Definition imageRemote : Client :=
  {| emvi.FindArticles := λ off,
       if (off =? 0)%nat then Ok [listed "a" 1609459200] else Ok [];
     emvi.GetArticle := λ id lang,
       Ok {| Title := id;
             Content := markup "<img src='https://emvi.com/api/v1/content/f.png'>";
             LanguageId := lang |} |}.

(** A remote with one article, whose body is [content]. *)
Definition single (content : string) : Client :=
  {| emvi.FindArticles := λ off,
       if (off =? 0)%nat then Ok [listed "a" 1609459200] else Ok [];
     emvi.GetArticle := λ id lang,
       Ok {| Title := id; Content := content; LanguageId := lang |} |}.


(** A remote whose second page cannot be listed. *)
Definition brokenRemote : Client :=
  {| emvi.FindArticles := λ off,
       if (off =? 0)%nat then Ok [listed "a" 1609459200] else Err "timeout";
     emvi.GetArticle := λ id lang, Err "unavailable" |}.

(** The letters of Latin-1 and of Latin Extended-A and B: the part of
    the tables of [unicode] that the examples can meet. *)
Definition latinLetter : RuneClass :=
  λ r, within 192 591 r && negb (r =? 215)%N && negb (r =? 247)%N.

Definition env (c : Client) (start done : Z) (order : RangeOrder) : Env :=
  {| client := c;
     httpGet := λ url, Body "png";
     statFails := λ _, false;
     mkdirAllFails := λ _, false;
     writeFileFails := λ _, false;
     letterOrDigit := latinLetter;
     now := at_ start;
     nowDone := at_ done;
     rangeLoad := order; rangeSet := order; rangeLatest := order |}.

(** The environment of the examples on the markup. *)
Definition sample : Env := env remote 0 1 listOrder.

(** What the paging loop collects from [remote]. *)
Definition listedArticles : gmap string Article :=
  addAll ∅ [listed "a" 1609459200; listed "b" 1609459300; listed "c" 0].

Definition emptyWorld : World := {| dirs := ∅; files := ∅; trace := [] |}.

Definition emptyBlog (deadline : Z) : Blog :=
  {| articles := ∅; articlesYear := ∅; nextUpdate := at_ deadline |}.

(** A cache that holds four articles. *)
Definition fourArticles (deadline : Z) : Blog :=
  setArticles (env remote 0 0 listOrder)
    (addAll ∅ [listed "a" 1609459200; listed "b" 1609459300; listed "c" 0;
               listed "d" 86400])
    (emptyBlog deadline).

End fixtures.

(** ** Vocabulary of the statements *)

(** [Extends P w w']: [w'] is [w] after some events that all satisfy
    [P]; nothing has left the file system. *)
Definition Extends (P : Event → Prop) (w w' : World) : Prop :=
  dirs w ⊆ dirs w' ∧ dom (files w) ⊆ dom (files w') ∧
  ∃ evs, trace w' = trace w ++ evs ∧ Forall P evs.

Definition Emits (P : Event → Prop) {A} (m : M A) : Prop :=
  ∀ w a w', m w = Done (a, w') → Extends P w w'.

(** The event that opens every refresh attempt. *)
Definition refreshStarted : Event := EvLog LInfo "Refreshing blog articles...".

Definition refreshDone : Event := EvLog LInfo "Done".

(** The refresh attempts in a trace. *)
Definition refreshCount (tr : list Event) : nat :=
  List.length (filter (λ e, e = refreshStarted) tr).

Definition quiet (e : Event) : Prop := e ≠ refreshStarted.

(** The paging loop as a relation: [Listing c off arts n r] when the loop
    that is about to ask for offset [off], holding [arts], ends after [n]
    calls with the articles and the error [r]. *)
Inductive Listing (c : Client) :
    nat → gmap string Article → nat → gmap string Article * option string → Prop :=
| Listing_fails off arts e :
    FindArticles c off = Err e →
    Listing c off arts 1 (arts, Some e)
| Listing_ends off arts :
    FindArticles c off = Ok [] →
    Listing c off arts 1 (arts, None)
| Listing_page off arts results n r :
    FindArticles c off = Ok results →
    results ≠ [] →
    Listing c (off + List.length results) (addAll arts results) n r →
    Listing c off arts (S n) r.

(** The deadline a refresh sets. *)
Definition deadlineAfter (env : Env) : time.Time :=
  time.Add (nowDone env) blogCacheTime.

Definition Returns {A} (m : M A) : Prop := ∀ w, ∃ a w', m w = Done (a, w').

(** The content [loadArticle] returns for an article whose content
    pointer is set. *)
Definition fetched (env : Env) (latest : ArticleContent) (v : Article) :
    option ArticleContent :=
  match emvi.GetArticle (client env) (Id v) (LanguageId latest) with
  | Ok content => Some (withBody content (rewriteContent env (Id v) (Content content)))
  | Err _ => None
  end.

Definition ingested (env : Env) (v : Article) : Article :=
  withContent v (latest ← LatestArticleContent v; fetched env latest v).

Definition hasContent (v : Article) : Prop := is_Some (LatestArticleContent v).

(** The entries of the content loop, stored one by one. *)
Definition storeAll (env : Env) (entries : list (string * Article))
    (arts : gmap string Article) : gmap string Article :=
  foldl (λ m kv, <[kv.1 := ingested env kv.2]> m) arts entries.

(** The blog after an attempt whose paging loop ended with [arts] and
    [err]. *)
Definition refreshed (env : Env) (arts : gmap string Article)
    (err : option string) (b : Blog) : Blog :=
  withNextUpdate
    (match err with
     | None => setArticles env (ingested env <$> arts) b
     | Some _ => b
     end)
    (deadlineAfter env).

(** The attempt returns: the listing ends within [fuel] pages and, when it
    ends without an error, every listed article has its content pointer
    set, so that [loadArticle] does not dereference nil. *)
Definition Completes (fuel : nat) (env : Env)
    (arts : gmap string Article) (err : option string) : Prop :=
  (∃ n, n ≤ fuel ∧ Listing (client env) 0 ∅ n (arts, err)) ∧
  (err = None → map_Forall (λ _ v, hasContent v) arts).

(** The trace of an attempt: it opens with [refreshStarted], closes with
    [refreshDone], and no other attempt opens in between. *)
Definition AttemptTrace (w w' : World) : Prop :=
  dirs w ⊆ dirs w' ∧ dom (files w) ⊆ dom (files w') ∧
  ∃ evs, trace w' = trace w ++ refreshStarted :: evs ++ [refreshDone] ∧
         Forall quiet evs.

(** What the three reads return from a blog that needs no refresh. *)
Definition latestOf (env : Env) (b : Blog) : list Article :=
  latestLoop ((range (rangeLatest env) (articles b)).*2) 0 [].

(** The three reads serve [b'] and leave the world [w']. *)
Definition ReadsServe (fuel : nat) (env : Env) (b : Blog) (w : World)
    (b' : Blog) (w' : World) : Prop :=
  (∀ id, GetArticle fuel env id b w =
         Done ((default zeroArticle (articles b' !! id), b'), w')) ∧
  GetArticles fuel env b w = Done ((articlesYear b', b'), w') ∧
  GetLatestArticles fuel env b w = Done ((latestOf env b', b'), w').


(** Every key of the id-index is the id of the article stored under it. *)
Definition KeysAreIds (arts : gmap string Article) : Prop :=
  ∀ id a, arts !! id = Some a → Id a = id.

(** The articles of an id-index that were published in year [y]. *)
Definition publishedIn (arts : gmap string Article) (y : Z) : list Article :=
  filter (λ a, time.Year (Published a) = y) (map_to_list arts).*2.

(** The year-index holds, for every year, the articles of the id-index
    published in it, in some order, and no empty bucket. *)
Definition YearsMatch (b : Blog) : Prop :=
  ∀ y, match articlesYear b !! y with
       | Some l => l ≠ [] ∧ l ≡ₚ publishedIn (articles b) y
       | None => publishedIn (articles b) y = []
       end.

(** The invariant of the cache. *)
Definition Inv (b : Blog) : Prop := KeysAreIds (articles b) ∧ YearsMatch b.

(** The two indexes agree: an article of the id-index is in the bucket of
    its year; an article of a bucket is in no bucket of another year, is
    in the id-index under its id, and is in its bucket once. *)
Definition Consistent (b : Blog) : Prop :=
  (∀ id a, articles b !! id = Some a →
     ∃ l, articlesYear b !! time.Year (Published a) = Some l ∧ a ∈ l) ∧
  (∀ y l a, articlesYear b !! y = Some l → a ∈ l →
     y = time.Year (Published a) ∧ articles b !! Id a = Some a) ∧
  (∀ y l, articlesYear b !! y = Some l → NoDup l).

(** The blogs a program can hold: the one [NewBlog] returns, and the one
    left by any read of such a blog. *)
Inductive Reachable : Blog → Prop :=
| Reachable_NewBlog fuel env w b w' :
    NewBlog fuel env w = Done (b, w') → Reachable b
| Reachable_GetArticle fuel env id b w a b' w' :
    Reachable b → GetArticle fuel env id b w = Done ((a, b'), w') → Reachable b'
| Reachable_GetArticles fuel env b w years b' w' :
    Reachable b → GetArticles fuel env b w = Done ((years, b'), w') → Reachable b'
| Reachable_GetLatestArticles fuel env b w latest b' w' :
    Reachable b → GetLatestArticles fuel env b w = Done ((latest, b'), w') →
    Reachable b'.

(** The blog [NewBlog] hands to its first refresh. *)
Definition newBlog (env : Env) : Blog :=
  {| articles := ∅; articlesYear := ∅;
     nextUpdate := time.Add (now env) blogCacheTime |}.

(** ** Vocabulary of the statements about the markup *)

(** The non-greedy loop over the class of all bytes but [c]: the shortest
    non-empty run after which [k] succeeds. *)
Fixpoint lazyRun {R} (c : ascii) (k : string → option R) (s : string) : option R :=
  match s with
  | EmptyString => None
  | String a s' =>
      if Ascii.eqb a c then None
      else match k s' with
           | Some x => Some x
           | None => lazyRun c k s'
           end
  end.

Definition linkOpen : string := "href=" +:+ String dq "/read/".

Definition api : string := "/api/v1/content/".
Definition eqQuote : string := "=" +:+ String dq EmptyString.

(** The opening of an attachment reference: the attribute name, the
    equals sign and the quote. *)
Definition opens (attr s : string) : option string :=
  s1 ← strip_lit true attr s; strip_lit true eqQuote s1.

(** The pattern after the opening. *)
Definition attachmentTail : Regexp :=
  Cat (Cap 2 (Plus (NotChar dq)))
 (Cat (Lit api)
 (Cat (Cap 3 (Plus (NotChar dq))) (Lit (String dq EmptyString)))).

Definition apiPath : string := "/api/v1/content".

(** An attachment reference: attr=Q host /api/v1/content/ xyz Q. *)
Definition reference (attr host xyz : string) : string :=
  attr +:+ eqQuote +:+ host +:+ api +:+ xyz +:+ String dq EmptyString.

Definition newLink (x : string) : string :=
  "href=" +:+ String dq "/blog/" +:+ x +:+ String dq EmptyString.

Definition newReference (attr id xyz : string) : string :=
  attr +:+ eqQuote +:+ "/static/blog/" +:+ id +:+ "/" +:+ xyz +:+
  String dq EmptyString.


(** ** Vocabulary of the statements about the downloads *)

(** The requests for [url] in a trace. *)
Definition httpCount (url : string) (tr : list Event) : nat :=
  List.length (filter (λ e, e = EvHttpGet url) tr).

(** The address [downloadAttachments] asks for a submatch. *)
Definition attachmentURL (attachment : list string) : option string :=
  match attachment with
  | [_; _; prefix; name] => Some (prefix +:+ name)
  | _ => None
  end.

(** How often [url] is referenced in a body. *)
Definition requested (url content : string) : nat :=
  List.length (filter (λ attachment, attachmentURL attachment = Some url)
                 (FindAllStringSubmatch attachmentURLRegex content)).

Definition articleDir (id : string) : string :=
  filepath.Join [blogFileCache; id].

(** The downloads of the article are reached: [os.Stat] does not report
    its directory missing, or [os.MkdirAll] makes it. *)
Definition usable (env : Env) (id : string) (w : World) : bool :=
  negb (statIsNotExist env (articleDir id) w) || negb (mkdirAllFails env (articleDir id)).

(** How often the refresh of one article asks for [url] in world [w]. *)
Definition wanted (env : Env) (url : string) (v : Article) (w : World) : nat :=
  match LatestArticleContent v with
  | Some latest =>
      match emvi.GetArticle (client env) (Id v) (LanguageId latest) with
      | Ok content =>
          if usable env (Id v) w then requested url (Content content) else 0
      | Err _ => 0
      end
  | None => 0
  end.

Definition wantedAll (env : Env) (url : string)
    (entries : list (string * Article)) (w : World) : nat :=
  sum_list ((λ kv, wanted env url kv.2 w) <$> entries).

(** The remote, the disk and the tables of [unicode] answer in [env2] as
    in [env]; the clock and the order of the ranges may differ. *)
Definition sameOutside (env env2 : Env) : Prop :=
  client env2 = client env ∧ httpGet env2 = httpGet env ∧
  statFails env2 = statFails env ∧
  mkdirAllFails env2 = mkdirAllFails env ∧
  writeFileFails env2 = writeFileFails env ∧
  letterOrDigit env2 = letterOrDigit env.

(** Two year-indexes hold the same articles in each bucket. *)
Definition sameBuckets (years1 years2 : gmap Z (list Article)) : Prop :=
  ∀ y, match years1 !! y, years2 !! y with
       | Some l1, Some l2 => l1 ≡ₚ l2
       | None, None => True
       | _, _ => False
       end.

(** The file system only grows. *)
Definition Grows (w w' : World) : Prop :=
  dirs w ⊆ dirs w' ∧ dom (files w) ⊆ dom (files w').

(** [o] is the literal [lit] up to the case of its ASCII letters. *)
Fixpoint sameFold (lit o : string) : bool :=
  match lit, o with
  | EmptyString, EmptyString => true
  | String c lit', String a o' => foldEq true c a && sameFold lit' o'
  | _, _ => false
  end.

(** ** Markup before a link or a reference *)

(** The text [s] ends within a quoted attribute value: it has an equals
    sign followed by a double quote, and no double quote after them. *)
Fixpoint openValue (s : string) : bool :=
  match s with
  | EmptyString => false
  | String a s' =>
      (Ascii.eqb a "=" &&
       match s' with
       | String b s'' => Ascii.eqb b dq && free_of dq s''
       | EmptyString => false
       end) || openValue s'
  end.

Definition quote : string := String dq EmptyString.

(** Every double quote of the literal follows an equals sign of the
    literal; [prev] is the character before it. *)
Fixpoint quoteAfterEq (prev : ascii) (lit : string) : bool :=
  match lit with
  | EmptyString => true
  | String c lit' =>
      (negb (Ascii.eqb c dq) || Ascii.eqb prev "=") && quoteAfterEq c lit'
  end.

(** A pattern that takes a double quote only together with the equals
    sign before it. *)
Fixpoint inner (r : Regexp) : bool :=
  match r with
  | Lit lit => quoteAfterEq " " lit
  | NotChar _ => false
  | Cat r1 r2 | Alt r1 r2 => inner r1 && inner r2
  | Plus r1 => match r1 with NotChar c => Ascii.eqb c dq | _ => false end
  | Cap _ r1 => inner r1
  end.

(** A pattern of such parts that ends with the literal double quote: the
    shape of the three patterns of the package. *)
Fixpoint closing (r : Regexp) : bool :=
  match r with
  | Lit lit => String.eqb lit quote
  | Cat r1 r2 => inner r1 && closing r2
  | Cap _ r1 => closing r1
  | _ => false
  end.

(** The result of a match, with the text [more] after what it leaves. *)
Definition followedBy (more : string) (r : option (Caps * string)) :
    option (Caps * string) :=
  match r with
  | Some (caps, rest) => Some (caps, rest +:+ more)
  | None => None
  end.

(** ** Package [main]: the functions that use the blog *)

Module gostrings.

(** [strings.Split(s, sep)] for a separator of one byte, as the
    separators of the program are: the pieces of [s] between the
    occurrences of [sep]; [s] itself, as the only piece, when it has
    none. *)
Fixpoint Split (s : string) (sep : ascii) : list string :=
  match s with
  | EmptyString => [EmptyString]
  | String c s' =>
      if Ascii.eqb c sep then EmptyString :: Split s' sep
      else match Split s' sep with
           | piece :: pieces => String c piece :: pieces
           | [] => [String c EmptyString]
           end
  end.

End gostrings.

Module main.

Definition envPrefix : string := "MB_".

(** [http.StatusFound] *)
Definition StatusFound : nat := 302.

(** What a template is rendered with. *)
Inductive Data :=
| AboutData (Articles : list Article)
| BlogData (Articles : gmap Z (list Article))
| ArticleData (Title Content : string) (Published : time.Time).

(** What a handler writes to the client. *)
Inductive Reply :=
| Redirect (url : string) (code : nat)               (* http.Redirect *)
| Render (name : string) (data : Data)               (* tplCache.Render *)
| RenderWithoutCache (name : string) (data : Data).  (* tplCache.RenderWithoutCache *)

(** A request served: whether [tracker.Hit] was called, and the reply. *)
Record Response := { hit : bool; reply : Reply }.

Definition notFound : Response :=
  {| hit := false; reply := Redirect "/notfound" StatusFound |}.

(** The handlers read the global [blogInstance]; here the blog is passed
    in and handed back. *)
Definition serveAbout (fuel : nat) (env : Env) (b : Blog) : M (Response * Blog) :=
  '(latest, b) ← blog.GetLatestArticles fuel env b;
  mret ({| hit := true; reply := Render "about.html" (AboutData latest) |}, b).

Definition serveBlogPage (fuel : nat) (env : Env) (b : Blog) : M (Response * Blog) :=
  '(years, b) ← blog.GetArticles fuel env b;
  mret ({| hit := true; reply := Render "blog.html" (BlogData years) |}, b).

(** [slugVar] is the part of the path that the route /blog/{slug} binds
    to slug. *)
Definition serveBlogArticle (fuel : nat) (env : Env) (slugVar : string) (b : Blog) :
    M (Response * Blog) :=
  let slug := gostrings.Split slugVar "-" in
  if (List.length slug =? 0)%nat then mret (notFound, b)
  else
    match slug !! (List.length slug - 1) with
    | None => panic
    | Some id =>
        '(article, b) ← blog.GetArticle fuel env id b;
        if (String.length (Id article) =? 0)%nat then mret (notFound, b)
        else
          match LatestArticleContent article with
          | None => panic
          | Some content =>
              mret ({| hit := true;
                       reply := RenderWithoutCache "article.html"
                                  (ArticleData (Title content) (Content content)
                                     (Published article)) |}, b)
          end
    end.

(** [environ] is what [os.Environ] returns. *)
Definition logEnvConfig (environ : list string) : M unit :=
  forEach environ (λ e,
    if hasPrefix envPrefix e then
      let pair := gostrings.Split e "=" in
      match pair !! 0, pair !! 1 with
      | Some key, Some value => emit (EvLog LInfo (key +:+ "=" +:+ value))
      | _, _ => panic
      end
    else mret tt).

End main.

(** ** Vocabulary of the further statements *)

(** The articles the first [n] calls of the paging loop receive, from
    the call at [off] on, in the order they are listed. *)
Fixpoint listedUpTo (c : Client) (off n : nat) : list Article :=
  match n with
  | O => []
  | S n' =>
      match FindArticles c off with
      | Ok results => results ++ listedUpTo c (off + List.length results) n'
      | Err _ => []
      end
  end.

(** The events of the paging loop. *)
Definition listingEvent (e : Event) : Prop :=
  match e with
  | EvFindArticles _ | EvLog _ _ => True
  | _ => False
  end.

(** The offsets asked for in a trace. *)
Definition offsets (tr : list Event) : list nat :=
  omap (λ e, match e with EvFindArticles off => Some off | _ => None end) tr.

(** An order of a [range] in which the entry of [id] comes last. *)
Definition lastOrder (id : string) : RangeOrder :=
  {| range := λ m, filter (λ kv, kv.1 ≠ id) (map_to_list m) ++
                  filter (λ kv, kv.1 = id) (map_to_list m);
     range_perm := λ m,
       transitivity
         (Permutation_app_comm _ _)
         (filter_app_complement (λ kv : string * Article, kv.1 = id)
            (map_to_list m)) |}.

(** [env] with other answers of the web server and the disk. *)
Definition withDisk (env : Env) (get : string → Download)
    (statErrs mkdirFails writeFails : string → bool) : Env :=
  {| client := client env;
     httpGet := get;
     statFails := statErrs;
     mkdirAllFails := mkdirFails;
     writeFileFails := writeFails;
     letterOrDigit := letterOrDigit env;
     now := now env;
     nowDone := nowDone env;
     rangeLoad := rangeLoad env;
     rangeSet := rangeSet env;
     rangeLatest := rangeLatest env |}.

(** A file name that [filepath.Clean] keeps as it is. *)
Definition simpleName (n : string) : Prop :=
  n ≠ EmptyString ∧ n ≠ "." ∧ n ≠ ".." ∧ free_of "/" n = true.

(** Where the markup of article [id] points for the attachment [name]
    (after the leading slash). *)
Definition savedPath (id name : string) : string :=
  "static/blog/" +:+ id +:+ "/" +:+ name.

(** A remote that lists the same article at every offset. *)
Definition endlessRemote : Client :=
  {| emvi.FindArticles := λ off, Ok [fixtures.listed "a" 0];
     emvi.GetArticle := λ id lang, Err "unavailable" |}.

(** A remote that lists article [a] on two pages: the entry of the
    second page is the newer one. *)
Definition duplicateRemote : Client :=
  {| emvi.FindArticles := λ off,
       if (off =? 0)%nat then Ok [fixtures.listed "a" 1]
       else if (off =? 1)%nat then Ok [fixtures.listed "a" 2]
       else Ok [];
     emvi.GetArticle := λ id lang, Err "unavailable" |}.

(** A cache that holds five articles; [e] is the newest. *)
Definition fiveArticles (deadline : Z) : Blog :=
  setArticles (fixtures.env fixtures.remote 0 0 fixtures.listOrder)
    (addAll ∅ [fixtures.listed "a" 1609459200; fixtures.listed "b" 1609459300;
               fixtures.listed "c" 0; fixtures.listed "d" 86400;
               fixtures.listed "e" 1700000000])
    (fixtures.emptyBlog deadline).

(** The pattern of the downloads after the opening. *)
Definition attachmentURLTail : Regexp :=
  Cat (Cap 2 (Cat (Plus (NotChar dq)) (Lit api)))
 (Cat (Cap 3 (Plus (NotChar dq))) (Lit (String dq EmptyString))).

(** A remote with one article, whose image has a name that leads out
    of the directory of the article. *)
Definition escapingRemote : Client :=
  {| emvi.FindArticles := λ off,
       if (off =? 0)%nat then Ok [fixtures.listed "a" 1609459200] else Ok [];
     emvi.GetArticle := λ id lang,
       Ok {| Title := id;
             Content := markup "<img src='https://emvi.com/api/v1/content/../f.png'>";
             LanguageId := lang |} |}.

(** A remote with one article, whose link is written in capitals. *)
Definition capitalsRemote : Client :=
  {| emvi.FindArticles := λ off,
       if (off =? 0)%nat then Ok [fixtures.listed "a" 1609459200] else Ok [];
     emvi.GetArticle := λ id lang,
       Ok {| Title := id; Content := markup "<A HREF='/Read/x'>next</A>";
             LanguageId := lang |} |}.

(** ** What it is to ingest an article fully *)




(** ** Reasoning about the monad *)

Section monad.
Context {A B : Type}.

Lemma bind_Done (m : M A) (f : A → M B) w a w' :
  m w = Done (a, w') → (m ≫= f) w = f a w'.
Proof. intros H. unfold mbind, M_bind. by rewrite H. Qed.

Lemma bind_inv (m : M A) (f : A → M B) w b w'' :
  (m ≫= f) w = Done (b, w'') →
  ∃ a w', m w = Done (a, w') ∧ f a w' = Done (b, w'').
Proof.
  unfold mbind, M_bind. destruct (m w) as [[a w']| |]; [eauto|done..].
Qed.
End monad.

Section extends.
Context (P : Event → Prop).

Lemma Extends_refl w : Extends P w w.
Proof. repeat split; [done..|]. exists []. by rewrite app_nil_r. Qed.

Lemma Extends_trans w1 w2 w3 : Extends P w1 w2 → Extends P w2 w3 → Extends P w1 w3.
Proof.
  intros (Hd1 & Hf1 & evs1 & Ht1 & HP1) (Hd2 & Hf2 & evs2 & Ht2 & HP2).
  repeat split; [set_solver..|].
  exists (evs1 ++ evs2). rewrite Ht2, Ht1, <-app_assoc. split; [done|].
  by apply Forall_app.
Qed.

Lemma Emits_ret {A} (a : A) : Emits P (mret a).
Proof. intros w a' w' [= _ <-]. apply Extends_refl. Qed.

Lemma Emits_bind {A B} (m : M A) (f : A → M B) :
  Emits P m → (∀ a, Emits P (f a)) → Emits P (m ≫= f).
Proof.
  intros Hm Hf w b w'' (a & w' & H1 & H2)%bind_inv.
  eapply Extends_trans; [by eapply Hm|by eapply Hf].
Qed.

Lemma Emits_emit e : P e → Emits P (emit e).
Proof.
  intros He w [] w' [= <-]. repeat split; [done..|].
  exists [e]. split; [done|]. by constructor.
Qed.

Lemma Emits_getWorld : Emits P getWorld.
Proof. intros w a w' [= _ <-]. apply Extends_refl. Qed.

Lemma Emits_addDir d : Emits P (addDir d).
Proof.
  intros w [] w' [= <-]. repeat split; simpl; [set_solver|done|].
  exists []. by rewrite app_nil_r.
Qed.

Lemma Emits_putFile path data : Emits P (putFile path data).
Proof.
  intros w [] w' [= <-]. repeat split; simpl; [done|set_solver|].
  exists []. by rewrite app_nil_r.
Qed.

Lemma Emits_forEach {A} (l : list A) (body : A → M unit) :
  (∀ x, Emits P (body x)) → Emits P (forEach l body).
Proof.
  intros Hbody. induction l as [|x l IH]; simpl.
  - apply Emits_ret.
  - apply Emits_bind; [apply Hbody|]. by intros [].
Qed.
End extends.

Create HintDb emits.
#[local] Hint Resolve Emits_ret Emits_emit Emits_getWorld Emits_addDir
  Emits_putFile : emits.

Ltac emits :=
  repeat first
    [ solve [eauto with emits]
    | apply Emits_bind; [|intros ?]
    | apply Emits_forEach; intros ?
    | match goal with
      | |- Emits _ (match ?x with _ => _ end) => destruct x
      | |- Emits _ (if ?x then _ else _) => destruct x
      | |- Emits _ (let '(_, _) := ?x in _) => destruct x
      end ].

(** ** The refresh, step by step *)

Ltac quiet := emits; try (apply Emits_emit; unfold quiet, refreshStarted; congruence).

Lemma Emits_downloadAttachments env id content :
  Emits quiet (downloadAttachments env id content).
Proof.
  unfold downloadAttachments, downloadAttachment. quiet.
Qed.
#[local] Hint Resolve Emits_downloadAttachments : emits.

Lemma Emits_loadArticle env v : Emits quiet (loadArticle env v).
Proof.
  unfold loadArticle. destruct (LatestArticleContent v); [|done].
  quiet.
Qed.
#[local] Hint Resolve Emits_loadArticle : emits.

Lemma Emits_loadAll env entries arts : Emits quiet (loadAll env entries arts).
Proof.
  revert arts. induction entries as [|[k v] entries IH]; intros arts; simpl.
  - emits.
  - apply Emits_bind; [apply Emits_loadArticle|]. intros c. apply IH.
Qed.

Lemma Emits_findAll fuel c off arts : Emits quiet (findAll fuel c off arts).
Proof.
  revert off arts. induction fuel as [|fuel IH]; intros off arts; simpl; [done|].
  quiet.
Qed.

Lemma Listing_findAll c off arts n r fuel w :
  Listing c off arts n r → n ≤ fuel →
  ∃ w', findAll fuel c off arts w = Done (r, w').
Proof.
  intros HL. revert fuel w.
  induction HL as [off arts e He|off arts He|off arts results n r He Hne _ IH];
    intros [|fuel] w Hfuel; try lia; simpl;
    unfold mbind, M_bind, emit; simpl; rewrite He; simpl.
  - eauto.
  - eauto.
  - destruct results as [|a results]; [done|]. simpl.
    apply IH. lia.
Qed.

Lemma findAll_Listing c off arts fuel w r w' :
  findAll fuel c off arts w = Done (r, w') →
  ∃ n, n ≤ fuel ∧ Listing c off arts n r.
Proof.
  revert off arts w. induction fuel as [|fuel IH]; intros off arts w; simpl; [done|].
  unfold mbind, M_bind, emit; simpl.
  destruct (FindArticles c off) as [results|e] eqn:He; simpl.
  - destruct results as [|a results]; simpl.
    + intros [= <- _]. exists 1. split; [lia|]. by apply Listing_ends.
    + intros (n & Hn & HL)%IH. exists (S n). split; [lia|].
      by eapply Listing_page.
  - intros [= <- _]. exists 1. split; [lia|]. by apply Listing_fails.
Qed.

Lemma Listing_det c off arts n r n' r' :
  Listing c off arts n r → Listing c off arts n' r' → n = n' ∧ r = r'.
Proof.
  intros HL. revert n' r'.
  induction HL as [off arts e He|off arts He|off arts results n r He Hne _ IH];
    intros n' r'; inversion 1; subst; try congruence.
  - split; congruence.
  - done.
  - match goal with
    | H1 : FindArticles c off = Ok ?rs, HL : Listing c _ (addAll arts ?rs) _ _ |- _ =>
        assert (rs = results) as -> by congruence;
        by destruct (IH _ _ HL) as [-> ->]
    end.
Qed.

(** [loadArticles] in terms of its two loops. *)
Lemma loadArticles_eq fuel env b w :
  loadArticles fuel env b w =
  match findAll fuel (client env) 0 ∅ (logged refreshStarted w) with
  | Done ((arts, Some _), w1) =>
      Done (withNextUpdate b (deadlineAfter env), logged refreshDone w1)
  | Done ((arts, None), w1) =>
      match loadAll env (range (rangeLoad env) arts) arts w1 with
      | Done (arts', w2) =>
          Done (withNextUpdate (setArticles env arts' b) (deadlineAfter env),
                logged refreshDone w2)
      | Panics => Panics
      | Diverges => Diverges
      end
  | Panics => Panics
  | Diverges => Diverges
  end.
Proof.
  unfold loadArticles, mbind, M_bind, emit. simpl.
  destruct (findAll _ _ _ _ _) as [[[arts [e|]] w1]| |]; simpl; try done.
  by destruct (loadAll _ _ _ _) as [[arts' w2]| |].
Qed.

Lemma Returns_ret {A} (a : A) : Returns (mret a).
Proof. intros w. by eexists _, _. Qed.

Lemma Returns_bind {A B} (m : M A) (f : A → M B) :
  Returns m → (∀ a, Returns (f a)) → Returns (m ≫= f).
Proof.
  intros Hm Hf w. destruct (Hm w) as (a & w' & H).
  destruct (Hf a w') as (b & w'' & H'). exists b, w''.
  by rewrite (bind_Done _ _ _ _ _ H).
Qed.

Lemma Returns_emit e : Returns (emit e).
Proof. intros w. by eexists _, _. Qed.
Lemma Returns_getWorld : Returns getWorld.
Proof. intros w. by eexists _, _. Qed.
Lemma Returns_addDir d : Returns (addDir d).
Proof. intros w. by eexists _, _. Qed.
Lemma Returns_putFile path data : Returns (putFile path data).
Proof. intros w. by eexists _, _. Qed.

Lemma Returns_forEach {A} (l : list A) (body : A → M unit) :
  (∀ x, Returns (body x)) → Returns (forEach l body).
Proof.
  intros Hbody. induction l as [|x l IH]; simpl.
  - apply Returns_ret.
  - apply Returns_bind; [apply Hbody|]. by intros [].
Qed.

Create HintDb returns.
#[local] Hint Resolve Returns_ret Returns_emit Returns_getWorld Returns_addDir
  Returns_putFile : returns.

Ltac returns :=
  repeat first
    [ solve [eauto with returns]
    | apply Returns_bind; [|intros ?]
    | apply Returns_forEach; intros ?
    | match goal with
      | |- Returns (match ?x with _ => _ end) => destruct x
      | |- Returns (if ?x then _ else _) => destruct x
      end ].

Lemma Returns_downloadAttachments env id content :
  Returns (downloadAttachments env id content).
Proof. unfold downloadAttachments, downloadAttachment. returns. Qed.
#[local] Hint Resolve Returns_downloadAttachments : returns.

(** ** What a refresh stores for one listed article *)

Lemma loadArticle_Done env v w :
  hasContent v →
  ∃ w', loadArticle env v w =
        Done (LatestArticleContent (ingested env v), w').
Proof.
  intros [latest Hl]. unfold loadArticle, ingested, fetched. rewrite Hl. simpl.
  unfold mbind at 1, M_bind, emit. simpl.
  destruct (emvi.GetArticle _ _ _) as [content|e]; simpl.
  - destruct (Returns_downloadAttachments env (Id v) (Content content)
                (logged (EvGetArticle (Id v) (LanguageId latest)) w))
      as ([] & w' & Hd).
    unfold mbind, M_bind. rewrite Hd. simpl. by eexists.
  - by eexists.
Qed.

Lemma loadArticle_inv env v w c w' :
  loadArticle env v w = Done (c, w') →
  hasContent v ∧ c = LatestArticleContent (ingested env v).
Proof.
  intros H. assert (hasContent v) as Hv.
  { unfold loadArticle in H. unfold hasContent.
    by destruct (LatestArticleContent v). }
  split; [done|]. destruct (loadArticle_Done env v w Hv) as (w'' & H').
  congruence.
Qed.

Lemma loadAll_Done env entries arts w :
  Forall (λ kv, hasContent kv.2) entries →
  ∃ w', loadAll env entries arts w = Done (storeAll env entries arts, w').
Proof.
  intros Hall. revert arts w.
  induction Hall as [|[k v] entries Hv _ IH]; intros arts w; simpl.
  - by eexists.
  - destruct (loadArticle_Done env v w Hv) as (w1 & H1).
    rewrite (bind_Done _ _ _ _ _ H1). apply IH.
Qed.

Lemma loadAll_inv env entries arts w arts' w' :
  loadAll env entries arts w = Done (arts', w') →
  Forall (λ kv, hasContent kv.2) entries ∧ arts' = storeAll env entries arts.
Proof.
  revert arts w. induction entries as [|[k v] entries IH]; intros arts w; simpl.
  - intros [= <- _]. by split.
  - intros (c & w1 & [Hv ->]%loadArticle_inv & H2)%bind_inv.
    apply IH in H2 as [Hall ->]. split; [by constructor|done].
Qed.

(** Storing the entries of a map in any order that visits each key once
    maps the function over it. *)
Lemma foldl_insert_lookup {V} (f : V → V) (l : list (string * V))
    (m0 : gmap string V) i :
  NoDup l.*1 →
  foldl (λ m kv, <[kv.1 := f kv.2]> m) m0 l !! i =
  match (list_to_map l : gmap string V) !! i with
  | Some v => Some (f v)
  | None => m0 !! i
  end.
Proof.
  revert m0. induction l as [|[k v] l IH]; intros m0; simpl.
  - intros _. by rewrite lookup_empty.
  - intros [Hk Hl]%NoDup_cons. rewrite IH by done.
    destruct (decide (i = k)) as [->|Hne].
    + rewrite lookup_insert_eq.
      rewrite (not_elem_of_list_to_map_1 l k Hk). by rewrite lookup_insert_eq.
    + rewrite !lookup_insert_ne by done. done.
Qed.

Lemma foldl_insert_fmap {V} (f : V → V) (l : list (string * V))
    (m : gmap string V) :
  l ≡ₚ map_to_list m →
  foldl (λ m kv, <[kv.1 := f kv.2]> m) m l = f <$> m.
Proof.
  intros Hl. assert (NoDup l.*1) as Hnd.
  { rewrite Hl. apply NoDup_fst_map_to_list. }
  apply map_eq. intros i. rewrite foldl_insert_lookup by done.
  rewrite (list_to_map_proper l (map_to_list m)) by done.
  rewrite list_to_map_to_list, lookup_fmap.
  by destruct (m !! i).
Qed.

Lemma storeAll_range env (order : RangeOrder) arts :
  storeAll env (range order arts) arts = ingested env <$> arts.
Proof. apply foldl_insert_fmap, range_perm. Qed.

(** ** What a refresh attempt leaves behind *)

Lemma range_hasContent (order : RangeOrder) arts :
  map_Forall (λ _ v, hasContent v) arts →
  Forall (λ kv, hasContent kv.2) (range order arts).
Proof.
  intros Hall. rewrite (range_perm order arts).
  apply Forall_forall. intros [k v] Hkv%elem_of_map_to_list. by eapply Hall.
Qed.

Lemma hasContent_range (order : RangeOrder) arts :
  Forall (λ kv, hasContent kv.2) (range order arts) →
  map_Forall (λ _ v, hasContent v) arts.
Proof.
  rewrite (range_perm order arts). intros Hall k v Hkv%elem_of_map_to_list.
  rewrite Forall_forall in Hall. by apply (Hall (k, v)).
Qed.

Lemma Extends_logged_AttemptTrace w w1 :
  Extends quiet (logged refreshStarted w) w1 →
  AttemptTrace w (logged refreshDone w1).
Proof.
  intros (Hd & Hf & evs & Ht & Hq). repeat split; [done..|].
  exists evs. split; [|done]. simpl in *. rewrite Ht.
  by rewrite <-!app_assoc.
Qed.

Lemma loadArticles_Completes fuel env arts err b w :
  Completes fuel env arts err →
  ∃ w', loadArticles fuel env b w = Done (refreshed env arts err b, w') ∧
        AttemptTrace w w'.
Proof.
  intros [(n & Hn & HL) Hc]. rewrite loadArticles_eq.
  destruct (Listing_findAll _ _ _ _ _ fuel (logged refreshStarted w) HL Hn)
    as (w1 & H1).
  rewrite H1. pose proof (Emits_findAll _ _ _ _ _ _ _ H1) as Hext.
  destruct err as [e|].
  - eexists. split; [done|]. by apply Extends_logged_AttemptTrace.
  - destruct (loadAll_Done env (range (rangeLoad env) arts) arts w1) as (w2 & H2).
    { by apply range_hasContent, Hc. }
    rewrite H2, storeAll_range. eexists. split; [done|].
    apply Extends_logged_AttemptTrace.
    eapply Extends_trans; [done|]. by eapply Emits_loadAll.
Qed.

Lemma loadArticles_inv fuel env b w b' w' :
  loadArticles fuel env b w = Done (b', w') →
  ∃ arts err, Completes fuel env arts err ∧ b' = refreshed env arts err b ∧
              AttemptTrace w w'.
Proof.
  rewrite loadArticles_eq.
  destruct (findAll _ _ _ _ _) as [[[arts err] w1]| |] eqn:H1; [|done..].
  pose proof (findAll_Listing _ _ _ _ _ _ _ H1) as HL. intros H.
  assert (err = None → map_Forall (λ _ v, hasContent v) arts) as Hc.
  { intros ->. destruct (loadAll _ _ _ _) as [[arts' w2]| |] eqn:H2; [|done..].
    apply loadAll_inv in H2 as [Hall _]. by eapply hasContent_range. }
  exists arts, err. split; [done|].
  destruct (loadArticles_Completes fuel env arts err b w) as (w'' & H' & Htr);
    [done|].
  rewrite loadArticles_eq, H1 in H'. split; congruence.
Qed.

Lemma refreshCount_app tr1 tr2 :
  refreshCount (tr1 ++ tr2) = refreshCount tr1 + refreshCount tr2.
Proof. unfold refreshCount. by rewrite filter_app, length_app. Qed.

Lemma refreshCount_quiet evs : Forall quiet evs → refreshCount evs = 0.
Proof.
  unfold refreshCount. induction 1 as [|e evs He _ IH]; [done|].
  by rewrite filter_cons_False.
Qed.

Lemma AttemptTrace_refreshCount w w' :
  AttemptTrace w w' → refreshCount (trace w') = S (refreshCount (trace w)).
Proof.
  intros (_ & _ & evs & -> & Hq).
  rewrite refreshCount_app.
  change (refreshStarted :: evs ++ [refreshDone])
    with ([refreshStarted] ++ evs ++ [refreshDone]).
  rewrite !refreshCount_app, (refreshCount_quiet evs) by done.
  unfold refreshCount. rewrite filter_cons_True by done.
  rewrite filter_cons_False by done. simpl. lia.
Qed.

(** ** Reads *)

Lemma ReadsServe_intro fuel env b w b' w' :
  refreshIfRequired fuel env b w = Done (b', w') →
  ReadsServe fuel env b w b' w'.
Proof.
  intros H. unfold ReadsServe, GetArticle, GetArticles, GetLatestArticles.
  split_and!; [intros id|..]; by rewrite (bind_Done _ _ _ _ _ H).
Qed.

Lemma Before_false t u :
  time.Before t u = false ↔ (time.instant u ≤ time.instant t)%Z.
Proof. unfold time.Before. apply Z.ltb_ge. Qed.

Lemma Before_true t u :
  time.Before t u = true ↔ (time.instant t < time.instant u)%Z.
Proof. unfold time.Before. apply Z.ltb_lt. Qed.

(** Up to the deadline a read is served from the cache as it is. *)
Lemma reads_not_due fuel env b w :
  (time.instant (now env) ≤ time.instant (nextUpdate b))%Z →
  ReadsServe fuel env b w b w.
Proof.
  intros H%Before_false. apply ReadsServe_intro.
  unfold refreshIfRequired. by rewrite H.
Qed.

(** After the deadline a read runs [loadArticles] once and serves what it
    leaves. *)
Lemma reads_due fuel env arts err b w :
  (time.instant (nextUpdate b) < time.instant (now env))%Z →
  Completes fuel env arts err →
  ∃ w', ReadsServe fuel env b w (refreshed env arts err b) w' ∧
        AttemptTrace w w'.
Proof.
  intros H%Before_true Hc.
  destruct (loadArticles_Completes fuel env arts err b w Hc) as (w' & Hl & Htr).
  exists w'. split; [|done]. apply ReadsServe_intro.
  unfold refreshIfRequired. by rewrite H.
Qed.

Lemma latestLoop_length values i acc :
  i ≤ maxLatestArticles →
  List.length (latestLoop values i acc) =
  List.length acc + (List.length values `min` (S maxLatestArticles - i)).
Proof.
  revert i acc. induction values as [|v values IH]; intros i acc Hi;
    cbn [latestLoop List.length].
  - lia.
  - destruct (maxLatestArticles <? S i)%nat eqn:Hlt.
    + apply Nat.ltb_lt in Hlt. rewrite length_app. cbn [List.length].
      unfold maxLatestArticles in *. lia.
    + apply Nat.ltb_ge in Hlt. rewrite IH, length_app by done.
      cbn [List.length]. unfold maxLatestArticles in *. lia.
Qed.

Lemma range_length (order : RangeOrder) (arts : gmap string Article) :
  List.length ((range order arts).*2) = size arts.
Proof.
  rewrite length_fmap, (range_perm order arts). apply length_map_to_list.
Qed.

Lemma latestOf_length env b :
  List.length (latestOf env b) = size (articles b) `min` S maxLatestArticles.
Proof.
  unfold latestOf. rewrite latestLoop_length, range_length by lia.
  cbn [List.length]. lia.
Qed.

(** ** The claims about the refresh and the reads *)

(** C1. When the paging loop of a refresh ends with an error (after any
    number of pages that could be listed), [loadArticles] returns and
    leaves the id-index and the year-index as they were; the three reads
    that follow, up to the new deadline, return the contents from before
    the attempt and leave blog and world alone. *)
Theorem failed_listing_keeps_indexes fuel env n arts e b w :
  Listing (client env) 0 ∅ n (arts, Some e) → n ≤ fuel →
  ∃ b' w',
    loadArticles fuel env b w = Done (b', w') ∧
    articles b' = articles b ∧
    articlesYear b' = articlesYear b ∧
    ∀ fuel2 env2,
      (time.instant (now env2) ≤ time.instant (nextUpdate b'))%Z →
      (∀ id, GetArticle fuel2 env2 id b' w' =
             Done ((default zeroArticle (articles b !! id), b'), w')) ∧
      GetArticles fuel2 env2 b' w' = Done ((articlesYear b, b'), w') ∧
      GetLatestArticles fuel2 env2 b' w' = Done ((latestOf env2 b, b'), w').
Proof.
  intros HL Hn.
  destruct (loadArticles_Completes fuel env arts (Some e) b w) as (w' & H & _).
  { split; [eauto|done]. }
  eexists _, w'. split; [exact H|]. split; [done|]. split; [done|].
  intros fuel2 env2 Hnow.
  by destruct (reads_not_due fuel2 env2 _ w' Hnow) as (H1 & H2 & H3).
Qed.

Lemma failed_listing_keeps_indexes_witness :
  ∃ b' w',
    loadArticles 2 (fixtures.env fixtures.brokenRemote 7200 7201 fixtures.listOrder)
      (fixtures.fourArticles 3600) fixtures.emptyWorld = Done (b', w') ∧
    articles b' = articles (fixtures.fourArticles 3600) ∧
    articlesYear b' = articlesYear (fixtures.fourArticles 3600).
Proof.
  destruct (failed_listing_keeps_indexes 2
              (fixtures.env fixtures.brokenRemote 7200 7201 fixtures.listOrder) 2
              (addAll ∅ [fixtures.listed "a" 1609459200]) "timeout"
              (fixtures.fourArticles 3600) fixtures.emptyWorld)
    as (b' & w' & H1 & H2 & H3 & _).
  - eapply Listing_page; [reflexivity|discriminate|].
    apply Listing_fails. reflexivity.
  - lia.
  - exists b', w'. repeat split; assumption.
Defined.

(** C3, as the code has it: a read that needs no refresh returns one
    article more than [maxLatestArticles] as soon as the id-index holds
    that many; the loop leaves only after the counter has passed the
    limit. *)
Theorem latest_articles_exceed_limit fuel env b w :
  (time.instant (now env) ≤ time.instant (nextUpdate b))%Z →
  maxLatestArticles < size (articles b) →
  ∃ latest,
    GetLatestArticles fuel env b w = Done ((latest, b), w) ∧
    List.length latest = S maxLatestArticles.
Proof.
  intros Hnow Hsize. exists (latestOf env b).
  destruct (reads_not_due fuel env b w Hnow) as (_ & _ & H). split; [done|].
  rewrite latestOf_length. lia.
Qed.

Lemma latest_articles_exceed_limit_witness :
  ∃ latest,
    GetLatestArticles 1 (fixtures.env fixtures.remote 0 0 fixtures.listOrder)
      (fixtures.fourArticles 3600) fixtures.emptyWorld =
    Done ((latest, fixtures.fourArticles 3600), fixtures.emptyWorld) ∧
    List.length latest = 4.
Proof.
  apply (latest_articles_exceed_limit 1
           (fixtures.env fixtures.remote 0 0 fixtures.listOrder)
           (fixtures.fourArticles 3600) fixtures.emptyWorld).
  - vm_compute. discriminate.
  - vm_compute. lia.
Defined.

(** C4, as the code has it: a read up to and at the stored deadline
    returns from the cache and leaves blog and world alone (no call
    goes out); a read after the deadline runs one refresh attempt, and
    serves what the attempt leaves. *)
Theorem read_refreshes_after_deadline fuel env arts err b w :
  ((time.instant (nextUpdate b) < time.instant (now env))%Z →
   Completes fuel env arts err) →
  ∃ b' w',
    ReadsServe fuel env b w b' w' ∧
    ((time.instant (now env) ≤ time.instant (nextUpdate b))%Z →
     b' = b ∧ w' = w) ∧
    ((time.instant (nextUpdate b) < time.instant (now env))%Z →
     b' = refreshed env arts err b ∧
     refreshCount (trace w') = S (refreshCount (trace w))).
Proof.
  intros Hc.
  destruct (decide (time.instant (nextUpdate b) < time.instant (now env))%Z)
    as [Hdue|Hnot].
  - destruct (reads_due fuel env arts err b w Hdue (Hc Hdue)) as (w' & Hr & Htr).
    exists (refreshed env arts err b), w'. split; [done|]. split; [lia|].
    intros _. split; [done|]. by apply AttemptTrace_refreshCount.
  - exists b, w. split; [apply reads_not_due; lia|]. split; [done|lia].
Qed.

(** C4, as the claim has it, fails at the deadline itself: the read
    returns the cached (empty) answer and the trace stays empty, although
    a refresh would have found three articles. *)
Lemma read_at_deadline_does_not_refresh :
  time.instant (now (fixtures.env fixtures.remote 3600 3601 fixtures.listOrder)) =
    time.instant (nextUpdate (fixtures.emptyBlog 3600)) ∧
  GetArticle 2 (fixtures.env fixtures.remote 3600 3601 fixtures.listOrder) "a"
    (fixtures.emptyBlog 3600) fixtures.emptyWorld =
  Done ((zeroArticle, fixtures.emptyBlog 3600), fixtures.emptyWorld) ∧
  refreshCount (trace fixtures.emptyWorld) = 0.
Proof. by vm_compute. Qed.


(** ** The two indexes *)

Lemma KeysAreIds_addAll arts results :
  KeysAreIds arts → KeysAreIds (addAll arts results).
Proof.
  revert arts. induction results as [|r results IH]; intros arts Hk; [done|].
  apply IH. intros id a. destruct (decide (Id r = id)) as [<-|Hne].
  - rewrite lookup_insert_eq. by intros [= <-].
  - rewrite lookup_insert_ne by done. apply Hk.
Qed.

Lemma KeysAreIds_Listing c off arts n r :
  Listing c off arts n r → KeysAreIds arts → KeysAreIds r.1.
Proof.
  induction 1 as [| |off arts results n r _ _ _ IH]; [done..|].
  intros Hk. by apply IH, KeysAreIds_addAll.
Qed.

Lemma KeysAreIds_ingested env arts :
  KeysAreIds arts → KeysAreIds (ingested env <$> arts).
Proof.
  intros Hk id a. rewrite lookup_fmap.
  destruct (arts !! id) as [v|] eqn:Hv; [|done].
  intros [= <-]. simpl. by apply Hk.
Qed.

Lemma addToYear_lookup years a y :
  addToYear years a !! y =
  if decide (time.Year (Published a) = y)
  then Some (default [] (years !! y) ++ [a])
  else years !! y.
Proof.
  unfold addToYear. case_decide as Hy.
  - subst y. rewrite lookup_insert_eq.
    destruct (years !! time.Year (Published a)) eqn:Hl; [by rewrite Hl|].
    by rewrite lookup_insert_eq.
  - rewrite lookup_insert_ne by done.
    destruct (years !! time.Year (Published a)); [done|].
    by rewrite lookup_insert_ne.
Qed.

Lemma foldl_addToYear_lookup values years y :
  foldl addToYear years values !! y =
  match filter (λ a, time.Year (Published a) = y) values with
  | [] => years !! y
  | l => Some (default [] (years !! y) ++ l)
  end.
Proof.
  revert years. induction values as [|a values IH]; intros years; [done|].
  simpl. rewrite IH, addToYear_lookup.
  destruct (decide (time.Year (Published a) = y)) as [Hy|Hy].
  - rewrite filter_cons_True by done. simpl.
    destruct (filter _ values); [done|]. by rewrite <-app_assoc.
  - by rewrite filter_cons_False by done.
Qed.

Lemma YearsMatch_setArticles env arts b : YearsMatch (setArticles env arts b).
Proof.
  intros y. simpl. rewrite foldl_addToYear_lookup, lookup_empty. simpl.
  assert (filter (λ a, time.Year (Published a) = y) (range (rangeSet env) arts).*2
          ≡ₚ publishedIn arts y) as Hperm.
  { unfold publishedIn. by rewrite (range_perm (rangeSet env) arts). }
  destruct (filter _ (range _ _).*2) as [|a l] eqn:Hf.
  - by apply Permutation_nil.
  - done.
Qed.

Lemma YearsMatch_empty t :
  YearsMatch {| articles := ∅; articlesYear := ∅; nextUpdate := t |}.
Proof.
  intros y. simpl. rewrite lookup_empty. unfold publishedIn.
  by rewrite map_to_list_empty.
Qed.

Lemma elem_of_publishedIn arts y a :
  a ∈ publishedIn arts y ↔
  time.Year (Published a) = y ∧ ∃ id, arts !! id = Some a.
Proof.
  unfold publishedIn. rewrite list_elem_of_filter, list_elem_of_fmap.
  split.
  - intros [Hy ([id a'] & -> & Hin%elem_of_map_to_list)]. eauto.
  - intros [Hy [id Hin]]. split; [done|]. exists (id, a).
    split; [done|]. by apply elem_of_map_to_list.
Qed.

Lemma NoDup_publishedIn arts y : KeysAreIds arts → NoDup (publishedIn arts y).
Proof.
  intros Hk. unfold publishedIn. apply NoDup_filter.
  apply NoDup_fmap_2_strong; [|apply NoDup_map_to_list].
  intros [k1 a1] [k2 a2] H1%elem_of_map_to_list H2%elem_of_map_to_list.
  simpl. intros ->. apply Hk in H1, H2. congruence.
Qed.

(** The invariant of the cache. *)
Lemma Consistent_intro b :
  KeysAreIds (articles b) → YearsMatch b → Consistent b.
Proof.
  intros Hk Hy. split_and!.
  - intros id a Ha. specialize (Hy (time.Year (Published a))).
    assert (a ∈ publishedIn (articles b) (time.Year (Published a))) as Hin.
    { apply elem_of_publishedIn. eauto. }
    destruct (articlesYear b !! _) as [l|].
    + exists l. split; [done|]. destruct Hy as [_ ->]. done.
    + rewrite Hy in Hin. by apply not_elem_of_nil in Hin.
  - intros y l a Hl Hin. specialize (Hy y). rewrite Hl in Hy.
    destruct Hy as [_ Hperm]. rewrite Hperm in Hin.
    apply elem_of_publishedIn in Hin as [Hyear [id Ha]].
    split; [done|]. by rewrite (Hk _ _ Ha).
  - intros y l Hl. specialize (Hy y). rewrite Hl in Hy.
    destruct Hy as [_ ->]. by apply NoDup_publishedIn.
Qed.

Lemma Inv_refreshed fuel env arts err b :
  Completes fuel env arts err → Inv b → Inv (refreshed env arts err b).
Proof.
  intros [(n & _ & HL) _] [Hk Hy]. destruct err as [e|]; [done|].
  split; simpl.
  - apply KeysAreIds_ingested.
    by apply (KeysAreIds_Listing _ _ _ _ _ HL).
  - apply (YearsMatch_setArticles env (ingested env <$> arts) b).
Qed.

Lemma Inv_loadArticles fuel env b w b' w' :
  loadArticles fuel env b w = Done (b', w') → Inv b → Inv b'.
Proof.
  intros (arts & err & Hc & -> & _)%loadArticles_inv. by eapply Inv_refreshed.
Qed.

Lemma Inv_refreshIfRequired fuel env b w b' w' :
  refreshIfRequired fuel env b w = Done (b', w') → Inv b → Inv b'.
Proof.
  unfold refreshIfRequired. destruct (time.Before _ _).
  - apply Inv_loadArticles.
  - by intros [= <- _].
Qed.

Lemma NewBlog_loadArticles fuel env w b w' :
  NewBlog fuel env w = Done (b, w') →
  ∃ w0, loadArticles fuel env (newBlog env) w0 = Done (b, w').
Proof.
  unfold NewBlog. intros ([] & w1 & _ & H)%bind_inv.
  apply bind_inv in H as ([] & w2 & _ & H).
  apply bind_inv in H as ([] & w3 & _ & H). eauto.
Qed.

Lemma NewBlog_Completes fuel env arts err w :
  Completes fuel env arts err →
  ∃ w', NewBlog fuel env w = Done (refreshed env arts err (newBlog env), w').
Proof.
  intros Hc. unfold NewBlog, mbind, M_bind, emit. simpl.
  destruct (mkdirAllFails env blogFileCache); simpl;
    edestruct (loadArticles_Completes fuel env arts err (newBlog env))
      as (w' & H & _); eauto.
Qed.

Lemma Reachable_Inv b : Reachable b → Inv b.
Proof.
  induction 1 as [fuel env w b w' H|fuel env id b w a b' w' _ IH H
                 |fuel env b w ys b' w' _ IH H|fuel env b w l b' w' _ IH H].
  - apply NewBlog_loadArticles in H as [w0 H].
    apply (Inv_loadArticles _ _ _ _ _ _ H). split; [done|].
    apply YearsMatch_empty.
  - apply bind_inv in H as (b1 & w1 & H1 & [= _ <- _]).
    by eapply Inv_refreshIfRequired.
  - apply bind_inv in H as (b1 & w1 & H1 & [= _ <- _]).
    by eapply Inv_refreshIfRequired.
  - apply bind_inv in H as (b1 & w1 & H1 & [= _ <- _]).
    by eapply Inv_refreshIfRequired.
Qed.

(** C2. After [NewBlog] and after every read that follows, the two
    indexes agree: each article of the id-index is in the bucket of the
    year it was published in, and each article of a bucket is in that
    bucket once, in no bucket of another year, and in the id-index under
    its id. *)
Theorem indexes_consistent b : Reachable b → Consistent b.
Proof. intros [Hk Hy]%Reachable_Inv. by apply Consistent_intro. Qed.

(** C10. In every blog a program can hold the id-index stores each
    article under its own id, so [GetArticle] returns the zero article or
    an article with the id asked for, whatever the id and whether or not
    a refresh has ever succeeded. *)
Theorem index_keyed_by_id b :
  Reachable b →
  (∀ id a, articles b !! id = Some a → Id a = id) ∧
  (∀ fuel env id w a b' w',
     GetArticle fuel env id b w = Done ((a, b'), w') →
     a = zeroArticle ∨ Id a = id).
Proof.
  intros Hr. split; [apply (Reachable_Inv b Hr)|].
  intros fuel env id w a b' w' H.
  assert (Reachable b') as [Hk _]%Reachable_Inv
    by (by eapply Reachable_GetArticle).
  apply bind_inv in H as (b1 & w1 & _ & [= <- <- _]).
  destruct (articles b1 !! id) as [a|] eqn:Ha; simpl; [right|by left].
  by apply Hk.
Qed.

(** ** The fixtures *)

Lemma remote_Completes start done order :
  Completes 2 (fixtures.env fixtures.remote start done order)
    fixtures.listedArticles None.
Proof.
  split.
  - exists 2. split; [lia|].
    eapply Listing_page; [reflexivity|discriminate|].
    apply Listing_ends. reflexivity.
  - intros _. by apply (bool_decide_unpack _).
Qed.

Lemma brokenRemote_Completes start done order :
  Completes 2 (fixtures.env fixtures.brokenRemote start done order)
    (addAll ∅ [fixtures.listed "a" 1609459200]) (Some "timeout").
Proof.
  split; [|done]. exists 2. split; [lia|].
  eapply Listing_page; [reflexivity|discriminate|].
  apply Listing_fails. reflexivity.
Qed.

Lemma remote_Reachable start done order :
  Reachable (refreshed (fixtures.env fixtures.remote start done order)
               fixtures.listedArticles None
               (newBlog (fixtures.env fixtures.remote start done order))).
Proof.
  destruct (NewBlog_Completes 2 _ _ _ fixtures.emptyWorld
              (remote_Completes start done order)) as [w' H].
  by eapply Reachable_NewBlog.
Qed.

Lemma indexes_consistent_witness :
  Consistent (refreshed (fixtures.env fixtures.remote 0 1 fixtures.listOrder)
                fixtures.listedArticles None
                (newBlog (fixtures.env fixtures.remote 0 1 fixtures.listOrder))).
Proof. apply indexes_consistent, remote_Reachable. Defined.

Lemma index_keyed_by_id_witness :
  Id (ingested (fixtures.env fixtures.remote 0 1 fixtures.listOrder)
        (fixtures.listed "a" 1609459200)) = "a".
Proof.
  apply (proj1 (index_keyed_by_id
                  (refreshed (fixtures.env fixtures.remote 0 1 fixtures.listOrder)
                     fixtures.listedArticles None
                     (newBlog (fixtures.env fixtures.remote 0 1 fixtures.listOrder)))
                  (remote_Reachable 0 1 fixtures.listOrder))
           "a").
  reflexivity.
Defined.

Lemma read_refreshes_after_deadline_witness :
  ∃ b' w',
    ReadsServe 2 (fixtures.env fixtures.remote 3601 3602 fixtures.listOrder)
      (fixtures.emptyBlog 3600) fixtures.emptyWorld b' w' ∧
    b' = refreshed (fixtures.env fixtures.remote 3601 3602 fixtures.listOrder)
           fixtures.listedArticles None (fixtures.emptyBlog 3600) ∧
    refreshCount (trace w') = 1.
Proof.
  destruct (read_refreshes_after_deadline 2
              (fixtures.env fixtures.remote 3601 3602 fixtures.listOrder)
              fixtures.listedArticles None
              (fixtures.emptyBlog 3600) fixtures.emptyWorld)
    as (b' & w' & Hr & _ & Hdue).
  - intros _. apply remote_Completes.
  - exists b', w'. split; [exact Hr|]. apply Hdue. vm_compute. reflexivity.
Defined.



(** ** The patterns on links and references *)

#[local] Arguments foldEq : simpl never.
#[local] Arguments String.append !_ _ / : simpl nomatch.

Section strings.
Implicit Types s t u : string.

Lemma app_assoc_s s t u : (s +:+ t) +:+ u = s +:+ (t +:+ u).
Proof. induction s as [|c s IH]; cbn [String.append]; [done|]. by f_equal. Qed.

Lemma app_nil_r_s s : s +:+ EmptyString = s.
Proof. induction s as [|c s IH]; cbn [String.append]; [done|]. by f_equal. Qed.

Lemma length_app_s s t :
  String.length (s +:+ t) = String.length s + String.length t.
Proof.
  induction s as [|c s IH]; cbn [String.append String.length]; [done|].
  by rewrite IH.
Qed.

Lemma take_app_s s t : Str.take (String.length s) (s +:+ t) = s.
Proof.
  induction s as [|c s IH]; cbn [String.append String.length Str.take];
    [by destruct t|]. by f_equal.
Qed.

Lemma consumed_app s t : consumed (s +:+ t) t = s.
Proof.
  unfold consumed. rewrite length_app_s.
  replace (String.length s + String.length t - String.length t)
    with (String.length s) by lia.
  apply take_app_s.
Qed.

Lemma match_len_app s t : match_len (s +:+ t) t = String.length s.
Proof. unfold match_len. rewrite length_app_s. lia. Qed.
End strings.

Lemma foldEq_refl fold c : foldEq fold c c = true.
Proof. unfold foldEq. by rewrite Ascii.eqb_refl. Qed.

Lemma strip_char_same fold c s : strip_char fold c (String c s) = Some s.
Proof. simpl. by rewrite foldEq_refl. Qed.

Lemma strip_lit_app fold lit s : strip_lit fold lit (lit +:+ s) = Some s.
Proof.
  induction lit as [|c lit IH]; [done|].
  cbn [strip_lit String.append]. by rewrite strip_char_same.
Qed.

Lemma plusLoop_NotChar {R} c (k : string → Caps → option R) n s caps :
  String.length s < n →
  plusLoop iU (rmatch iU (NotChar c)) k n s caps = lazyRun c (λ s', k s' caps) s.
Proof.
  revert s. induction n as [|n IH]; intros s Hn; [lia|].
  destruct s as [|a s]; [done|]. cbn [plusLoop rmatch lazyRun].
  destruct (Ascii.eqb a c); [done|].
  replace (String.length s <? String.length (String a s))%nat with true
    by (symmetry; apply Nat.ltb_lt; simpl; lia).
  cbn [negb ungreedy iU]. destruct (k s caps); [done|].
  apply IH. simpl in Hn. lia.
Qed.

Lemma rmatch_Plus_NotChar {R} c (k : string → Caps → option R) s caps :
  rmatch iU (Plus (NotChar c)) s caps k = lazyRun c (λ s', k s' caps) s.
Proof. cbn [rmatch]. apply plusLoop_NotChar. lia. Qed.

Lemma lazyRun_first {R} c (k : string → option R) x t r :
  x ≠ EmptyString → free_of c x = true → k t = Some r →
  (∀ a x', free_of c (String a x') = true → k (String a x' +:+ t) = None) →
  lazyRun c k (x +:+ t) = Some r.
Proof.
  intros Hx Hfree Hk Hnone. induction x as [|a x IH]; [done|].
  simpl in Hfree. apply andb_prop in Hfree as [Ha Hfree].
  cbn [String.append lazyRun]. apply negb_true_iff in Ha. rewrite Ha.
  destruct x as [|b x].
  - cbn [String.append]. by rewrite Hk.
  - rewrite (Hnone b x Hfree). by apply IH.
Qed.

(** Characters without another case accept themselves only. *)
Lemma foldEq_dq fold a : foldEq fold dq a = Ascii.eqb a dq.
Proof.
  destruct fold, a as [[] [] [] [] [] [] [] []]; reflexivity.
Qed.

Lemma foldEq_eq fold a : foldEq fold "=" a = Ascii.eqb a "=".
Proof.
  destruct fold, a as [[] [] [] [] [] [] [] []]; reflexivity.
Qed.

Lemma foldEq_slash fold a : foldEq fold "/" a = Ascii.eqb a "/".
Proof.
  destruct fold, a as [[] [] [] [] [] [] [] []]; reflexivity.
Qed.

Lemma strip_dq s : strip_lit true (String dq EmptyString) s =
  match s with
  | String a s' => if Ascii.eqb a dq then Some s' else None
  | EmptyString => None
  end.
Proof.
  destruct s as [|a s]; [done|]. cbn [strip_lit strip_char].
  rewrite foldEq_dq. by destruct (Ascii.eqb a dq).
Qed.

Section rmatch_eqs.
Context (fl : Flags) {R : Type}.
Implicit Types (k : string → Caps → option R).

Lemma rmatch_Lit lit s caps k :
  rmatch fl (Lit lit) s caps k =
  match strip_lit (foldCase fl) lit s with
  | Some s' => k s' caps
  | None => None
  end.
Proof. done. Qed.

Lemma rmatch_Cat r1 r2 s caps k :
  rmatch fl (Cat r1 r2) s caps k =
  rmatch fl r1 s caps (λ s' caps', rmatch fl r2 s' caps' k).
Proof. done. Qed.

Lemma rmatch_Alt r1 r2 s caps k :
  rmatch fl (Alt r1 r2) s caps k =
  match rmatch fl r1 s caps k with
  | Some x => Some x
  | None => rmatch fl r2 s caps k
  end.
Proof. done. Qed.

Lemma rmatch_Cap i r1 s caps k :
  rmatch fl (Cap i r1) s caps k =
  rmatch fl r1 s caps (λ s' caps', k s' ((i, consumed s s') :: caps')).
Proof. done. Qed.
End rmatch_eqs.


Section replace.
Context (word : RuneClass) (p : Prog) (repl : string).

Lemma replace_skip u s :
  replace_from word p repl (String.length u) (u +:+ s) = replace_from word p repl 0 s.
Proof.
  induction u as [|c u IH]; [done|].
  cbn [String.length String.append replace_from]. apply IH.
Qed.

Lemma replace_match m rest caps :
  m ≠ EmptyString →
  match_here p (m +:+ rest) = Some (caps, rest) →
  replace_from word p repl 0 (m +:+ rest) =
  expand word caps repl +:+ replace_from word p repl 0 rest.
Proof.
  intros Hm Hmatch. destruct m as [|c m]; [done|].
  cbn [String.append replace_from].
  change (String c (m +:+ rest)) with (String c m +:+ rest).
  rewrite Hmatch, match_len_app. cbn [String.length].
  by rewrite replace_skip.
Qed.

Lemma replace_nomatch c s :
  match_here p (String c s) = None →
  replace_from word p repl 0 (String c s) = String c (replace_from word p repl 0 s).
Proof. intros H. cbn [replace_from]. by rewrite H. Qed.

End replace.

(** Case analysis for the literal prefixes of the patterns. *)
Ltac split_free H :=
  simpl in H;
  repeat
    (let Ha := fresh "Hc" in
     apply andb_prop in H as [Ha H]; apply negb_true_iff in Ha).

Ltac use_free :=
  repeat match goal with
         | H : Ascii.eqb ?a ?c = false |- context [Ascii.eqb ?a ?c] => rewrite H
         end.

Ltac fold_step :=
  match goal with
  | |- context [foldEq ?f ?c ?a] =>
      first
        [ is_var a; let E := fresh "E" in destruct (foldEq f c a) eqn:E
        | let v := eval vm_compute in (foldEq f c a) in
          change (foldEq f c a) with v ]
  | |- context [Ascii.eqb ?a ?c] =>
      is_var a; let E := fresh "E" in destruct (Ascii.eqb a c) eqn:E
  end.

Ltac crunch :=
  simpl;
  repeat (rewrite ?foldEq_dq, ?foldEq_eq, ?foldEq_slash; use_free; simpl;
          try done; try fold_step; simpl; try done).

Lemma strip_linkOpen_before attr a y t :
  attr = "href" ∨ attr = "src" →
  free_of dq (String a y) = true →
  strip_lit true linkOpen (String a y +:+ attr +:+ "=" +:+ String dq t) = None.
Proof.
  intros [-> | ->] Hfree; unfold linkOpen;
    destruct y as [|b [|c [|d [|e [|f y]]]]]; split_free Hfree; crunch.
Qed.

Lemma match_here_link_none s :
  strip_lit true linkOpen s = None → match_here linkRegex s = None.
Proof.
  intros H. unfold match_here, linkRegex. cbn [expr flags].
  rewrite rmatch_Cap, rmatch_Cat, rmatch_Lit. cbn [foldCase iU].
  fold linkOpen. by rewrite H.
Qed.

Lemma match_here_attachment s :
  match_here attachmentRegex s =
  match
    (s1 ← strip_lit true "href" s; s2 ← strip_lit true eqQuote s1;
     rmatch iU attachmentTail s2 [(1%N, consumed s s1)]
       (λ s' caps, Some ((0%N, consumed s s') :: caps, s')))
  with
  | Some r => Some r
  | None =>
      s1 ← strip_lit true "src" s; s2 ← strip_lit true eqQuote s1;
      rmatch iU attachmentTail s2 [(1%N, consumed s s1)]
        (λ s' caps, Some ((0%N, consumed s s') :: caps, s'))
  end.
Proof.
  unfold match_here, attachmentRegex. cbn [expr flags]. fold iU.
  rewrite rmatch_Cap, rmatch_Cat, rmatch_Cap, rmatch_Alt, !rmatch_Lit.
  cbn [foldCase iU]. fold api eqQuote.
  destruct (strip_lit true "href" s) as [s1|]; simpl;
    destruct (strip_lit true "src" s) as [s1'|]; simpl;
    rewrite ?rmatch_Cat, ?rmatch_Lit; cbn [foldCase iU];
    repeat (match goal with
            | |- context [strip_lit true eqQuote ?x] =>
                destruct (strip_lit true eqQuote x); simpl
            end); done.
Qed.

Lemma match_here_attachment_none s :
  opens "href" s = None → opens "src" s = None →
  match_here attachmentRegex s = None.
Proof.
  unfold opens. intros H1 H2. rewrite match_here_attachment.
  destruct (strip_lit true "href" s) as [s1|];
    cbn [mbind option_bind] in *; [rewrite H1; cbn [mbind option_bind]|];
    (destruct (strip_lit true "src" s) as [s1'|];
     cbn [mbind option_bind] in *; [by rewrite H2|done]).
Qed.

Lemma opens_before A attr a y t :
  A = "href" ∨ A = "src" → attr = "href" ∨ attr = "src" →
  free_of dq (String a y) = true →
  opens A (String a y +:+ attr +:+ "=" +:+ String dq t) = None.
Proof.
  unfold opens, eqQuote.
  intros [-> | ->] [-> | ->] Hfree;
    destruct y as [|b [|c [|d [|e [|f y]]]]]; split_free Hfree; crunch.
Qed.

Lemma endsWith_tail c a y :
  endsWith c (String a y) = false → endsWith c y = false.
Proof. by destruct y. Qed.

Lemma endsWith_app c s t :
  t ≠ EmptyString → endsWith c (s +:+ t) = endsWith c t.
Proof.
  intros Ht. induction s as [|a s IH]; [done|].
  cbn [String.append endsWith]. rewrite <- IH.
  destruct (s +:+ t) eqn:E; [|done].
  by destruct s, t.
Qed.

(** Text that has no quote and does not end with an equals sign opens
    nothing when a quote follows it. *)
Lemma opens_no_equals A y t :
  A = "href" ∨ A = "src" →
  free_of dq y = true → endsWith "=" y = false →
  opens A (y +:+ String dq t) = None.
Proof.
  unfold opens, eqQuote.
  intros [-> | ->] Hq He;
    destruct y as [|a [|b [|c [|d [|e [|f y]]]]]];
    split_free Hq; simpl in He; crunch.
Qed.

Lemma linkOpen_no_equals y t :
  free_of dq y = true → endsWith "=" y = false →
  strip_lit true linkOpen (y +:+ String dq t) = None.
Proof.
  unfold linkOpen. intros Hq He.
  destruct y as [|a [|b [|c [|d [|e [|f y]]]]]];
    split_free Hq; simpl in He; crunch.
Qed.

Lemma api_border x t :
  x ≠ EmptyString →
  strip_lit true apiPath x = None →
  strip_lit true api (x +:+ api +:+ t) = None.
Proof.
  unfold apiPath, api. intros Hx.
  destruct x as [|c0 [|c1 [|c2 [|c3 [|c4 [|c5 [|c6 [|c7 [|c8 [|c9 [|c10
    [|c11 [|c12 [|c13 [|c14 [|c15 x]]]]]]]]]]]]]]]]; [done|..]; crunch.
Qed.

Lemma lazyRun_first_P {R} c (k : string → option R) (P : string → Prop) x t r :
  x ≠ EmptyString → P x → k t = Some r →
  (∀ a x', P (String a x') → Ascii.eqb a c = false ∧ P x') →
  (∀ a x', P (String a x') → k (String a x' +:+ t) = None) →
  lazyRun c k (x +:+ t) = Some r.
Proof.
  intros Hx HP Hk Hstep Hnone. induction x as [|a x IH]; [done|].
  destruct (Hstep a x HP) as [Ha HPx].
  cbn [String.append lazyRun]. rewrite Ha.
  destruct x as [|b x].
  - cbn [String.append]. by rewrite Hk.
  - rewrite (Hnone b x HPx). by apply IH.
Qed.

Lemma containsFold_cons lit a x :
  containsFold lit (String a x) = false →
  strip_lit true lit (String a x) = None ∧ containsFold lit x = false.
Proof.
  cbn [containsFold]. intros [H1 H2]%orb_false_elim. split; [|done].
  apply bool_decide_eq_false in H1.
  destruct (strip_lit true lit (String a x)); [|done].
  destruct H1. by eexists.
Qed.

Lemma strip_href_src s : strip_lit true "href" ("src" +:+ s) = None.
Proof. crunch. Qed.

Lemma strip_src_href s : strip_lit true "src" ("href" +:+ s) = None.
Proof. crunch. Qed.

(** The rest of the attachment pattern on the rest of a reference. *)
Lemma attachmentTail_ref {R} host xyz rest caps (k : string → Caps → option R) r :
  host ≠ EmptyString → free_of dq host = true →
  containsFold apiPath host = false →
  xyz ≠ EmptyString → free_of dq xyz = true →
  k rest ((3%N, xyz) :: (2%N, host) :: caps) = Some r →
  rmatch iU attachmentTail (host +:+ api +:+ xyz +:+ String dq rest) caps k =
  Some r.
Proof.
  intros Hhost Hqh Hapi Hxyz Hqx Hk. unfold attachmentTail.
  rewrite rmatch_Cat, rmatch_Cap, rmatch_Plus_NotChar.
  apply (lazyRun_first_P _ _
           (λ x, free_of dq x = true ∧ containsFold apiPath x = false));
    [done|done| | |].
  - rewrite consumed_app, rmatch_Cat, rmatch_Lit. cbn [foldCase iU].
    rewrite strip_lit_app, rmatch_Cat, rmatch_Cap, rmatch_Plus_NotChar.
    apply (lazyRun_first dq); [done|done| |].
    + rewrite rmatch_Lit, strip_dq, Ascii.eqb_refl, consumed_app. done.
    + intros a x' Ha. rewrite rmatch_Lit, strip_dq. cbn [String.append].
      split_free Ha. by rewrite Hc.
  - intros a x' [Hq Hc]. split_free Hq.
    by apply containsFold_cons in Hc as [_ ?].
  - intros a x' [_ [Hc _]%containsFold_cons].
    rewrite rmatch_Cat, rmatch_Lit. cbn [foldCase iU].
    by rewrite api_border.
Qed.

Lemma match_here_reference attr host xyz rest :
  attr = "href" ∨ attr = "src" →
  host ≠ EmptyString → free_of dq host = true →
  containsFold apiPath host = false →
  xyz ≠ EmptyString → free_of dq xyz = true →
  match_here attachmentRegex (reference attr host xyz +:+ rest) =
  Some ([(0%N, reference attr host xyz); (3%N, xyz); (2%N, host); (1%N, attr)],
        rest).
Proof.
  intros Hattr Hhost Hqh Hapi Hxyz Hqx. rewrite match_here_attachment.
  unfold reference. rewrite !app_assoc_s. cbn [String.append].
  assert (∀ s1, s1 = eqQuote +:+ host +:+ api +:+ xyz +:+ String dq rest →
     (s2 ← strip_lit true eqQuote s1;
      rmatch iU attachmentTail s2
        [(1%N, consumed (attr +:+ s1) s1)]
        (λ s' caps, Some ((0%N, consumed (attr +:+ s1) s') :: caps, s'))) =
     Some ([(0%N, reference attr host xyz); (3%N, xyz); (2%N, host); (1%N, attr)],
           rest)) as Htail.
  { intros s1 ->. rewrite strip_lit_app. cbn [mbind option_bind].
    apply attachmentTail_ref; [done..|].
    rewrite consumed_app. do 3 f_equal.
    replace (attr +:+ eqQuote +:+ host +:+ api +:+ xyz +:+ String dq rest)
      with (reference attr host xyz +:+ rest).
    { by rewrite consumed_app. }
    unfold reference. rewrite !app_assoc_s. done. }
  destruct Hattr as [-> | ->].
  - rewrite strip_lit_app. cbn [mbind option_bind]. by rewrite Htail.
  - rewrite strip_href_src. cbn [mbind option_bind].
    rewrite strip_lit_app. cbn [mbind option_bind]. by rewrite Htail.
Qed.

Lemma expand_plain {word : RuneClass} caps u t :
  free_of "$" u = true →
  expand_from word caps 0 (u +:+ t) = u +:+ expand_from word caps 0 t.
Proof.
  intros Hfree. induction u as [|c u IH]; [done|].
  split_free Hfree. cbn [String.append expand_from]. rewrite Hc.
  f_equal. apply IH. done.
Qed.

Lemma expand_linkTemplate {word : RuneClass} whole x :
  expand word [(0%N, whole); (1%N, x)] linkTemplate = newLink x.
Proof. reflexivity. Qed.

Lemma expand_attachmentTemplate {word : RuneClass} whole attr host id xyz :
  free_of "$" id = true →
  expand word [(0%N, whole); (3%N, xyz); (2%N, host); (1%N, attr)]
    (attachmentTemplate id) =
  newReference attr id xyz.
Proof.
  intros Hid. unfold expand, attachmentTemplate, newReference, eqQuote.
  simpl. rewrite expand_plain by done. reflexivity.
Qed.

Lemma free_of_app c s t :
  free_of c (s +:+ t) = free_of c s && free_of c t.
Proof.
  induction s as [|a s IH]; [done|]. cbn [String.append free_of].
  by rewrite IH, andb_assoc.
Qed.

Section copy.
Context (word : RuneClass) (p : Prog) (repl : string).

(** Text in which no match starts is copied: [P] holds of the text and
    of its suffixes. *)
Lemma replace_copy_P (P : string → Prop) u s :
  P u →
  (∀ a y, P (String a y) → P y) →
  (∀ a y, P (String a y) → match_here p (String a y +:+ s) = None) →
  replace_from word p repl 0 (u +:+ s) = u +:+ replace_from word p repl 0 s.
Proof.
  intros HP Hsuf Hnone. induction u as [|a u IH]; [done|].
  cbn [String.append]. rewrite replace_nomatch.
  - f_equal. apply IH. by eapply Hsuf.
  - by apply (Hnone a u).
Qed.
End copy.

Lemma free_of_tail c a y : free_of c (String a y) = true → free_of c y = true.
Proof. intros H. by split_free H. Qed.


Ltac no_link := apply match_here_link_none; unfold linkOpen; crunch.

Ltac no_attachment :=
  apply match_here_attachment_none; unfold opens, eqQuote; crunch.

Lemma lazyRun_none_P {R} c (k : string → option R) (P : string → Prop) x t :
  P x →
  (∀ a x', P (String a x') → Ascii.eqb a c = false ∧ P x') →
  (∀ x', P x' → k (x' +:+ String c t) = None) →
  lazyRun c k (x +:+ String c t) = None.
Proof.
  intros HP Hstep Hnone. induction x as [|a x IH].
  - cbn [String.append lazyRun]. by rewrite Ascii.eqb_refl.
  - destruct (Hstep a x HP) as [Ha HPx].
    cbn [String.append lazyRun]. rewrite Ha, (Hnone x HPx). by apply IH.
Qed.

(** The endpoint path does not straddle the end of a text before a
    quote. *)
Lemma api_quote x t :
  strip_lit true api x = None →
  strip_lit true api (x +:+ String dq t) = None.
Proof.
  unfold api.
  destruct x as [|c0 [|c1 [|c2 [|c3 [|c4 [|c5 [|c6 [|c7 [|c8 [|c9 [|c10
    [|c11 [|c12 [|c13 [|c14 [|c15 x]]]]]]]]]]]]]]]]; crunch.
Qed.

Lemma containsFold_strip lit x :
  containsFold lit x = false → strip_lit true lit x = None.
Proof.
  destruct x as [|a x]; [|by intros [? _]%containsFold_cons].
  cbn [containsFold]. intros [H _]%orb_false_elim.
  apply bool_decide_eq_false in H.
  destruct (strip_lit true lit EmptyString); [|done].
  destruct H. by eexists.
Qed.

(** The rest of the attachment pattern finds nothing in a quoted text
    without the endpoint path. *)
Lemma attachmentTail_none {R} y t caps (k : string → Caps → option R) :
  free_of dq y = true → containsFold api y = false →
  rmatch iU attachmentTail (y +:+ String dq t) caps k = None.
Proof.
  intros Hq Hc. unfold attachmentTail.
  rewrite rmatch_Cat, rmatch_Cap, rmatch_Plus_NotChar.
  apply (lazyRun_none_P _ _
           (λ u, free_of dq u = true ∧ containsFold api u = false));
    [done| |].
  - intros a x' [H1 H2]. split_free H1.
    by apply containsFold_cons in H2 as [_ ?].
  - intros x' [_ H2%containsFold_strip].
    rewrite rmatch_Cat, rmatch_Lit. cbn [foldCase iU].
    by rewrite api_quote.
Qed.

Lemma match_here_newLink x post :
  free_of dq x = true → containsFold api ("/blog/" +:+ x) = false →
  match_here attachmentRegex (newLink x +:+ post) = None.
Proof.
  intros Hq Hs. rewrite match_here_attachment. unfold newLink.
  rewrite !app_assoc_s.
  change ("href=" +:+ String dq "/blog/" +:+ x +:+ String dq EmptyString +:+ post)
    with ("href" +:+ eqQuote +:+ "/blog/" +:+ x +:+ String dq post).
  rewrite strip_src_href, strip_lit_app. cbn [mbind option_bind].
  rewrite strip_lit_app. cbn [mbind option_bind].
  change ("/blog/" +:+ x +:+ String dq post)
    with (("/blog/" +:+ x) +:+ String dq post).
  rewrite attachmentTail_none; [done| |done].
  by rewrite free_of_app, Hq.
Qed.

(** The attachment pass leaves a rewritten link alone. *)
Lemma rewriteAttachments_newLink env id pre x post :
  free_of dq pre = true →
  x ≠ EmptyString → free_of dq x = true → endsWith "=" x = false →
  containsFold api ("/blog/" +:+ x) = false →
  rewriteAttachments env id (pre +:+ newLink x +:+ post) =
  pre +:+ newLink x +:+ rewriteAttachments env id post.
Proof.
  intros Hpre Hx Hq He Hs. unfold rewriteAttachments, ReplaceAllString.
  set (tpl := attachmentTemplate id).
  assert (∀ t, replace_from (letterOrDigit env) attachmentRegex tpl 0
                 ("/blog/" +:+ x +:+ String dq t) =
               "/blog/" +:+ x +:+
               String dq (replace_from (letterOrDigit env) attachmentRegex tpl 0 t)) as Hpath.
  { intros t.
    pose proof (replace_copy_P (letterOrDigit env) attachmentRegex tpl
               (λ u, free_of dq u = true ∧ endsWith "=" u = false)
               ("/blog/" +:+ x) (String dq t)) as Hcopy.
    rewrite !app_assoc_s in Hcopy. rewrite Hcopy; clear Hcopy.
    - do 2 f_equal.
    - by rewrite free_of_app, endsWith_app, Hq, He.
    - intros a y [H1 H2].
      split; [by eapply free_of_tail | by eapply endsWith_tail].
    - intros a y [H1 H2].
      apply match_here_attachment_none; apply opens_no_equals; auto. }
  rewrite (replace_copy_P _ _ _ (λ u, free_of dq u = true)); [|done| |].
  - f_equal. pose proof (match_here_newLink x post Hq Hs) as Hstart.
    unfold newLink in *. rewrite !app_assoc_s in *. cbn [String.append] in *.
    rewrite replace_nomatch by done. f_equal.
    do 5 (rewrite replace_nomatch; [|no_attachment]).
    do 5 f_equal. apply (Hpath post).
  - intros a y. apply free_of_tail.
  - intros a y Hfree. unfold newLink. rewrite !app_assoc_s.
    apply match_here_attachment_none;
      apply (opens_before _ "href" a y
               ("/blog/" +:+ x +:+ String dq EmptyString +:+ post)); auto.
Qed.

(** The attachment pass replaces a reference that follows text without
    quotes. *)
Lemma rewriteAttachments_reference env id pre attr host xyz post :
  attr = "href" ∨ attr = "src" →
  free_of "$" id = true →
  free_of dq pre = true →
  host ≠ EmptyString → free_of dq host = true →
  containsFold apiPath host = false →
  xyz ≠ EmptyString → free_of dq xyz = true →
  rewriteAttachments env id (pre +:+ reference attr host xyz +:+ post) =
  pre +:+ newReference attr id xyz +:+ rewriteAttachments env id post.
Proof.
  intros Hattr Hid Hpre Hhost Hqh Hapi Hxyz Hqx.
  unfold rewriteAttachments, ReplaceAllString.
  rewrite (replace_copy_P _ _ _ (λ u, free_of dq u = true)); [|done| |].
  - f_equal.
    rewrite (replace_match _ _ _ (reference attr host xyz) post
               [(0%N, reference attr host xyz); (3%N, xyz); (2%N, host);
                (1%N, attr)]).
    + by rewrite expand_attachmentTemplate.
    + unfold reference. by destruct Hattr as [-> | ->].
    + by apply match_here_reference.
  - intros a y. apply free_of_tail.
  - intros a y Hfree. unfold reference, eqQuote. rewrite !app_assoc_s.
    destruct Hattr as [-> | ->];
      apply match_here_attachment_none;
      first [ apply (opens_before _ "href" a y); by auto
            | apply (opens_before _ "src" a y); by auto ].
Qed.


(** ** Text without double quotes *)

Lemma linkOpen_plain s :
  free_of dq s = true → strip_lit true linkOpen s = None.
Proof.
  unfold linkOpen. intros Hq.
  destruct s as [|a [|b [|c [|d [|e [|f s]]]]]]; split_free Hq; crunch.
Qed.

Lemma opens_plain A s :
  A = "href" ∨ A = "src" → free_of dq s = true → opens A s = None.
Proof.
  unfold opens, eqQuote. intros [-> | ->] Hq;
    destruct s as [|a [|b [|c [|d [|e [|f s]]]]]]; split_free Hq; crunch.
Qed.

Lemma replace_plain word p repl s :
  (∀ a y, free_of dq (String a y) = true → match_here p (String a y) = None) →
  free_of dq s = true → replace_from word p repl 0 s = s.
Proof.
  intros Hnone Hq. induction s as [|a s IH]; [done|].
  rewrite replace_nomatch by by apply Hnone.
  f_equal. apply IH. by eapply free_of_tail.
Qed.

Lemma rewriteContent_plain env id s :
  free_of dq s = true → rewriteContent env id s = s.
Proof.
  intros Hq. unfold rewriteContent, rewriteAttachments, rewriteLinks,
    ReplaceAllString.
  rewrite (replace_plain _ linkRegex); [|intros a y Hy|done].
  - apply replace_plain; [|done]. intros a y Hy.
    apply match_here_attachment_none; apply opens_plain; auto.
  - by apply match_here_link_none, linkOpen_plain.
Qed.

(** ** Text before a double quote that closes a value *)

Lemma foldEq_of_dq fold c : foldEq fold c dq = Ascii.eqb c dq.
Proof.
  destruct fold, c as [[] [] [] [] [] [] [] []]; reflexivity.
Qed.

Lemma strip_lit_fold lit o t :
  sameFold lit o = true → strip_lit true lit (o +:+ t) = Some t.
Proof.
  revert o. induction lit as [|c lit IH]; intros [|a o]; try done.
  cbn [sameFold]. intros [Ha Ho]%andb_prop.
  cbn [String.append strip_lit strip_char]. rewrite Ha. by apply IH.
Qed.

Lemma foldEq_not_dq c a :
  foldEq true c a = true → Ascii.eqb c dq = false → Ascii.eqb a dq = false.
Proof.
  intros H Hc. destruct (Ascii.eqb a dq) eqn:Ha; [|done].
  apply Ascii.eqb_eq in Ha as ->. rewrite foldEq_of_dq in H. congruence.
Qed.

Lemma match_here_link_fold o x rest :
  sameFold linkOpen o = true →
  x ≠ EmptyString → free_of dq x = true →
  match_here linkRegex (o +:+ x +:+ String dq rest) =
  Some ([(0%N, o +:+ x +:+ String dq EmptyString); (1%N, x)], rest).
Proof.
  intros Ho Hx Hfree. unfold match_here, linkRegex. cbn [expr flags].
  rewrite rmatch_Cap, rmatch_Cat, rmatch_Lit. cbn [foldCase iU]. fold linkOpen.
  rewrite strip_lit_fold by done.
  rewrite rmatch_Cat, rmatch_Cap, rmatch_Plus_NotChar.
  erewrite lazyRun_first; [done|done|done| |].
  - rewrite rmatch_Lit, strip_dq. rewrite Ascii.eqb_refl.
    rewrite (consumed_app x (String dq rest)).
    replace (o +:+ x +:+ String dq rest)
      with ((o +:+ x +:+ String dq EmptyString) +:+ rest).
    { by rewrite consumed_app. }
    rewrite !app_assoc_s. done.
  - intros a x' Ha. rewrite rmatch_Lit, strip_dq. cbn [String.append].
    simpl in Ha. apply andb_prop in Ha as [Ha _].
    apply negb_true_iff in Ha. by rewrite Ha.
Qed.


Lemma endsWith_cons c a y :
  endsWith c (String a y) =
  match y with EmptyString => Ascii.eqb a c | _ => endsWith c y end.
Proof. by destruct y. Qed.

Lemma consumed_cut s t more :
  consumed (s +:+ more) (t +:+ more) = consumed s t.
Proof.
  unfold consumed. rewrite !length_app_s.
  replace (String.length s + String.length more -
           (String.length t + String.length more))
    with (String.length s - String.length t) by lia.
  assert (∀ n u, n ≤ String.length u → Str.take n (u +:+ more) = Str.take n u)
    as Htake.
  { induction n as [|n IH]; intros u Hn.
    - by destruct u, more.
    - destruct u as [|c u]; [simpl in Hn; lia|].
      cbn [String.append Str.take]. f_equal. apply IH. simpl in Hn. lia. }
  apply Htake. lia.
Qed.

Lemma match_len_cut s t more :
  match_len (s +:+ more) (t +:+ more) = match_len s t.
Proof. unfold match_len. rewrite !length_app_s. lia. Qed.

(** A literal whose quotes follow equals signs does not take the quote
    that closes a value. *)
Lemma strip_lit_cut_from lit : ∀ pl pt v more,
  quoteAfterEq pl lit = true →
  (pl = "="%char → pt = "="%char) →
  endsWith "=" (String pt v) = false →
  match strip_lit true lit (v +:+ quote) with
  | Some r =>
      ∃ v2, r = v2 +:+ quote ∧ endsWith "=" v2 = false ∧
            strip_lit true lit ((v +:+ quote) +:+ more) =
            Some ((v2 +:+ quote) +:+ more)
  | None => strip_lit true lit ((v +:+ quote) +:+ more) = None
  end.
Proof.
  induction lit as [|c lit IH]; intros pl pt v more Hlit Hprev Hv.
  { cbn [strip_lit]. exists v. split; [done|]. split; [|done].
    rewrite endsWith_cons in Hv. by destruct v. }
  cbn [quoteAfterEq] in Hlit. apply andb_prop in Hlit as [Hc Hlit].
  destruct v as [|a v].
  - cbn [String.append quote strip_lit strip_char].
    rewrite foldEq_of_dq.
    destruct (Ascii.eqb c dq) eqn:Ec.
    + cbn [negb orb] in Hc. apply Ascii.eqb_eq in Hc.
      rewrite (Hprev Hc) in Hv. done.
    + cbn [andb]. rewrite !andb_false_r. done.
  - cbn [String.append strip_lit strip_char].
    destruct (foldEq true c a) eqn:Ef.
    { apply (IH c a v more Hlit).
      - intros ->. rewrite foldEq_eq in Ef. by apply Ascii.eqb_eq in Ef.
      - by rewrite endsWith_cons in Hv. }
    cbn [andb].
    assert (∀ b w, endsWith "=" (String b w) = false →
                   Ascii.eqb (lower c) "s" || Ascii.eqb (lower c) "k" = true →
                   match strip_lit true lit (w +:+ quote) with
                   | Some r =>
                       ∃ v2, r = v2 +:+ quote ∧ endsWith "=" v2 = false ∧
                             strip_lit true lit ((w +:+ quote) +:+ more) =
                             Some ((v2 +:+ quote) +:+ more)
                   | None => strip_lit true lit ((w +:+ quote) +:+ more) = None
                   end) as Hnext.
    { intros b w Hw Hsk. apply (IH c b w more Hlit); [|done].
      intros ->. done. }
    destruct (Ascii.eqb (lower c) "s" && Ascii.eqb a "197") eqn:Es.
    { apply andb_prop in Es as [Es _].
      destruct v as [|b v].
      - cbn [String.append quote]. done.
      - cbn [String.append]. destruct (Ascii.eqb b "191"); [|done].
        apply (Hnext b v); [|by rewrite Es].
        rewrite !endsWith_cons in Hv. by rewrite endsWith_cons. }
    destruct (Ascii.eqb (lower c) "k" && Ascii.eqb a "226") eqn:Ek; [|done].
    apply andb_prop in Ek as [Ek _].
    destruct v as [|b1 [|b2 v]].
    + cbn [String.append quote]. by destruct more.
    + cbn [String.append quote]. cbn. by rewrite !andb_false_r.
    + cbn [String.append].
      destruct (Ascii.eqb b1 "132" && Ascii.eqb b2 "170"); [|done].
      apply (Hnext b2 v); [|by rewrite Ek, orb_true_r].
      rewrite !endsWith_cons in Hv. by rewrite endsWith_cons.
Qed.

Lemma strip_lit_cut lit v more :
  quoteAfterEq " " lit = true → endsWith "=" v = false →
  match strip_lit true lit (v +:+ quote) with
  | Some r =>
      ∃ v2, r = v2 +:+ quote ∧ endsWith "=" v2 = false ∧
            strip_lit true lit ((v +:+ quote) +:+ more) =
            Some ((v2 +:+ quote) +:+ more)
  | None => strip_lit true lit ((v +:+ quote) +:+ more) = None
  end.
Proof.
  intros Hlit Hv. apply (strip_lit_cut_from lit " " " "); [done|done|].
  rewrite endsWith_cons. by destruct v.
Qed.

Lemma lazyRun_cut (k k' : string → option (Caps * string)) v more :
  endsWith "=" v = false →
  (∀ v2, endsWith "=" v2 = false →
         k' ((v2 +:+ quote) +:+ more) = followedBy more (k (v2 +:+ quote))) →
  lazyRun dq k' ((v +:+ quote) +:+ more) =
  followedBy more (lazyRun dq k (v +:+ quote)).
Proof.
  intros Hv Hk. induction v as [|a v IH].
  - cbn [String.append quote lazyRun]. by rewrite Ascii.eqb_refl.
  - cbn [String.append lazyRun]. destruct (Ascii.eqb a dq); [done|].
    apply endsWith_tail in Hv. rewrite (Hk v Hv).
    destruct (k (v +:+ quote)) as [[caps rest]|]; [done|].
    cbn [followedBy]. by apply IH.
Qed.

Lemma inner_cut r : inner r = true → ∀ v more caps k k',
  endsWith "=" v = false →
  (∀ v2 caps2, endsWith "=" v2 = false →
     k' ((v2 +:+ quote) +:+ more) caps2 =
     followedBy more (k (v2 +:+ quote) caps2)) →
  rmatch iU r ((v +:+ quote) +:+ more) caps k' =
  followedBy more (rmatch iU r (v +:+ quote) caps k).
Proof.
  induction r as [lit|c|r1 IH1 r2 IH2|r1 IH1 r2 IH2|r1 IH1|i r1 IH1];
    cbn [inner]; intros Hr v more caps k k' Hv Hk.
  - rewrite !rmatch_Lit. cbn [foldCase iU].
    pose proof (strip_lit_cut lit v more Hr Hv) as H.
    destruct (strip_lit true lit (v +:+ quote)) as [r|].
    + destruct H as (v2 & -> & Hv2 & ->). by apply Hk.
    + by rewrite H.
  - done.
  - apply andb_prop in Hr as [Hr1 Hr2]. rewrite !rmatch_Cat.
    apply IH1; [done|done|]. intros v2 caps2 Hv2. by apply IH2.
  - apply andb_prop in Hr as [Hr1 Hr2]. rewrite !rmatch_Alt.
    rewrite (IH1 Hr1 v more caps k k' Hv Hk), (IH2 Hr2 v more caps k k' Hv Hk).
    by destruct (rmatch iU r1 (v +:+ quote) caps k) as [[]|].
  - destruct r1 as [|c| | | |]; try done. apply Ascii.eqb_eq in Hr as ->.
    rewrite !rmatch_Plus_NotChar. apply lazyRun_cut; [done|].
    intros v2 Hv2. by apply Hk.
  - rewrite !rmatch_Cap. apply IH1; [done|done|].
    intros v2 caps2 Hv2. rewrite consumed_cut. by apply Hk.
Qed.

Lemma closing_cut r : closing r = true → ∀ v more caps k k',
  endsWith "=" v = false →
  (∀ v2 caps2, endsWith "=" v2 = false →
     k' ((v2 +:+ quote) +:+ more) caps2 =
     followedBy more (k (v2 +:+ quote) caps2)) →
  (∀ caps2, k' more caps2 = followedBy more (k EmptyString caps2)) →
  rmatch iU r ((v +:+ quote) +:+ more) caps k' =
  followedBy more (rmatch iU r (v +:+ quote) caps k).
Proof.
  induction r as [lit|c|r1 IH1 r2 IH2|r1 IH1 r2 IH2|r1 IH1|i r1 IH1];
    cbn [closing]; intros Hr v more caps k k' Hv Hk Hend; try done.
  - apply String.eqb_eq in Hr as ->. rewrite !rmatch_Lit. cbn [foldCase iU].
    unfold quote at 2 4. rewrite !strip_dq. destruct v as [|a v].
    + cbn [String.append quote]. rewrite Ascii.eqb_refl. apply Hend.
    + cbn [String.append]. destruct (Ascii.eqb a dq); [|done].
      apply Hk. by apply endsWith_tail in Hv.
  - apply andb_prop in Hr as [Hr1 Hr2]. rewrite !rmatch_Cat.
    apply inner_cut; [done|done|]. intros v2 caps2 Hv2. by apply IH2.
  - rewrite !rmatch_Cap. apply IH1; [done|done| |].
    + intros v2 caps2 Hv2. rewrite consumed_cut. by apply Hk.
    + intros caps2. rewrite consumed_app.
      assert (consumed (v +:+ quote) EmptyString = v +:+ quote) as ->; [|apply Hend].
      rewrite <- (app_nil_r_s (v +:+ quote)) at 1. apply consumed_app.
Qed.

(** A match that starts before the closing quote of a value ends with
    that quote at the latest: the text after the quote does not change
    it. *)
Lemma match_here_cut p v more :
  flags p = iU → closing (expr p) = true → endsWith "=" v = false →
  match_here p ((v +:+ quote) +:+ more) =
  followedBy more (match_here p (v +:+ quote)).
Proof.
  intros Hf Hp Hv. unfold match_here. rewrite Hf.
  by apply (closing_cut (Cap 0 (expr p))).
Qed.

Section cut.
Context (word : RuneClass) (p : Prog) (repl : string).

Lemma replace_cut_from v more :
  flags p = iU → closing (expr p) = true → endsWith "=" v = false →
  ∀ n, n ≤ S (String.length v) →
  replace_from word p repl n ((v +:+ quote) +:+ more) =
  replace_from word p repl n (v +:+ quote) +:+ replace_from word p repl 0 more.
Proof.
  intros Hflags Hclosing. induction v as [|a v IH]; intros Hv n Hn.
  - destruct n as [|n].
    + pose proof (match_here_cut p EmptyString more Hflags Hclosing Hv) as Hm.
      unfold quote in *. cbn [String.append] in *. cbn [replace_from]. rewrite Hm.
      destruct (match_here p (String dq EmptyString)) as [[caps rest]|];
        cbn [followedBy]; [|done].
      change (String dq more) with (String dq EmptyString +:+ more).
      rewrite match_len_cut.
      destruct (match_len (String dq EmptyString) rest) as [|m] eqn:El; [done|].
      assert (m = 0) as ->.
      { unfold match_len in El. simpl in El. lia. }
      cbn [replace_from String.append]. by rewrite app_nil_r_s.
    + assert (n = 0) as -> by (simpl in Hn; lia).
      unfold quote. cbn [String.append replace_from]. done.
  - cbn [String.append]. cbn [String.length] in Hn.
    pose proof (endsWith_tail _ _ _ Hv) as Hv'.
    destruct n as [|n].
    + cbn [replace_from].
      change (String a ((v +:+ quote) +:+ more))
        with ((String a v +:+ quote) +:+ more).
      change (String a (v +:+ quote)) with (String a v +:+ quote).
      rewrite (match_here_cut p (String a v) more Hflags Hclosing Hv).
      destruct (match_here p (String a v +:+ quote)) as [[caps rest]|];
        cbn [followedBy].
      * rewrite match_len_cut.
        destruct (match_len (String a v +:+ quote) rest) as [|m] eqn:El.
        { cbn [String.append]. f_equal. apply IH; [done|lia]. }
        rewrite IH; [by rewrite app_assoc_s|done|].
        unfold match_len in El. rewrite length_app_s in El.
        simpl in El. lia.
      * cbn [String.append]. f_equal. apply IH; [done|lia].
    + cbn [replace_from]. apply IH; [done|lia].
Qed.

Lemma replace_cut v more :
  flags p = iU → closing (expr p) = true → endsWith "=" v = false →
  replace_from word p repl 0 ((v +:+ quote) +:+ more) =
  replace_from word p repl 0 (v +:+ quote) +:+ replace_from word p repl 0 more.
Proof. intros Hf Hp Hv. apply replace_cut_from; [done|done|done|lia]. Qed.

Lemma find_all_cut_from v more :
  flags p = iU → closing (expr p) = true → endsWith "=" v = false →
  ∀ n, n ≤ S (String.length v) →
  find_all_from p n ((v +:+ quote) +:+ more) =
  find_all_from p n (v +:+ quote) ++ find_all_from p 0 more.
Proof.
  intros Hflags Hclosing. induction v as [|a v IH]; intros Hv n Hn.
  - destruct n as [|n].
    + pose proof (match_here_cut p EmptyString more Hflags Hclosing Hv) as Hm.
      unfold quote in *. cbn [String.append] in *. cbn [find_all_from]. rewrite Hm.
      destruct (match_here p (String dq EmptyString)) as [[caps rest]|];
        cbn [followedBy]; [|done].
      change (String dq more) with (String dq EmptyString +:+ more).
      rewrite match_len_cut.
      destruct (match_len (String dq EmptyString) rest) as [|m] eqn:El; [done|].
      assert (m = 0) as ->.
      { unfold match_len in El. simpl in El. lia. }
      done.
    + assert (n = 0) as -> by (simpl in Hn; lia).
      unfold quote. cbn [String.append find_all_from]. done.
  - cbn [String.append]. cbn [String.length] in Hn.
    pose proof (endsWith_tail _ _ _ Hv) as Hv'.
    destruct n as [|n].
    + cbn [find_all_from].
      change (String a ((v +:+ quote) +:+ more))
        with ((String a v +:+ quote) +:+ more).
      change (String a (v +:+ quote)) with (String a v +:+ quote).
      rewrite (match_here_cut p (String a v) more Hflags Hclosing Hv).
      destruct (match_here p (String a v +:+ quote)) as [[caps rest]|];
        cbn [followedBy].
      * rewrite match_len_cut.
        destruct (match_len (String a v +:+ quote) rest) as [|m] eqn:El.
        { apply IH; [done|lia]. }
        rewrite IH; [done|done|].
        unfold match_len in El. rewrite length_app_s in El.
        simpl in El. lia.
      * apply IH; [done|lia].
    + cbn [find_all_from]. apply IH; [done|lia].
Qed.

Lemma find_all_cut v more :
  flags p = iU → closing (expr p) = true → endsWith "=" v = false →
  find_all_from p 0 ((v +:+ quote) +:+ more) =
  find_all_from p 0 (v +:+ quote) ++ find_all_from p 0 more.
Proof. intros Hf Hp Hv. apply find_all_cut_from; [done|done|done|lia]. Qed.

End cut.


(** ** What a match of the link pattern looks like *)

Lemma strip_lit_inv fold lit s r :
  strip_lit fold lit s = Some r → ∃ o, s = o +:+ r.
Proof.
  revert s. induction lit as [|c lit IH]; intros s; cbn [strip_lit].
  - intros [= ->]. by exists EmptyString.
  - destruct (strip_char fold c s) as [s1|] eqn:E; [|done].
    intros (o & ->)%IH.
    revert E. unfold strip_char. destruct s as [|a s]; [done|].
    destruct (foldEq fold c a).
    { intros [= ->]. by exists (String a o). }
    destruct (fold && Ascii.eqb (lower c) "s" && Ascii.eqb a "197").
    { destruct s as [|b s]; [done|]. destruct (Ascii.eqb b "191"); [|done].
      intros [= ->]. by exists (String a (String b o)). }
    destruct (fold && Ascii.eqb (lower c) "k" && Ascii.eqb a "226"); [|done].
    destruct s as [|b1 [|b2 s]]; try done.
    destruct (Ascii.eqb b1 "132" && Ascii.eqb b2 "170"); [|done].
    intros [= ->]. by exists (String a (String b1 (String b2 o))).
Qed.

Lemma lazyRun_inv {R} c (k : string → option R) s r :
  lazyRun c k s = Some r →
  ∃ x s', s = x +:+ s' ∧ x ≠ EmptyString ∧ free_of c x = true ∧ k s' = Some r.
Proof.
  induction s as [|a s IH]; [done|]. cbn [lazyRun].
  destruct (Ascii.eqb a c) eqn:Ea; [done|].
  destruct (k s) as [r'|] eqn:Ek.
  - intros [= ->]. exists (String a EmptyString), s. cbn. by rewrite Ea.
  - intros (x & s' & -> & Hx & Hf & Hk)%IH. exists (String a x), s'.
    cbn. by rewrite Ea.
Qed.

Lemma match_here_link_inv s caps rest :
  match_here linkRegex s = Some (caps, rest) →
  ∃ o x, s = (o +:+ x +:+ quote) +:+ rest ∧ x ≠ EmptyString ∧
         caps = [(0%N, o +:+ x +:+ quote); (1%N, x)].
Proof.
  unfold match_here, linkRegex. cbn [expr flags].
  rewrite rmatch_Cap, rmatch_Cat, rmatch_Lit. cbn [foldCase iU].
  destruct (strip_lit true _ s) as [s1|] eqn:E1; [|done].
  apply strip_lit_inv in E1 as (o & ->).
  rewrite rmatch_Cat, rmatch_Cap, rmatch_Plus_NotChar.
  intros (x & s' & -> & Hx & Hf & Hk)%lazyRun_inv.
  rewrite rmatch_Lit, strip_dq in Hk. destruct s' as [|a s']; [done|].
  destruct (Ascii.eqb a dq) eqn:Ea; [|done]. apply Ascii.eqb_eq in Ea as ->.
  injection Hk as <- <-. exists o, x.
  assert (o +:+ x +:+ String dq s' = (o +:+ x +:+ quote) +:+ s') as Heq.
  { unfold quote. by rewrite !app_assoc_s. }
  split; [done|]. split; [done|].
  rewrite (consumed_app x (String dq s')), Heq, consumed_app. done.
Qed.

Lemma app_quote_inv y m rest :
  y +:+ quote = m +:+ rest →
  (rest = EmptyString ∧ m = y +:+ quote) ∨
  ∃ v2, rest = v2 +:+ quote ∧ y = m +:+ v2.
Proof.
  revert y. induction m as [|c m IH]; intros y; cbn [String.append].
  - intros <-. right. by exists y.
  - destruct y as [|a y]; cbn [String.append]; unfold quote at 1.
    + intros [= <- H]. destruct m; [|done]. simpl in H. subst rest. by left.
    + intros [= <- H]. fold quote in H.
      apply IH in H as [[-> ->] | (v2 & -> & ->)]; [by left|right; by eexists].
Qed.

(** [rewriteLinks] keeps a closing quote and what is before it apart. *)
Lemma rewriteLinks_closed_upto word n : ∀ v,
  String.length v < n → endsWith "=" v = false →
  ∃ z, replace_from word linkRegex linkTemplate 0 (v +:+ quote) = z +:+ quote ∧
       endsWith "=" z = false ∧ (z = EmptyString → v = EmptyString).
Proof.
  induction n as [|n IH]; intros v Hn Hv; [lia|].
  destruct v as [|a v].
  { by exists EmptyString. }
  destruct (match_here linkRegex (String a v +:+ quote)) as [[caps rest]|] eqn:Hm.
  - destruct (match_here_link_inv _ _ _ Hm) as (o & x & Heq & Hx & ->).
    pose proof (app_quote_inv _ _ _ Heq) as H2. rewrite Heq in Hm |- *.
    assert (o +:+ x +:+ quote ≠ EmptyString) as Hne by by destruct o, x.
    rewrite (replace_match _ _ _ (o +:+ x +:+ quote) rest _ Hne Hm).
    rewrite expand_linkTemplate.
    destruct H2 as [[-> Hy] | (v2 & -> & Hy)].
    + exists ("href=" +:+ String dq "/blog/" +:+ x). split; [|split].
      * unfold newLink, quote. simpl. by rewrite !app_assoc_s, ?app_nil_r_s.
      * change ("href=" +:+ String dq "/blog/" +:+ x)
          with (("href=" +:+ String dq "/blog/") +:+ x).
        rewrite endsWith_app by done.
        assert (String a v = o +:+ x) as Hov.
        { revert Hy. unfold quote. rewrite <- !app_assoc_s.
          generalize (o +:+ x). intros u. revert u.
          generalize (String a v). intros y. induction y as [|c y IHy];
            intros [|d u]; simpl; try done.
          - by destruct u.
          - by destruct y.
          - intros [= -> H]. f_equal. by apply IHy. }
        rewrite Hov, endsWith_app in Hv; done.
      * done.
    + destruct (IH v2) as (z2 & Hz2 & Hez & _).
      * assert (String.length (String a v) =
                String.length ((o +:+ x +:+ quote) +:+ v2)) as Hl by by rewrite Hy.
        unfold quote in Hl. rewrite !length_app_s in Hl.
        cbn [String.length] in Hl, Hn. lia.
      * destruct v2 as [|b v2]; [done|].
        rewrite Hy, endsWith_app in Hv; done.
      * exists (newLink x +:+ z2). split; [|split].
        -- by rewrite Hz2, app_assoc_s.
        -- destruct z2 as [|b z2].
           ++ rewrite app_nil_r_s. unfold newLink.
              rewrite <- !app_assoc_s. by rewrite endsWith_app.
           ++ by rewrite endsWith_app.
        -- by destruct x.
  - change (String a v +:+ quote) with (String a (v +:+ quote)).
    rewrite replace_nomatch by done.
    destruct (IH v) as (z & Hz & Hez & Hzv).
    + simpl in Hn. lia.
    + by apply endsWith_tail in Hv.
    + exists (String a z). split; [by rewrite Hz|]. split; [|done].
      rewrite endsWith_cons. destruct z as [|b z]; [|done].
      rewrite Hzv in Hv by done. done.
Qed.

Lemma rewriteLinks_closed env v :
  endsWith "=" v = false →
  ∃ z, rewriteLinks env (v +:+ quote) = z +:+ quote ∧ endsWith "=" z = false.
Proof.
  intros Hv.
  destruct (rewriteLinks_closed_upto (letterOrDigit env) (S (String.length v)) v)
    as (z & Hz & Hez & _); [lia|done|].
  by exists z.
Qed.

(** What [rewriteContent] makes of the text up to a closing quote does
    not depend on what follows, and the other way round. *)
Lemma rewriteContent_cut env id v more :
  endsWith "=" v = false →
  rewriteContent env id ((v +:+ quote) +:+ more) =
  rewriteContent env id (v +:+ quote) +:+ rewriteContent env id more.
Proof.
  intros Hv. unfold rewriteContent.
  destruct (rewriteLinks_closed env v Hv) as (z & Hz & Hez).
  unfold rewriteLinks at 1, ReplaceAllString.
  rewrite replace_cut by done.
  fold (ReplaceAllString (letterOrDigit env) linkRegex (v +:+ quote) linkTemplate).
  fold (rewriteLinks env (v +:+ quote)).
  fold (ReplaceAllString (letterOrDigit env) linkRegex more linkTemplate).
  fold (rewriteLinks env more).
  rewrite Hz. unfold rewriteAttachments, ReplaceAllString.
  by rewrite replace_cut.
Qed.

Lemma free_openValue s : free_of dq s = true → openValue s = false.
Proof.
  induction s as [|a s IH]; [done|]. cbn [free_of openValue].
  intros [Ha Hs]%andb_prop. rewrite (IH Hs), orb_false_r.
  destruct s as [|b s]; [by rewrite andb_false_r|].
  cbn [free_of] in Hs. apply andb_prop in Hs as [Hb _].
  apply negb_true_iff in Hb. by rewrite Hb, andb_false_r.
Qed.

Lemma last_quote pre :
  openValue pre = false →
  free_of dq pre = true ∨
  ∃ v t, pre = (v +:+ quote) +:+ t ∧ endsWith "=" v = false ∧
         free_of dq t = true.
Proof.
  induction pre as [|a pre IH]; [by left|].
  cbn [openValue]. intros [Ha Hopen]%orb_false_elim.
  destruct (free_of dq pre) eqn:Hfree.
  - destruct (Ascii.eqb a dq) eqn:Ea.
    + apply Ascii.eqb_eq in Ea as ->. right. by exists EmptyString, pre.
    + left. cbn [free_of]. by rewrite Ea.
  - right. destruct (IH Hopen) as [|(v & t & -> & Hv & Ht)]; [done|].
    exists (String a v), t. split; [done|]. split; [|done].
    rewrite endsWith_cons. destruct v as [|b v]; [|done].
    cbn [String.append quote] in Ha. rewrite Ascii.eqb_refl, Ht in Ha.
    by rewrite andb_true_r in Ha.
Qed.

(** Markup that does not end within a value is rewritten on its own. *)
Lemma rewriteContent_pre env id pre more after :
  openValue pre = false →
  (∀ t, free_of dq t = true →
        rewriteContent env id (t +:+ more) = t +:+ after) →
  rewriteContent env id (pre +:+ more) = rewriteContent env id pre +:+ after.
Proof.
  intros Hopen Hmore.
  destruct (last_quote pre Hopen) as [Hfree|(v & t & -> & Hv & Ht)].
  - by rewrite Hmore, rewriteContent_plain.
  - rewrite (app_assoc_s (v +:+ quote) t more).
    rewrite !rewriteContent_cut by done.
    by rewrite Hmore, (rewriteContent_plain env id t), app_assoc_s.
Qed.


(** ** References whose address starts with /read/ *)

Lemma strip_lit_app_lit fold l1 l2 s :
  strip_lit fold (l1 +:+ l2) s = s1 ← strip_lit fold l1 s; strip_lit fold l2 s1.
Proof.
  revert s. induction l1 as [|c l1 IH]; intros s; [done|].
  cbn [String.append strip_lit]. by destruct (strip_char fold c s).
Qed.

Lemma strip_slash s r : strip_lit true "/" s = Some r → s = String "/" r.
Proof.
  destruct s as [|a s]; [done|]. cbn [strip_lit strip_char].
  rewrite foldEq_slash. destruct (Ascii.eqb a "/") eqn:E; [|done].
  apply Ascii.eqb_eq in E as ->. by intros [= ->].
Qed.

(** The address of a reference that the link pattern takes for a link:
    it starts, in any case, with /read/. *)
Lemma read_host host t r :
  strip_lit true "/read/" (host +:+ api +:+ t) = Some r →
  ∃ o hs, sameFold "/read" o = true ∧ host = o +:+ hs ∧
          String "/" r = hs +:+ api +:+ t.
Proof.
  change "/read/" with ("/read" +:+ "/"). rewrite strip_lit_app_lit.
  destruct (strip_lit true "/read" _) as [s1|] eqn:E1; [|done].
  cbn [mbind option_bind]. intros ->%strip_slash.
  revert E1. unfold api.
  destruct host as [|h0 [|h1 [|h2 [|h3 [|h4 hs]]]]]; cbn [String.append];
    try (crunch; fail).
  crunch. intros [= H].
  exists (String h0 (String h1 (String h2 (String h3 (String h4 EmptyString))))), hs.
  split; [|done]. cbn [sameFold]. rewrite foldEq_slash.
  repeat match goal with E : _ = true |- _ => rewrite E; clear E end. done.
Qed.

Lemma containsFold_blog hs :
  containsFold apiPath hs = false →
  containsFold apiPath ("/blog" +:+ hs) = false.
Proof.
  intros H. unfold apiPath in *. cbn [String.append containsFold].
  rewrite H, orb_false_r.
  repeat (apply orb_false_intro; [apply bool_decide_eq_false; intros [r Hr];
            revert Hr; crunch|]).
  done.
Qed.

Lemma sameFold_length lit o : sameFold lit o = true → String.length o = String.length lit.
Proof.
  revert o. induction lit as [|c lit IH]; intros [|a o]; try done.
  cbn [sameFold String.length]. intros [_ H]%andb_prop. f_equal. by apply IH.
Qed.

(** The link pass at a reference: it leaves the reference alone, unless
    the address starts with /read/, which it turns into /blog/. *)
Lemma rewriteLinks_at_reference env attr host xyz post :
  attr = "href" ∨ attr = "src" →
  host ≠ EmptyString → free_of dq host = true →
  containsFold apiPath host = false →
  xyz ≠ EmptyString → free_of dq xyz = true → endsWith "=" xyz = false →
  ∃ host', host' ≠ EmptyString ∧ free_of dq host' = true ∧
           containsFold apiPath host' = false ∧
    rewriteLinks env (reference attr host xyz +:+ post) =
    reference attr host' xyz +:+ rewriteLinks env post.
Proof.
  intros Hattr Hhost Hqh Hapi Hxyz Hqx Hex.
  unfold rewriteLinks, ReplaceAllString.
  assert (∀ t, replace_from (letterOrDigit env) linkRegex linkTemplate 0
                 (host +:+ api +:+ xyz +:+ String dq t) =
               host +:+ api +:+ xyz +:+
               String dq (replace_from (letterOrDigit env) linkRegex linkTemplate 0 t)) as Hurl.
  { intros t.
    pose proof (replace_copy_P (letterOrDigit env) linkRegex linkTemplate
               (λ u, free_of dq u = true ∧ endsWith "=" u = false)
               (host +:+ api +:+ xyz) (String dq t)) as Hcopy.
    rewrite !app_assoc_s in Hcopy. rewrite Hcopy; clear Hcopy.
    - do 3 f_equal.
    - by rewrite !free_of_app, !endsWith_app, Hqh, Hqx, Hex.
    - intros a y [H1 H2].
      split; [by eapply free_of_tail | by eapply endsWith_tail].
    - intros a y [H1 H2]. apply match_here_link_none.
      by apply linkOpen_no_equals. }
  destruct Hattr as [-> | ->].
  - destruct (strip_lit true "/read/" (host +:+ api +:+ xyz +:+ String dq post))
      as [r|] eqn:Hr.
    + destruct (read_host _ _ _ Hr) as (o & hs & Ho & -> & Hrest).
      assert (∃ x1, x1 ≠ EmptyString ∧ free_of dq x1 = true ∧
                    r = x1 +:+ String dq post ∧
                    hs +:+ api +:+ xyz = String "/" x1) as (x1 & Hx1 & Hqx1 & -> & Hv).
      { rewrite free_of_app in Hqh. apply andb_prop in Hqh as [_ Hqhs].
        destruct hs as [|c hs].
        - cbn [String.append] in Hrest. unfold api in Hrest.
          cbn [String.append] in Hrest. injection Hrest as ->.
          exists ("api/v1/content/" +:+ xyz). split; [done|]. split; [|done].
          by rewrite free_of_app, Hqx.
        - cbn [String.append] in Hrest. injection Hrest as <- ->.
          exists (hs +:+ api +:+ xyz). split; [by destruct hs|].
          split; [|by rewrite !app_assoc_s].
          apply free_of_tail in Hqhs. by rewrite !free_of_app, Hqhs, Hqx. }
      exists ("/blog" +:+ hs).
      pose proof (sameFold_length _ _ Ho) as Hlen.
      destruct o as [|o0 [|o1 [|o2 [|o3 [|o4 [|o5 o]]]]]]; try done. clear Hlen.
      split; [done|]. split.
      { rewrite free_of_app in Hqh. apply andb_prop in Hqh as [_ Hq2].
        by rewrite free_of_app, Hq2. }
      split.
      { apply containsFold_blog. cbn [String.append] in Hapi.
        by do 5 apply containsFold_cons in Hapi as [_ Hapi]. }
      set (o' := "href=" +:+ String dq
                   (String o0 (String o1 (String o2 (String o3 (String o4 "/")))))).
      assert (reference "href"
                (String o0 (String o1 (String o2 (String o3 (String o4 EmptyString))))
                 +:+ hs) xyz +:+ post =
              (o' +:+ x1 +:+ quote) +:+ post) as ->.
      { unfold reference, eqQuote, o', quote. rewrite !app_assoc_s.
        cbn [String.append]. do 11 f_equal.
        transitivity ((hs +:+ api +:+ xyz) +:+ String dq post);
          [by rewrite !app_assoc_s | by rewrite Hv]. }
      rewrite (replace_match _ _ _ (o' +:+ x1 +:+ quote) post
                 [(0%N, o' +:+ x1 +:+ quote); (1%N, x1)]).
      * rewrite expand_linkTemplate. f_equal.
        unfold newLink, reference, eqQuote. rewrite !app_assoc_s.
        cbn [String.append]. do 11 f_equal.
        transitivity ((hs +:+ api +:+ xyz) +:+ String dq EmptyString);
          [by rewrite Hv | by rewrite !app_assoc_s].
      * done.
      * unfold quote. rewrite !app_assoc_s. cbn [String.append].
        change (String "h" (String "r" (String "e" (String "f" (String "="
                  (String dq (String o0 (String o1 (String o2 (String o3
                     (String o4 (String "/" (x1 +:+ String dq post)))))))))))))
          with (o' +:+ x1 +:+ String dq post).
        apply match_here_link_fold; [|done|done].
        unfold o', linkOpen. cbn [String.append sameFold] in Ho |- *.
        apply andb_prop in Ho as [E0 Ho]. apply andb_prop in Ho as [E1 Ho].
        apply andb_prop in Ho as [E2 Ho]. apply andb_prop in Ho as [E3 Ho].
        apply andb_prop in Ho as [E4 _].
        by rewrite !foldEq_refl, E0, E1, E2, E3, E4.
    + exists host. split; [done|]. split; [done|]. split; [done|].
      unfold reference, eqQuote. rewrite !app_assoc_s. cbn [String.append].
      rewrite replace_nomatch.
      2:{ apply match_here_link_none. unfold linkOpen. crunch; exact Hr. }
      do 5 (rewrite replace_nomatch; [|no_link]).
      do 6 f_equal. apply (Hurl post).
  - exists host. split; [done|]. split; [done|]. split; [done|].
    unfold reference, eqQuote. rewrite !app_assoc_s. cbn [String.append].
    do 5 (rewrite replace_nomatch; [|no_link]).
    do 5 f_equal. apply (Hurl post).
Qed.

Lemma rewriteLinks_reference env pre attr host xyz post :
  attr = "href" ∨ attr = "src" →
  free_of dq pre = true →
  host ≠ EmptyString → free_of dq host = true →
  containsFold apiPath host = false →
  xyz ≠ EmptyString → free_of dq xyz = true → endsWith "=" xyz = false →
  ∃ host', host' ≠ EmptyString ∧ free_of dq host' = true ∧
           containsFold apiPath host' = false ∧
    rewriteLinks env (pre +:+ reference attr host xyz +:+ post) =
    pre +:+ reference attr host' xyz +:+ rewriteLinks env post.
Proof.
  intros Hattr Hpre Hhost Hqh Hapi Hxyz Hqx Hex.
  destruct (rewriteLinks_at_reference env attr host xyz post)
    as (host' & H1 & H2 & H3 & H4); [done..|].
  exists host'. split; [done|]. split; [done|]. split; [done|].
  revert H4. unfold rewriteLinks, ReplaceAllString. intros H4.
  rewrite (replace_copy_P _ _ _ (λ u, free_of dq u = true)); [|done| |].
  - by rewrite H4.
  - intros a y. apply free_of_tail.
  - intros a y Hfree. apply match_here_link_none.
    unfold reference, eqQuote. rewrite !app_assoc_s.
    destruct Hattr as [-> | ->].
    + apply (strip_linkOpen_before "href"); [by left|done].
    + apply (strip_linkOpen_before "src"); [by right|done].
Qed.


(** ** The claims about the markup *)

Lemma loadArticle_content env article latest content w :
  LatestArticleContent article = Some latest →
  emvi.GetArticle (client env) (Id article) (LanguageId latest) = Ok content →
  ∃ w', loadArticle env article w =
        Done (Some (withBody content
                      (rewriteContent env (Id article) (Content content))), w').
Proof.
  intros Hl Hc. destruct (loadArticle_Done env article w) as [w' H].
  { by eexists. }
  exists w'. rewrite H. unfold ingested, fetched. rewrite Hl. simpl.
  by rewrite Hc.
Qed.




Lemma rewriteContent_reference env id pre attr host xyz post :
  attr = "href" ∨ attr = "src" →
  free_of "$" id = true →
  openValue pre = false →
  host ≠ EmptyString → free_of dq host = true →
  containsFold apiPath host = false →
  xyz ≠ EmptyString → free_of dq xyz = true → endsWith "=" xyz = false →
  rewriteContent env id (pre +:+ reference attr host xyz +:+ post) =
  rewriteContent env id pre +:+ newReference attr id xyz +:+
  rewriteContent env id post.
Proof.
  intros Hattr Hid Hpre Hhost Hqh Hapi Hxyz Hqx Hex.
  apply rewriteContent_pre; [done|]. intros t Ht. unfold rewriteContent.
  destruct (rewriteLinks_reference env t attr host xyz post)
    as (host' & H1 & H2 & H3 & ->); [done..|].
  by rewrite rewriteAttachments_reference.
Qed.





(** ** The downloads of a refresh *)

Lemma httpCount_app url tr1 tr2 :
  httpCount url (tr1 ++ tr2) = httpCount url tr1 + httpCount url tr2.
Proof. unfold httpCount. by rewrite filter_app, length_app. Qed.

Lemma httpCount_logged url e w :
  httpCount url (trace (logged e w)) =
  httpCount url (trace w) + (if decide (e = EvHttpGet url) then 1 else 0).
Proof.
  simpl. rewrite httpCount_app. f_equal. unfold httpCount.
  case_decide.
  - by rewrite filter_cons_True.
  - by rewrite filter_cons_False.
Qed.

Lemma httpCount_putFile url path data w w' :
  putFile path data w = Done (tt, w') →
  httpCount url (trace w') = httpCount url (trace w).
Proof. by intros [= <-]. Qed.

Lemma downloadAttachment_count env id url attachment w w' :
  downloadAttachment env id attachment w = Done (tt, w') →
  httpCount url (trace w') =
  httpCount url (trace w) +
  (if decide (attachmentURL attachment = Some url) then 1 else 0).
Proof.
  unfold downloadAttachment, attachmentURL.
  destruct attachment as [|a0 [|a1 [|prefix [|name [|? ?]]]]];
    try (intros [= <-]; case_decide; [done|lia]).
  intros ([] & w0 & [= <-] & H)%bind_inv. revert H.
  destruct (httpGet env _) as [| |data].
  - intros [= <-]. rewrite !httpCount_logged.
    repeat case_decide; try congruence; lia.
  - intros [= <-]. rewrite !httpCount_logged.
    repeat case_decide; try congruence; lia.
  - intros ([] & w1 & [= <-] & H)%bind_inv. revert H.
    destruct (writeFileFails env _).
    + intros [= <-]. rewrite !httpCount_logged.
      repeat case_decide; try congruence; lia.
    + intros ->%(httpCount_putFile url). rewrite !httpCount_logged.
      repeat case_decide; try congruence; lia.
Qed.

Lemma forEach_download_count env id url attachments w w' :
  forEach attachments (downloadAttachment env id) w = Done (tt, w') →
  httpCount url (trace w') =
  httpCount url (trace w) +
  List.length (filter (λ a, attachmentURL a = Some url) attachments).
Proof.
  revert w. induction attachments as [|a attachments IH]; intros w; simpl.
  - intros [= <-]. lia.
  - intros ([] & w1 & H1 & H2)%bind_inv.
    apply (downloadAttachment_count _ _ url) in H1. apply IH in H2.
    rewrite H2, H1. case_decide.
    + rewrite filter_cons_True by done. simpl. lia.
    + rewrite filter_cons_False by done. lia.
Qed.

Lemma downloadAttachments_count env id url content w w' :
  downloadAttachments env id content w = Done (tt, w') →
  httpCount url (trace w') =
  httpCount url (trace w) +
  (if usable env id w then requested url content else 0).
Proof.
  unfold downloadAttachments, usable. fold (articleDir id).
  unfold mbind at 1, M_bind, emit, getWorld. simpl.
  unfold mbind at 1, M_bind. simpl.
  change (statIsNotExist env (articleDir id) (logged (EvStat (articleDir id)) w))
    with (statIsNotExist env (articleDir id) w).
  destruct (statIsNotExist env (articleDir id) w); simpl.
  - unfold mbind at 2, M_bind, emit. simpl.
    destruct (mkdirAllFails env (articleDir id)); simpl.
    + intros [= <-]. simpl. rewrite !httpCount_app. unfold httpCount. simpl.
      rewrite ?filter_cons_False by done. simpl. lia.
    + unfold mbind, M_bind, addDir. simpl.
      intros H%(forEach_download_count _ _ url). rewrite H. simpl.
      rewrite !httpCount_app. unfold httpCount at 2 3. simpl.
      rewrite ?filter_cons_False by done. simpl. unfold requested. lia.
  - unfold mbind, M_bind. simpl.
    intros H%(forEach_download_count _ _ url). rewrite H. simpl.
    rewrite !httpCount_app. unfold httpCount at 2. simpl.
    rewrite ?filter_cons_False by done. simpl. unfold requested. lia.
Qed.

Lemma loadArticle_count env url v w c w' :
  loadArticle env v w = Done (c, w') →
  httpCount url (trace w') = httpCount url (trace w) + wanted env url v w.
Proof.
  unfold loadArticle, wanted.
  destruct (LatestArticleContent v) as [latest|]; [|done].
  intros ([] & w0 & [= <-] & H)%bind_inv. revert H.
  destruct (emvi.GetArticle _ _ _) as [content|e].
  - intros ([] & w1 & H1 & H2)%bind_inv.
    apply (downloadAttachments_count _ _ url) in H1.
    apply bind_inv in H2 as ([] & w2 & [= <-] & [= _ <-]).
    rewrite httpCount_logged, H1, httpCount_logged.
    change (usable env (Id v) (logged _ w)) with (usable env (Id v) w).
    repeat case_decide; try done; lia.
  - intros ([] & w1 & [= <-] & [= _ <-])%bind_inv.
    rewrite !httpCount_logged. repeat case_decide; try done; lia.
Qed.

Lemma Extends_Grows P w w' : Extends P w w' → Grows w w'.
Proof. by intros (? & ? & _). Qed.

Lemma Grows_refl w : Grows w w.
Proof. by split. Qed.

Lemma Grows_trans w1 w2 w3 : Grows w1 w2 → Grows w2 w3 → Grows w1 w3.
Proof. intros [? ?] [? ?]. split; set_solver. Qed.

Lemma Grows_logged e w : Grows w (logged e w).
Proof. by split. Qed.

Lemma usable_Grows env id w w' :
  Grows w w' → usable env id w = true → usable env id w' = true.
Proof.
  intros [Hd Hf]. unfold usable, statIsNotExist, notExist.
  destruct (mkdirAllFails env _); simpl; [|by rewrite !orb_true_r].
  destruct (statFails env _); simpl; [done|].
  rewrite !orb_false_r, !negb_true_iff, !bool_decide_eq_false.
  intros Hw [Hdir Hfile]. apply Hw. split; [set_solver|].
  apply not_elem_of_dom. apply not_elem_of_dom in Hfile. set_solver.
Qed.

Lemma wanted_Grows env url v w w' :
  Grows w w' → wanted env url v w ≤ wanted env url v w'.
Proof.
  intros Hg. unfold wanted.
  destruct (LatestArticleContent v); [|done].
  destruct (emvi.GetArticle _ _ _); [|done].
  destruct (usable env (Id v) w) eqn:Hu; [|lia].
  by rewrite (usable_Grows _ _ _ _ Hg Hu).
Qed.

Lemma wantedAll_cons env url kv entries w :
  wantedAll env url (kv :: entries) w =
  wanted env url kv.2 w + wantedAll env url entries w.
Proof. reflexivity. Qed.

Lemma wantedAll_Grows env url entries w w' :
  Grows w w' → wantedAll env url entries w ≤ wantedAll env url entries w'.
Proof.
  intros Hg. induction entries as [|kv entries IH]; [done|].
  rewrite !wantedAll_cons.
  pose proof (wanted_Grows env url kv.2 w w' Hg). lia.
Qed.

Lemma wantedAll_perm env url entries1 entries2 w :
  entries1 ≡ₚ entries2 →
  wantedAll env url entries1 w = wantedAll env url entries2 w.
Proof. intros Hp. unfold wantedAll. by rewrite Hp. Qed.

Lemma wanted_sameOutside env env2 url v w :
  sameOutside env env2 → wanted env2 url v w = wanted env url v w.
Proof.
  intros (Hc & _ & Hs & Hm & _). unfold wanted, usable, statIsNotExist.
  by rewrite Hc, Hs, Hm.
Qed.

Lemma wantedAll_sameOutside env env2 url entries w :
  sameOutside env env2 →
  wantedAll env2 url entries w = wantedAll env url entries w.
Proof.
  intros Hs. unfold wantedAll. f_equal. apply list_fmap_ext.
  intros _ kv _. by apply wanted_sameOutside.
Qed.

(** The requests of the content loop: at least what is wanted in the
    world it starts in, at most what is wanted in the world it leaves. *)
Lemma loadAll_count env url entries arts w arts' w' :
  loadAll env entries arts w = Done (arts', w') →
  httpCount url (trace w) + wantedAll env url entries w ≤
    httpCount url (trace w') ∧
  httpCount url (trace w') ≤
    httpCount url (trace w) + wantedAll env url entries w'.
Proof.
  revert arts w. induction entries as [|[k v] entries IH]; intros arts w.
  - intros [= _ <-]. unfold wantedAll. simpl. lia.
  - simpl. intros (c & w1 & H1 & H2)%bind_inv.
    pose proof (Extends_Grows _ _ _ (Emits_loadArticle _ _ _ _ _ H1)) as Hg1.
    pose proof (Extends_Grows _ _ _ (Emits_loadAll _ _ _ _ _ _ H2)) as Hg2.
    apply (loadArticle_count _ url) in H1. apply IH in H2 as [Hlo Hhi].
    rewrite !wantedAll_cons. simpl.
    pose proof (wanted_Grows env url v w w1 Hg1).
    pose proof (wanted_Grows env url v w1 w' Hg2).
    pose proof (wantedAll_Grows env url entries w w1 Hg1). lia.
Qed.

Lemma findAll_count fuel c off arts url w r w' :
  findAll fuel c off arts w = Done (r, w') →
  httpCount url (trace w') = httpCount url (trace w) ∧ Grows w w'.
Proof.
  revert off arts w. induction fuel as [|fuel IH]; intros off arts w; [done|].
  simpl. intros ([] & w0 & [= <-] & H)%bind_inv. revert H.
  destruct (FindArticles c off) as [results|e].
  - destruct (0 <? List.length results)%nat.
    + intros [Hc Hg]%IH. rewrite Hc, httpCount_logged.
      case_decide; [done|]. split; [lia|].
      eapply Grows_trans; [apply Grows_logged|done].
    + intros [= _ <-]. rewrite httpCount_logged.
      case_decide; [done|]. split; [lia|apply Grows_logged].
  - intros ([] & w1 & [= <-] & [= _ <-])%bind_inv.
    rewrite !httpCount_logged. repeat case_decide; try done.
    split; [lia|]. eapply Grows_trans; apply Grows_logged.
Qed.

(** The requests of one attempt. *)
Lemma loadArticles_requests fuel env arts err b w :
  Completes fuel env arts err →
  ∃ w' wa wa',
    loadArticles fuel env b w = Done (refreshed env arts err b, w') ∧
    Grows w wa ∧ Grows wa wa' ∧ Grows wa' w' ∧
    ∀ url,
      match err with
      | None =>
          httpCount url (trace w) +
            wantedAll env url (range (rangeLoad env) arts) wa ≤
            httpCount url (trace w') ∧
          httpCount url (trace w') ≤
            httpCount url (trace w) +
            wantedAll env url (range (rangeLoad env) arts) wa'
      | Some _ => httpCount url (trace w') = httpCount url (trace w)
      end.
Proof.
  intros Hc.
  destruct (loadArticles_Completes fuel env arts err b w Hc) as (w' & H & _).
  exists w'. pose proof H as H'. rewrite loadArticles_eq in H'.
  destruct (findAll _ _ _ _ _) as [[[arts0 err0] wa]| |] eqn:Hf; [|done..].
  assert (arts0 = arts ∧ err0 = err) as [-> ->].
  { apply findAll_Listing in Hf as (n0 & _ & HL0).
    destruct Hc as [(n & _ & HL) _].
    destruct (Listing_det _ _ _ _ _ _ _ HL0 HL) as [_ [= -> ->]]. done. }
  assert (∀ url, httpCount url (trace wa) = httpCount url (trace w)) as Hca.
  { intros url. destruct (findAll_count _ _ _ _ url _ _ _ Hf) as [-> _].
    rewrite httpCount_logged. case_decide; [done|lia]. }
  assert (Grows w wa) as Hga.
  { destruct (findAll_count _ _ _ _ EmptyString _ _ _ Hf) as [_ Hg].
    eapply Grows_trans; [apply Grows_logged|done]. }
  destruct err as [e|].
  - assert (w' = logged refreshDone wa) as -> by congruence.
    exists wa, wa. split; [done|].
    split_and!; [done|apply Grows_refl|apply Grows_logged|].
    intros url. rewrite httpCount_logged, Hca. case_decide; [done|lia].
  - destruct (loadAll _ _ _ _) as [[arts' wa']| |] eqn:Hl; [|done..].
    assert (w' = logged refreshDone wa') as -> by congruence.
    exists wa, wa'. split; [done|].
    split_and!; [done| |apply Grows_logged|].
    { eapply Extends_Grows, Emits_loadAll, Hl. }
    intros url. rewrite httpCount_logged.
    destruct (loadAll_count _ url _ _ _ _ _ Hl) as [Hlo Hhi].
    rewrite Hca in Hlo, Hhi. case_decide; [done|lia].
Qed.

Lemma ingested_sameOutside env env2 v :
  sameOutside env env2 → ingested env2 v = ingested env v.
Proof.
  intros (Hc & _ & _ & _ & _ & Hu). unfold ingested. f_equal.
  destruct (LatestArticleContent v); [|done].
  simpl. unfold fetched, rewriteContent, rewriteAttachments, rewriteLinks.
  by rewrite Hc, Hu.
Qed.

Lemma Completes_sameOutside fuel env env2 arts err :
  sameOutside env env2 → Completes fuel env arts err →
  Completes fuel env2 arts err.
Proof. intros (Hc & _). unfold Completes. by rewrite Hc. Qed.

Lemma sameBuckets_refl years : sameBuckets years years.
Proof. intros y. by destruct (years !! y). Qed.

Lemma sameBuckets_YearsMatch b1 b2 :
  articles b1 = articles b2 → YearsMatch b1 → YearsMatch b2 →
  sameBuckets (articlesYear b1) (articlesYear b2).
Proof.
  intros Ha H1 H2 y. specialize (H1 y). specialize (H2 y). rewrite Ha in H1.
  destruct (articlesYear b1 !! y) as [l1|], (articlesYear b2 !! y) as [l2|].
  - destruct H1 as [_ ->], H2 as [_ ->]. done.
  - destruct H1 as [Hne Hp]. rewrite H2 in Hp.
    symmetry in Hp. by apply Permutation_nil in Hp.
  - destruct H2 as [Hne Hp]. rewrite H1 in Hp.
    symmetry in Hp. by apply Permutation_nil in Hp.
  - done.
Qed.

(** C5, as the code has it: a second refresh against the same remote
    and disk returns, leaves the id-index of the first and year buckets
    with the same articles (in an order of its own), and asks again for
    every attachment the first one asked for; it does not look whether
    the file is there. *)
Theorem second_refresh_repeats_first fuel env env2 arts err b w :
  Completes fuel env arts err →
  sameOutside env env2 →
  ∃ b1 w1 b2 w2,
    loadArticles fuel env b w = Done (b1, w1) ∧
    loadArticles fuel env2 b1 w1 = Done (b2, w2) ∧
    articles b2 = articles b1 ∧
    sameBuckets (articlesYear b1) (articlesYear b2) ∧
    ∀ url,
      httpCount url (trace w1) - httpCount url (trace w) ≤
      httpCount url (trace w2) - httpCount url (trace w1).
Proof.
  intros Hc Hs.
  destruct (loadArticles_requests fuel env arts err b w Hc)
    as (w1 & wa & wa' & H1 & Hg1 & Hg2 & Hg3 & Hcount1).
  pose proof (Completes_sameOutside _ _ _ _ _ Hs Hc) as Hc2.
  destruct (loadArticles_requests fuel env2 arts err
              (refreshed env arts err b) w1 Hc2)
    as (w2 & wb & wb' & H2 & Hg4 & Hg5 & Hg6 & Hcount2).
  exists (refreshed env arts err b), w1,
    (refreshed env2 arts err (refreshed env arts err b)), w2.
  split; [done|]. split; [done|].
  destruct err as [e|].
  - split; [done|]. split; [apply sameBuckets_refl|].
    intros url. rewrite (Hcount1 url), (Hcount2 url). lia.
  - assert (ingested env2 <$> arts = ingested env <$> arts) as Hsame.
    { apply map_fmap_ext. intros k v _. by apply ingested_sameOutside. }
    split; [done|]. split.
    + apply sameBuckets_YearsMatch; [by symmetry| |].
      * apply (YearsMatch_setArticles env (ingested env <$> arts) b).
      * apply (YearsMatch_setArticles env2 (ingested env2 <$> arts)
                 (refreshed env arts None b)).
    + intros url. destruct (Hcount1 url) as [_ Hhi].
      destruct (Hcount2 url) as [Hlo _].
      rewrite (wantedAll_sameOutside env env2) in Hlo by done.
      rewrite (wantedAll_perm env url (range (rangeLoad env2) arts)
                 (range (rangeLoad env) arts)) in Hlo.
      2:{ by rewrite !range_perm. }
      pose proof (wantedAll_Grows env url (range (rangeLoad env) arts) wa' wb
                    (Grows_trans _ _ _ Hg3 Hg4)).
      lia.
Qed.

Lemma second_refresh_repeats_first_witness :
  ∃ b1 w1 b2 w2,
    loadArticles 2 (fixtures.env fixtures.remote 0 1 fixtures.listOrder)
      (fixtures.emptyBlog 0) fixtures.emptyWorld = Done (b1, w1) ∧
    loadArticles 2 (fixtures.env fixtures.remote 7200 7201 fixtures.reverseOrder)
      b1 w1 = Done (b2, w2) ∧
    articles b2 = articles b1 ∧
    sameBuckets (articlesYear b1) (articlesYear b2) ∧
    ∀ url,
      httpCount url (trace w1) - httpCount url (trace fixtures.emptyWorld) ≤
      httpCount url (trace w2) - httpCount url (trace w1).
Proof.
  apply (second_refresh_repeats_first 2
           (fixtures.env fixtures.remote 0 1 fixtures.listOrder)
           (fixtures.env fixtures.remote 7200 7201 fixtures.reverseOrder)
           fixtures.listedArticles None).
  - apply remote_Completes.
  - repeat split; reflexivity.
Defined.

(** C5, as the claim has it, fails: the first refresh has put the image
    of article a on the disk, and the second refresh asks for it again. *)
Lemma second_refresh_downloads_again :
  ∃ b1 w1 b2 w2,
    loadArticles 2 (fixtures.env fixtures.remote 0 1 fixtures.listOrder)
      (fixtures.emptyBlog 0) fixtures.emptyWorld = Done (b1, w1) ∧
    files w1 !! "static/blog/a/f.png" = Some "png" ∧
    loadArticles 2 (fixtures.env fixtures.remote 0 1 fixtures.listOrder)
      b1 w1 = Done (b2, w2) ∧
    httpCount "https://emvi.com/api/v1/content/f.png" (trace w1) = 2 ∧
    httpCount "https://emvi.com/api/v1/content/f.png" (trace w2) = 4.
Proof.
  do 4 eexists. split; [vm_compute; reflexivity|].
  split; [vm_compute; reflexivity|].
  split; [vm_compute; reflexivity|].
  split; vm_compute; reflexivity.
Qed.

(** ** The paging loop *)

Lemma findAll_endless c :
  (∀ off, ∃ results, FindArticles c off = Ok results ∧ results ≠ []) →
  ∀ fuel off arts w, findAll fuel c off arts w = Diverges.
Proof.
  intros Hc fuel. induction fuel as [|fuel IH]; intros off arts w; [done|].
  destruct (Hc off) as (results & Hr & Hne).
  cbn [findAll]. unfold mbind, M_bind. cbn [emit]. rewrite Hr.
  destruct results as [|r results]; [done|]. cbn [List.length Nat.ltb Nat.leb].
  apply IH.
Qed.

(** X1 ([loadArticles]): the paging loop has no bound of its own.  With
    a remote that answers every offset with a page that is not empty, a
    refresh does not return, however many pages are followed. *)
Theorem endless_listing_never_returns env :
  (∀ off, ∃ results,
     FindArticles (client env) off = Ok results ∧ results ≠ []) →
  ∀ fuel b w, loadArticles fuel env b w = Diverges.
Proof.
  intros Hc fuel b w. rewrite loadArticles_eq.
  by rewrite (findAll_endless _ Hc).
Qed.

Lemma endless_listing_never_returns_witness :
  loadArticles 5 (fixtures.env endlessRemote 0 1 fixtures.listOrder)
    (fixtures.emptyBlog 0) fixtures.emptyWorld = Diverges.
Proof.
  apply (endless_listing_never_returns
           (fixtures.env endlessRemote 0 1 fixtures.listOrder)).
  intros off. by exists [fixtures.listed "a" 0].
Defined.

Lemma addAll_lookup arts results id :
  addAll arts results !! id =
  match last (filter (λ a, Id a = id) results) with
  | Some a => Some a
  | None => arts !! id
  end.
Proof.
  revert arts. induction results as [|a l IH]; intros arts; [done|].
  cbn [addAll foldl]. fold (addAll (<[Id a:=a]> arts) l). rewrite IH.
  rewrite filter_cons. destruct (decide (Id a = id)) as [<-|Hne].
  - destruct (filter _ l) as [|x f] eqn:E; simpl.
    + by rewrite lookup_insert_eq.
    + destruct (last (x :: f)) eqn:El; [done|].
      by apply last_None in El.
  - destruct (last (filter _ l)); [done|]. by rewrite lookup_insert_ne.
Qed.

Lemma addAll_app arts l1 l2 :
  addAll arts (l1 ++ l2) = addAll (addAll arts l1) l2.
Proof. unfold addAll. by rewrite foldl_app. Qed.

Lemma Listing_listedUpTo c off arts n r :
  Listing c off arts n r → r.1 = addAll arts (listedUpTo c off n).
Proof.
  induction 1 as [off arts e He|off arts He|off arts results n r He Hne _ IH];
    cbn [listedUpTo]; rewrite He; [done|done|].
  by rewrite addAll_app.
Qed.

(** X2 (the paging loop of [loadArticles]): the loop stores every listed
    article under its id, so of several listed articles with one id, on
    one page or on several, the one listed last is kept, and an id that
    was not listed is not in the result. *)
Theorem last_listed_article_is_kept fuel c n arts err w :
  Listing c 0 ∅ n (arts, err) → n ≤ fuel →
  ∃ w', findAll fuel c 0 ∅ w = Done ((arts, err), w') ∧
        ∀ id, arts !! id =
              last (filter (λ a, Id a = id) (listedUpTo c 0 n)).
Proof.
  intros HL Hn. destruct (Listing_findAll _ _ _ _ _ fuel w HL Hn) as [w' Hw].
  exists w'. split; [done|]. intros id.
  apply Listing_listedUpTo in HL. cbn [fst] in HL. rewrite HL, addAll_lookup.
  by destruct (last _).
Qed.

Lemma last_listed_article_is_kept_witness :
  ∃ w', findAll 3 duplicateRemote 0 ∅ fixtures.emptyWorld =
          Done ((addAll ∅ [fixtures.listed "a" 1; fixtures.listed "a" 2], None), w') ∧
        ∀ id, addAll ∅ [fixtures.listed "a" 1; fixtures.listed "a" 2] !! id =
              last (filter (λ a, Id a = id) (listedUpTo duplicateRemote 0 3)).
Proof.
  apply (last_listed_article_is_kept 3 duplicateRemote 3); [|lia].
  eapply (Listing_page _ 0 ∅ [fixtures.listed "a" 1]); [done|done|].
  eapply (Listing_page _ 1 _ [fixtures.listed "a" 2]); [done|done|].
  by apply Listing_ends.
Defined.

Lemma findAll_events fuel c off arts w r w' :
  findAll fuel c off arts w = Done (r, w') →
  dirs w' = dirs w ∧ files w' = files w ∧
  ∃ evs, trace w' = trace w ++ evs ∧ Forall listingEvent evs.
Proof.
  revert off arts w. induction fuel as [|fuel IH]; intros off arts w; [done|].
  cbn [findAll]. unfold mbind, M_bind. cbn [emit].
  destruct (FindArticles c off) as [results|e].
  - destruct (0 <? List.length results)%nat.
    + intros (Hd & Hf & evs & Ht & Hall)%IH. cbn in Hd, Hf, Ht.
      split; [done|]. split; [done|].
      exists (EvFindArticles off :: evs). rewrite Ht, <- app_assoc.
      split; [done|]. by constructor.
    + intros [= <- <-]. cbn. split; [done|]. split; [done|].
      exists [EvFindArticles off]. split; [done|]. by repeat constructor.
  - intros [= <- <-]. cbn. split; [done|]. split; [done|].
    exists [EvFindArticles off; EvLog LError "Error loading blog articles"].
    rewrite <- app_assoc. split; [done|]. by repeat constructor.
Qed.

(** X3 ([loadArticles]): a refresh whose listing fails asks for no
    article content, downloads nothing and leaves the disk as it was:
    all it does is list and log. *)
Theorem failed_listing_touches_nothing fuel env n arts e b w :
  Listing (client env) 0 ∅ n (arts, Some e) → n ≤ fuel →
  ∃ b' w', loadArticles fuel env b w = Done (b', w') ∧
           dirs w' = dirs w ∧ files w' = files w ∧
           ∃ evs, trace w' = trace w ++ evs ∧ Forall listingEvent evs.
Proof.
  intros HL Hn.
  destruct (Listing_findAll _ _ _ _ _ fuel (logged refreshStarted w) HL Hn)
    as [w1 Hw1].
  exists (withNextUpdate b (deadlineAfter env)), (logged refreshDone w1).
  rewrite loadArticles_eq, Hw1. split; [done|].
  apply findAll_events in Hw1 as (Hd & Hf & evs & Ht & Hall).
  cbn in *. split; [done|]. split; [done|].
  exists (refreshStarted :: evs ++ [refreshDone]).
  rewrite Ht, <- !app_assoc. split; [done|].
  constructor; [done|]. apply Forall_app. split; [done|]. by repeat constructor.
Qed.

Lemma failed_listing_touches_nothing_witness :
  ∃ b' w',
    loadArticles 2 (fixtures.env fixtures.brokenRemote 0 1 fixtures.listOrder)
      (fixtures.emptyBlog 0) fixtures.emptyWorld = Done (b', w') ∧
    dirs w' = dirs fixtures.emptyWorld ∧ files w' = files fixtures.emptyWorld ∧
    ∃ evs, trace w' = trace fixtures.emptyWorld ++ evs ∧ Forall listingEvent evs.
Proof.
  destruct (brokenRemote_Completes 0 1 fixtures.listOrder) as [(n & Hn & HL) _].
  exact (failed_listing_touches_nothing 2 _ n _ _ _ _ HL Hn).
Defined.

Lemma range_empty (order : RangeOrder) : range order ∅ = [].
Proof.
  apply Permutation_nil_r. rewrite range_perm. by rewrite map_to_list_empty.
Qed.

(** X4 ([loadArticles], [setArticles]): a listing that succeeds with no
    article at all empties the cache.  Unlike a failed listing, it does
    not keep the articles served so far. *)
Theorem empty_listing_empties_the_cache fuel env b w :
  FindArticles (client env) 0 = Ok [] → 0 < fuel →
  ∃ w', loadArticles fuel env b w =
        Done ({| articles := ∅; articlesYear := ∅;
                 nextUpdate := time.Add (nowDone env) time.Hour |}, w').
Proof.
  intros He Hfuel.
  assert (Completes fuel env ∅ None) as Hc.
  { split; [|by intros _ k v ?].
    exists 1. split; [lia|]. by apply Listing_ends. }
  destruct (loadArticles_Completes fuel env ∅ None b w Hc) as (w' & Hw & _).
  exists w'. rewrite Hw. do 2 f_equal.
  unfold refreshed, withNextUpdate, setArticles. cbn.
  by rewrite fmap_empty, range_empty.
Qed.

Lemma empty_listing_empties_the_cache_witness :
  ∃ w', loadArticles 1
          (fixtures.env {| emvi.FindArticles := λ _, Ok [];
                           emvi.GetArticle := λ _ _, Err "unavailable" |}
             0 1 fixtures.listOrder)
          (fixtures.fourArticles 0) fixtures.emptyWorld =
        Done ({| articles := ∅; articlesYear := ∅;
                 nextUpdate := time.Add (fixtures.at_ 1) time.Hour |}, w').
Proof.
  apply (empty_listing_empties_the_cache 1
           (fixtures.env {| emvi.FindArticles := λ _, Ok [];
                            emvi.GetArticle := λ _ _, Err "unavailable" |}
              0 1 fixtures.listOrder)); [reflexivity|lia].
Defined.

(** X5 ([NewBlog]): when the listing fails while the blog is built, the
    blog starts empty with its deadline one hour after the attempt, and
    until then every article is answered with the zero article, without
    another attempt. *)
Theorem blog_starts_empty_when_listing_fails fuel env n arts e w :
  Listing (client env) 0 ∅ n (arts, Some e) → n ≤ fuel →
  ∃ b w',
    NewBlog fuel env w = Done (b, w') ∧
    b = {| articles := ∅; articlesYear := ∅;
           nextUpdate := time.Add (nowDone env) time.Hour |} ∧
    ∀ fuel2 env2 id,
      (time.instant (now env2) ≤ time.instant (nowDone env) + time.Hour)%Z →
      GetArticle fuel2 env2 id b w' = Done ((zeroArticle, b), w').
Proof.
  intros HL Hn.
  assert (Completes fuel env arts (Some e)) as Hc.
  { split; [by exists n|done]. }
  destruct (NewBlog_Completes fuel env arts (Some e) w Hc) as [w' Hw].
  eexists _, w'. split; [done|]. split; [done|].
  intros fuel2 env2 id Hnow.
  destruct (reads_not_due fuel2 env2
              (refreshed env arts (Some e) (newBlog env)) w') as (Hget & _).
  { done. }
  by rewrite Hget.
Qed.

Lemma blog_starts_empty_when_listing_fails_witness :
  ∃ b w',
    NewBlog 2 (fixtures.env fixtures.brokenRemote 0 5 fixtures.listOrder)
      fixtures.emptyWorld = Done (b, w') ∧
    b = {| articles := ∅; articlesYear := ∅;
           nextUpdate := fixtures.at_ 3605 |}.
Proof.
  destruct (brokenRemote_Completes 0 5 fixtures.listOrder) as [(n & Hn & HL) _].
  destruct (blog_starts_empty_when_listing_fails 2 _ n _ _ fixtures.emptyWorld
              HL Hn) as (b & w' & Hw & Hb & _).
  by exists b, w'.
Defined.

(** ** The latest articles *)

Lemma latestLoop_take values i acc :
  i ≤ maxLatestArticles →
  latestLoop values i acc = acc ++ firstn (S maxLatestArticles - i) values.
Proof.
  revert i acc. induction values as [|v values IH]; intros i acc Hi;
    cbn [latestLoop].
  - by rewrite take_nil, app_nil_r.
  - replace (S maxLatestArticles - i) with (S (maxLatestArticles - i)) by lia.
    cbn [firstn]. destruct (maxLatestArticles <? S i)%nat eqn:Hlt.
    + apply Nat.ltb_lt in Hlt.
      replace (maxLatestArticles - i) with 0 by lia. by rewrite take_0.
    + apply Nat.ltb_ge in Hlt. rewrite IH by done.
      rewrite <- app_assoc. do 2 f_equal.
Qed.

Lemma latestOf_take env b :
  latestOf env b =
  firstn (S maxLatestArticles) (range (rangeLatest env) (articles b)).*2.
Proof.
  unfold latestOf. rewrite latestLoop_take by lia. by rewrite Nat.sub_0_r.
Qed.

(** X6 ([GetLatestArticles]): what is returned is the first four
    articles in the order the range over the map takes, whatever their
    dates; with at most four articles in the cache these are all of them,
    each once. *)
Theorem latest_articles_are_a_prefix fuel env b w :
  (time.instant (now env) ≤ time.instant (nextUpdate b))%Z →
  ∃ latest,
    GetLatestArticles fuel env b w = Done ((latest, b), w) ∧
    latest = firstn 4 (range (rangeLatest env) (articles b)).*2 ∧
    (size (articles b) ≤ 4 → latest ≡ₚ (map_to_list (articles b)).*2).
Proof.
  intros Hnow. destruct (reads_not_due fuel env b w Hnow) as (_ & _ & Hlatest).
  exists (latestOf env b). split; [done|]. rewrite latestOf_take.
  split; [done|]. intros Hsize.
  rewrite take_ge by (rewrite range_length; unfold maxLatestArticles; lia).
  by rewrite (range_perm (rangeLatest env)).
Qed.

Lemma latest_articles_are_a_prefix_witness :
  ∃ latest,
    GetLatestArticles 1 (fixtures.env fixtures.remote 0 0 fixtures.reverseOrder)
      (fixtures.fourArticles 3600) fixtures.emptyWorld =
    Done ((latest, fixtures.fourArticles 3600), fixtures.emptyWorld) ∧
    latest ≡ₚ (map_to_list (articles (fixtures.fourArticles 3600))).*2.
Proof.
  destruct (latest_articles_are_a_prefix 1
              (fixtures.env fixtures.remote 0 0 fixtures.reverseOrder)
              (fixtures.fourArticles 3600) fixtures.emptyWorld)
    as (latest & Hget & _ & Hall).
  { vm_compute. discriminate. }
  exists latest. split; [done|]. apply Hall. by vm_compute.
Defined.

Lemma filter_key_length {V} (l : list (string * V)) id :
  NoDup l.*1 → List.length (filter (λ kv, kv.1 = id) l) ≤ 1.
Proof.
  induction l as [|[k v] l IH]; intros Hnd; [simpl; lia|].
  apply NoDup_cons in Hnd as [Hk Hnd]. rewrite filter_cons. cbn [fst].
  destruct (decide (k = id)) as [->|Hne]; [|by apply IH].
  cbn [List.length].
  destruct (filter (λ kv, kv.1 = id) l) as [|[k' v'] f] eqn:E; [simpl; lia|].
  assert ((k', v') ∈ filter (λ kv : string * V, kv.1 = id) l) as Hin
      by (rewrite E; left).
  apply list_elem_of_filter in Hin as [Hk' Hin]. cbn in Hk'. subst k'.
  destruct Hk. apply list_elem_of_fmap. by exists (id, v').
Qed.

(** X7 ([serveAbout], [GetLatestArticles]): which articles the about
    page shows is left to the order of the range over the map.  For every
    article of a cache with more than four articles there is an order
    with which the page is rendered without it, be it the newest. *)
Theorem about_page_may_omit_any_article fuel env b w id a :
  KeysAreIds (articles b) →
  4 < size (articles b) →
  articles b !! id = Some a →
  rangeLatest env = lastOrder id →
  (time.instant (now env) ≤ time.instant (nextUpdate b))%Z →
  ∃ latest,
    main.serveAbout fuel env b w =
      Done (({| main.hit := true;
                main.reply := main.Render "about.html" (main.AboutData latest) |},
             b), w) ∧
    List.length latest = 4 ∧ a ∉ latest.
Proof.
  intros Hkeys Hsize Ha Horder Hnow.
  destruct (reads_not_due fuel env b w Hnow) as (_ & _ & Hlatest).
  exists (latestOf env b). split.
  { unfold main.serveAbout. by rewrite (bind_Done _ _ _ _ _ Hlatest). }
  split.
  { rewrite latestOf_length. unfold maxLatestArticles. lia. }
  rewrite latestOf_take, Horder. cbn [range lastOrder]. rewrite fmap_app.
  set (l := map_to_list (articles b)).
  assert (List.length (filter (λ kv : string * Article, kv.1 = id) l) ≤ 1) as H1.
  { apply filter_key_length, NoDup_fst_map_to_list. }
  assert (List.length (filter (λ kv : string * Article, kv.1 ≠ id) l) +
          List.length (filter (λ kv : string * Article, kv.1 = id) l) =
          size (articles b)) as H2.
  { rewrite <- length_app, <- (length_map_to_list (articles b)).
    apply Permutation_length, (range_perm (lastOrder id)). }
  rewrite take_app_le by (rewrite length_fmap; unfold maxLatestArticles; lia).
  intros Hin. apply elem_of_take in Hin as (i & Hin & _).
  apply list_elem_of_lookup_2 in Hin.
  apply list_elem_of_fmap in Hin as ([k v] & -> & Hin).
  apply list_elem_of_filter in Hin as [Hk Hin]. cbn in *.
  apply elem_of_map_to_list in Hin.
  apply Hkeys in Hin. apply Hkeys in Ha. congruence.
Qed.

Lemma about_page_may_omit_any_article_witness :
  ∃ latest,
    main.serveAbout 1
      (fixtures.env fixtures.remote 0 0 (lastOrder "e"))
      (fiveArticles 3600) fixtures.emptyWorld =
      Done (({| main.hit := true;
                main.reply := main.Render "about.html" (main.AboutData latest) |},
             fiveArticles 3600), fixtures.emptyWorld) ∧
    List.length latest = 4 ∧ fixtures.listed "e" 1700000000 ∉ latest.
Proof.
  apply (about_page_may_omit_any_article 1 _ (fiveArticles 3600) _ "e").
  - apply KeysAreIds_addAll. by intros id a.
  - by vm_compute.
  - by vm_compute.
  - reflexivity.
  - vm_compute. discriminate.
Defined.

(** ** The disk and the web server *)

(** X8 ([loadArticles], [loadArticle], [downloadAttachments]): what a
    refresh stores in the blog does not depend on the web server of the
    attachments or on the disk.  A download that fails, a directory that
    cannot be examined or made, or a file that cannot be written changes
    nothing in the articles served. *)
Theorem downloads_do_not_change_the_blog fuel env arts err get statErrs
    mkdirFails writeFails b w w2 :
  Completes fuel env arts err →
  ∃ b' w' w2',
    loadArticles fuel env b w = Done (b', w') ∧
    loadArticles fuel (withDisk env get statErrs mkdirFails writeFails) b w2 =
      Done (b', w2').
Proof.
  intros Hc.
  destruct (loadArticles_Completes fuel env arts err b w Hc) as (w' & Hw & _).
  destruct (loadArticles_Completes fuel
              (withDisk env get statErrs mkdirFails writeFails)
              arts err b w2 Hc) as (w2' & Hw2 & _).
  by exists (refreshed env arts err b), w', w2'.
Qed.

Lemma downloads_do_not_change_the_blog_witness :
  ∃ b' w' w2',
    loadArticles 2 (fixtures.env fixtures.remote 0 1 fixtures.listOrder)
      (fixtures.emptyBlog 0) fixtures.emptyWorld = Done (b', w') ∧
    loadArticles 2
      (withDisk (fixtures.env fixtures.remote 0 1 fixtures.listOrder)
         (λ _, GetFails) (λ _, true) (λ _, true) (λ _, true))
      (fixtures.emptyBlog 0) fixtures.emptyWorld = Done (b', w2').
Proof.
  apply (downloads_do_not_change_the_blog 2
           (fixtures.env fixtures.remote 0 1 fixtures.listOrder)
           fixtures.listedArticles None).
  apply remote_Completes.
Defined.







(** ** The pattern of the downloads *)

Lemma match_here_attachmentURL s :
  match_here attachmentURLRegex s =
  match
    (s1 ← strip_lit true "href" s; s2 ← strip_lit true eqQuote s1;
     rmatch iU attachmentURLTail s2 [(1%N, consumed s s1)]
       (λ s' caps, Some ((0%N, consumed s s') :: caps, s')))
  with
  | Some r => Some r
  | None =>
      s1 ← strip_lit true "src" s; s2 ← strip_lit true eqQuote s1;
      rmatch iU attachmentURLTail s2 [(1%N, consumed s s1)]
        (λ s' caps, Some ((0%N, consumed s s') :: caps, s'))
  end.
Proof.
  unfold match_here, attachmentURLRegex. cbn [expr flags]. fold iU.
  rewrite rmatch_Cap, rmatch_Cat, rmatch_Cap, rmatch_Alt, !rmatch_Lit.
  cbn [foldCase iU]. fold api eqQuote.
  destruct (strip_lit true "href" s) as [s1|]; simpl;
    destruct (strip_lit true "src" s) as [s1'|]; simpl;
    rewrite ?rmatch_Cat, ?rmatch_Lit; cbn [foldCase iU];
    repeat (match goal with
            | |- context [strip_lit true eqQuote ?x] =>
                destruct (strip_lit true eqQuote x); simpl
            end); done.
Qed.

Lemma match_here_attachmentURL_none s :
  opens "href" s = None → opens "src" s = None →
  match_here attachmentURLRegex s = None.
Proof.
  unfold opens. intros H1 H2. rewrite match_here_attachmentURL.
  destruct (strip_lit true "href" s) as [s1|];
    cbn [mbind option_bind] in *; [rewrite H1; cbn [mbind option_bind]|];
    (destruct (strip_lit true "src" s) as [s1'|];
     cbn [mbind option_bind] in *; [by rewrite H2|done]).
Qed.

Lemma attachmentURLTail_ref {R} host xyz rest caps
    (k : string → Caps → option R) r :
  host ≠ EmptyString → free_of dq host = true →
  containsFold apiPath host = false →
  xyz ≠ EmptyString → free_of dq xyz = true →
  k rest ((3%N, xyz) :: (2%N, host +:+ api) :: caps) = Some r →
  rmatch iU attachmentURLTail (host +:+ api +:+ xyz +:+ String dq rest) caps k =
  Some r.
Proof.
  intros Hhost Hqh Hapi Hxyz Hqx Hk. unfold attachmentURLTail.
  rewrite rmatch_Cat, rmatch_Cap, rmatch_Cat, rmatch_Plus_NotChar.
  apply (lazyRun_first_P _ _
           (λ x, free_of dq x = true ∧ containsFold apiPath x = false));
    [done|done| | |].
  - rewrite rmatch_Lit. cbn [foldCase iU]. rewrite strip_lit_app.
    replace (host +:+ api +:+ xyz +:+ String dq rest)
      with ((host +:+ api) +:+ xyz +:+ String dq rest)
      by (by rewrite !app_assoc_s).
    rewrite consumed_app, rmatch_Cat, rmatch_Cap, rmatch_Plus_NotChar.
    apply (lazyRun_first dq); [done|done| |].
    + rewrite rmatch_Lit, strip_dq, Ascii.eqb_refl, consumed_app. done.
    + intros a x' Ha. rewrite rmatch_Lit, strip_dq. cbn [String.append].
      split_free Ha. by rewrite Hc.
  - intros a x' [Hq Hc]. split_free Hq.
    by apply containsFold_cons in Hc as [_ ?].
  - intros a x' [_ [Hc _]%containsFold_cons].
    rewrite rmatch_Lit. cbn [foldCase iU].
    by rewrite api_border.
Qed.

Lemma match_here_download attr host xyz rest :
  attr = "href" ∨ attr = "src" →
  host ≠ EmptyString → free_of dq host = true →
  containsFold apiPath host = false →
  xyz ≠ EmptyString → free_of dq xyz = true →
  match_here attachmentURLRegex (reference attr host xyz +:+ rest) =
  Some ([(0%N, reference attr host xyz); (3%N, xyz); (2%N, host +:+ api);
         (1%N, attr)], rest).
Proof.
  intros Hattr Hhost Hqh Hapi Hxyz Hqx. rewrite match_here_attachmentURL.
  unfold reference. rewrite !app_assoc_s. cbn [String.append].
  assert (∀ s1, s1 = eqQuote +:+ host +:+ api +:+ xyz +:+ String dq rest →
     (s2 ← strip_lit true eqQuote s1;
      rmatch iU attachmentURLTail s2
        [(1%N, consumed (attr +:+ s1) s1)]
        (λ s' caps, Some ((0%N, consumed (attr +:+ s1) s') :: caps, s'))) =
     Some ([(0%N, reference attr host xyz); (3%N, xyz); (2%N, host +:+ api);
            (1%N, attr)], rest)) as Htail.
  { intros s1 ->. rewrite strip_lit_app. cbn [mbind option_bind].
    apply attachmentURLTail_ref; [done..|].
    rewrite consumed_app. do 3 f_equal.
    replace (attr +:+ eqQuote +:+ host +:+ api +:+ xyz +:+ String dq rest)
      with (reference attr host xyz +:+ rest).
    { by rewrite consumed_app. }
    unfold reference. rewrite !app_assoc_s. done. }
  destruct Hattr as [-> | ->].
  - rewrite strip_lit_app. cbn [mbind option_bind]. by rewrite Htail.
  - rewrite strip_href_src. cbn [mbind option_bind].
    rewrite strip_lit_app. cbn [mbind option_bind]. by rewrite Htail.
Qed.

Section find_all.
Context (p : Prog).

Lemma find_all_skip u s :
  find_all_from p (String.length u) (u +:+ s) = find_all_from p 0 s.
Proof.
  induction u as [|c u IH]; [done|].
  cbn [String.length String.append find_all_from]. apply IH.
Qed.

Lemma find_all_match m rest caps :
  m ≠ EmptyString →
  match_here p (m +:+ rest) = Some (caps, rest) →
  find_all_from p 0 (m +:+ rest) =
  submatches p caps :: find_all_from p 0 rest.
Proof.
  intros Hm Hmatch. destruct m as [|c m]; [done|].
  cbn [String.append find_all_from].
  change (String c (m +:+ rest)) with (String c m +:+ rest).
  rewrite Hmatch, match_len_app. cbn [String.length].
  by rewrite find_all_skip.
Qed.

Lemma find_all_copy_P (P : string → Prop) u s :
  P u →
  (∀ a y, P (String a y) → P y) →
  (∀ a y, P (String a y) → match_here p (String a y +:+ s) = None) →
  find_all_from p 0 (u +:+ s) = find_all_from p 0 s.
Proof.
  intros HP Hsuf Hnone. induction u as [|a u IH]; [done|].
  cbn [String.append find_all_from].
  change (String a (u +:+ s)) with (String a u +:+ s).
  rewrite (Hnone a u HP). apply IH. by eapply Hsuf.
Qed.
End find_all.

(** The downloads of a body that starts, after text without quotes,
    with a reference. *)
Lemma downloads_of_reference pre attr host xyz post :
  attr = "href" ∨ attr = "src" →
  free_of dq pre = true →
  host ≠ EmptyString → free_of dq host = true →
  containsFold apiPath host = false →
  xyz ≠ EmptyString → free_of dq xyz = true →
  FindAllStringSubmatch attachmentURLRegex
    (pre +:+ reference attr host xyz +:+ post) =
  [reference attr host xyz; attr; host +:+ api; xyz] ::
  FindAllStringSubmatch attachmentURLRegex post.
Proof.
  intros Hattr Hpre Hhost Hqh Hapi Hxyz Hqx. unfold FindAllStringSubmatch.
  rewrite (find_all_copy_P _ (λ u, free_of dq u = true)); [|done| |].
  - rewrite (find_all_match _ (reference attr host xyz) post
               [(0%N, reference attr host xyz); (3%N, xyz); (2%N, host +:+ api);
                (1%N, attr)]).
    + done.
    + unfold reference. by destruct Hattr as [-> | ->].
    + by apply match_here_download.
  - intros a y. apply free_of_tail.
  - intros a y Hfree. unfold reference, eqQuote. rewrite !app_assoc_s.
    destruct Hattr as [-> | ->];
      apply match_here_attachmentURL_none;
      first [ apply (opens_before _ "href" a y); by auto
            | apply (opens_before _ "src" a y); by auto ].
Qed.

(** ** Markup without quotes *)

Lemma find_all_plain p s :
  (∀ a y, free_of dq (String a y) = true → match_here p (String a y) = None) →
  free_of dq s = true → find_all_from p 0 s = [].
Proof.
  intros Hnone Hq. induction s as [|a s IH]; [done|].
  cbn [find_all_from]. rewrite (Hnone a s Hq).
  apply IH. by eapply free_of_tail.
Qed.

Lemma requested_plain url s : free_of dq s = true → requested url s = 0.
Proof.
  intros Hq. unfold requested, FindAllStringSubmatch.
  rewrite find_all_plain; [done| |done].
  intros a y Hy. apply match_here_attachmentURL_none; apply opens_plain; auto.
Qed.

(** The downloads of markup that does not end within a value are found
    on their own. *)
Lemma downloads_pre pre more after :
  openValue pre = false →
  (∀ t, free_of dq t = true →
        FindAllStringSubmatch attachmentURLRegex (t +:+ more) = after) →
  FindAllStringSubmatch attachmentURLRegex (pre +:+ more) =
  FindAllStringSubmatch attachmentURLRegex pre ++ after.
Proof.
  intros Hopen Hmore. unfold FindAllStringSubmatch in *.
  assert (∀ t, free_of dq t = true → find_all_from attachmentURLRegex 0 t = [])
    as Hplain.
  { intros t Ht. apply find_all_plain; [|done].
    intros a y Hy. apply match_here_attachmentURL_none; apply opens_plain; auto. }
  destruct (last_quote pre Hopen) as [Hfree|(v & t & -> & Hv & Ht)].
  - by rewrite Hmore, Hplain.
  - rewrite (app_assoc_s (v +:+ quote) t more).
    rewrite !find_all_cut by done.
    by rewrite Hmore, (Hplain t), app_nil_r.
Qed.

Lemma downloads_of_reference_after pre attr host xyz post :
  attr = "href" ∨ attr = "src" →
  openValue pre = false →
  host ≠ EmptyString → free_of dq host = true →
  containsFold apiPath host = false →
  xyz ≠ EmptyString → free_of dq xyz = true →
  FindAllStringSubmatch attachmentURLRegex
    (pre +:+ reference attr host xyz +:+ post) =
  FindAllStringSubmatch attachmentURLRegex pre ++
  [reference attr host xyz; attr; host +:+ api; xyz] ::
  FindAllStringSubmatch attachmentURLRegex post.
Proof.
  intros Hattr Hpre Hhost Hqh Hapi Hxyz Hqx.
  apply downloads_pre; [done|]. intros t Ht.
  by apply downloads_of_reference.
Qed.

(** X10 ([loadArticle]): all three patterns need a double quote.  A body
    without one is stored as it is, and nothing is downloaded for it. *)
Theorem plain_body_is_stored_as_it_is env article latest content w :
  LatestArticleContent article = Some latest →
  emvi.GetArticle (client env) (Id article) (LanguageId latest) = Ok content →
  free_of dq (Content content) = true →
  ∃ w', loadArticle env article w = Done (Some content, w') ∧
        ∀ url, httpCount url (trace w') = httpCount url (trace w).
Proof.
  intros Hl Hc Hq.
  destruct (loadArticle_content env article latest content w Hl Hc) as [w' H].
  exists w'. split.
  - rewrite H, rewriteContent_plain by done. by destruct content.
  - intros url. rewrite (loadArticle_count _ url _ _ _ _ H).
    unfold wanted. rewrite Hl, Hc, requested_plain by done.
    destruct (usable _ _ _); lia.
Qed.

Lemma plain_body_is_stored_as_it_is_witness :
  ∃ w', loadArticle
          (fixtures.env
             {| emvi.FindArticles := λ _, Ok [];
                emvi.GetArticle := λ id lang,
                  Ok {| Title := id; Content := "<p>href=/read/x</p>";
                        LanguageId := lang |} |}
             0 1 fixtures.listOrder)
          (fixtures.listed "a" 0) fixtures.emptyWorld =
        Done (Some {| Title := "a"; Content := "<p>href=/read/x</p>";
                      LanguageId := "en" |}, w') ∧
        ∀ url, httpCount url (trace w') =
               httpCount url (trace fixtures.emptyWorld).
Proof.
  apply (plain_body_is_stored_as_it_is _ (fixtures.listed "a" 0)
           {| Title := EmptyString; Content := EmptyString; LanguageId := "en" |});
    reflexivity.
Defined.

(** ** Where an attachment is saved *)

Lemma split_slash cur s t :
  free_of "/" s = true →
  filepath.split cur (s +:+ String "/" t) =
  (cur +:+ s) :: filepath.split EmptyString t.
Proof.
  revert cur. induction s as [|c s IH]; intros cur Hs.
  - cbn [String.append filepath.split]. by rewrite app_nil_r_s.
  - split_free Hs. cbn [String.append filepath.split]. rewrite Hc.
    rewrite IH by done. by rewrite app_assoc_s.
Qed.

Lemma split_plain cur s :
  free_of "/" s = true → filepath.split cur s = [cur +:+ s].
Proof.
  revert cur. induction s as [|c s IH]; intros cur Hs.
  - cbn [filepath.split]. by rewrite app_nil_r_s.
  - split_free Hs. cbn [filepath.split]. rewrite Hc.
    rewrite IH by done. by rewrite app_assoc_s.
Qed.

Lemma cleanStep_keep rooted stack e :
  e ≠ EmptyString → e ≠ "." → e ≠ ".." →
  filepath.cleanStep rooted stack e = e :: stack.
Proof.
  intros H1 H2 H3. unfold filepath.cleanStep.
  rewrite decide_False by (intros [?|?]; done).
  by rewrite decide_False.
Qed.

Lemma cleanStep_up rooted top stack :
  top ≠ ".." → filepath.cleanStep rooted (top :: stack) ".." = stack.
Proof.
  intros H. unfold filepath.cleanStep.
  rewrite decide_False by (intros [?|?]; done).
  rewrite decide_True by done. by rewrite decide_False.
Qed.

Lemma Join_saved id name :
  simpleName id → simpleName name →
  filepath.Join [blogFileCache; id; name] = savedPath id name.
Proof.
  intros (Hi1 & Hi2 & Hi3 & Hi4) (Hn1 & Hn2 & Hn3 & Hn4).
  unfold filepath.Join, blogFileCache. rewrite decide_False by done.
  unfold filepath.Clean. cbn [filepath.join].
  change (hasPrefix "/" _) with false. cbv iota.
  change (filepath.split EmptyString _)
    with ("static" :: "blog" ::
          filepath.split EmptyString (id +:+ String "/" name)).
  rewrite split_slash, split_plain by done.
  cbn [foldl String.append].
  rewrite !cleanStep_keep by done.
  rewrite decide_False by done. reflexivity.
Qed.

Lemma Join_parent id name :
  simpleName id → simpleName name →
  filepath.Join [blogFileCache; id; "../" +:+ name] = "static/blog/" +:+ name.
Proof.
  intros (Hi1 & Hi2 & Hi3 & Hi4) (Hn1 & Hn2 & Hn3 & Hn4).
  unfold filepath.Join, blogFileCache. rewrite decide_False by done.
  unfold filepath.Clean. cbn [filepath.join].
  change (hasPrefix "/" _) with false. cbv iota.
  change (filepath.split EmptyString _)
    with ("static" :: "blog" ::
          filepath.split EmptyString (id +:+ String "/" (".." +:+ String "/" name))).
  rewrite !split_slash, split_plain by done.
  cbn [foldl String.append].
  rewrite (cleanStep_keep _ _ "static"), (cleanStep_keep _ _ "blog"),
    (cleanStep_keep _ _ id), cleanStep_up, (cleanStep_keep _ _ name) by done.
  rewrite decide_False by done. reflexivity.
Qed.

Lemma notExist_logged path e w : notExist path (logged e w) = notExist path w.
Proof. done. Qed.

Lemma statIsNotExist_logged env path e w :
  statIsNotExist env path (logged e w) = statIsNotExist env path w.
Proof. done. Qed.

Lemma Emits_downloadAttachment env id attachment :
  Emits quiet (downloadAttachment env id attachment).
Proof. unfold downloadAttachment. quiet. Qed.

Lemma forEach_download_keeps env id l w w' path :
  forEach l (downloadAttachment env id) w = Done (tt, w') →
  is_Some (files w !! path) → is_Some (files w' !! path).
Proof.
  intros Hw Hs.
  assert (Emits quiet (forEach l (downloadAttachment env id))) as He.
  { apply Emits_forEach. intros x. apply Emits_downloadAttachment. }
  destruct (He _ _ _ Hw) as (_ & Hdom & _).
  apply elem_of_dom, Hdom. by apply elem_of_dom.
Qed.

Lemma forEach_app_inv {A} (l1 l2 : list A) (body : A → M unit) w w' :
  forEach (l1 ++ l2) body w = Done (tt, w') →
  ∃ w1, forEach l1 body w = Done (tt, w1) ∧ forEach l2 body w1 = Done (tt, w').
Proof.
  revert w. induction l1 as [|x l1 IH]; intros w; cbn [app forEach].
  - intros H. by exists w.
  - intros ([] & w0 & H1 & H2)%bind_inv. apply IH in H2 as (w1 & H2 & H3).
    exists w1. split; [|done]. by rewrite (bind_Done _ _ _ _ _ H1).
Qed.

(** A reference of a body is fetched and saved under the name
    [filepath.Join] gives it. *)
Lemma reference_saved env article latest content w pre attr host xyz post data :
  LatestArticleContent article = Some latest →
  emvi.GetArticle (client env) (Id article) (LanguageId latest) = Ok content →
  Content content = pre +:+ reference attr host xyz +:+ post →
  attr = "href" ∨ attr = "src" →
  openValue pre = false →
  host ≠ EmptyString → free_of dq host = true →
  containsFold apiPath host = false →
  xyz ≠ EmptyString → free_of dq xyz = true →
  usable env (Id article) w = true →
  httpGet env (host +:+ api +:+ xyz) = Body data →
  writeFileFails env (filepath.Join [blogFileCache; Id article; xyz]) = false →
  ∃ w', loadArticle env article w =
          Done (Some (withBody content
                        (rewriteContent env (Id article) (Content content))), w') ∧
        is_Some (files w' !! filepath.Join [blogFileCache; Id article; xyz]) ∧
        httpCount (host +:+ api +:+ xyz) (trace w) <
          httpCount (host +:+ api +:+ xyz) (trace w').
Proof.
  intros Hl Hc Hbody Hattr Hpre Hhost Hqh Hapi Hxyz Hqx Huse Hget Hwrite.
  destruct (loadArticle_content env article latest content w Hl Hc) as [w' H].
  exists w'. split; [done|]. split.
  - revert H. unfold loadArticle. rewrite Hl.
    intros ([] & w0 & [= <-] & H)%bind_inv. rewrite Hc in H.
    apply bind_inv in H as ([] & w1 & Hdl & H).
    apply bind_inv in H as ([] & w2 & [= <-] & [= <-]).
    cbn [files logged].
    revert Hdl. unfold downloadAttachments.
    intros ([] & w3 & [= <-] & H)%bind_inv.
    apply bind_inv in H as (w4 & w5 & Hw & H). injection Hw as <- <-.
    apply bind_inv in H as (made & w6 & Hmade & H).
    assert (made = true) as ->.
    { revert Hmade. unfold usable, articleDir in Huse.
      rewrite !statIsNotExist_logged.
      destruct (statIsNotExist _ _ w); [|by intros [= <- _]].
      cbn [negb orb] in Huse. apply negb_true_iff in Huse.
      intros ([] & w7 & [= <-] & Hm)%bind_inv. rewrite Huse in Hm.
      by apply bind_inv in Hm as ([] & w8 & [= <-] & [= <- _]). }
    rewrite Hbody, downloads_of_reference_after in H by done.
    apply forEach_app_inv in H as (w6' & _ & H).
    cbn [forEach] in H. apply bind_inv in H as ([] & w7 & Hfirst & Hrest).
    apply (forEach_download_keeps _ _ _ _ _ _ Hrest).
    revert Hfirst. unfold downloadAttachment.
    intros ([] & w8 & [= <-] & H)%bind_inv.
    rewrite app_assoc_s, Hget in H.
    apply bind_inv in H as ([] & w9 & [= <-] & H).
    rewrite Hwrite in H. injection H as <-.
    cbn [files logged]. by rewrite lookup_insert_eq.
  - rewrite (loadArticle_count _ (host +:+ api +:+ xyz) _ _ _ _ H).
    unfold wanted. rewrite Hl, Hc, Huse. unfold requested.
    rewrite Hbody, downloads_of_reference_after by done.
    rewrite filter_app, length_app, filter_cons_True; [simpl; lia|].
    cbn [attachmentURL]. by rewrite app_assoc_s.
Qed.

(** X11 ([loadArticle], [downloadAttachments]): the reference the
    markup is given and the file that is saved go together.  Take a body
    [pre ++ reference attr host xyz ++ post] where [attr] is href or src,
    [pre] does not end within a quoted attribute value, [host] is not
    empty, has no double quote and does not contain /api/v1/content in
    any case, and the name [xyz] has no double quote and does not end with
    an equals sign.  When the id of the article and [xyz] are plain file
    names (not empty, not . or .., no slash) and the id has no dollar
    sign, the downloads of the article are reached ([os.Stat] does not
    report the directory missing, or [os.MkdirAll] makes it), the
    download succeeds and the file can be written, then [loadArticle]
    asks for host/api/v1/content/xyz, leaves a file at
    static/blog/id/xyz, and the markup it returns points to that file. *)
Theorem attachment_is_saved_where_the_markup_points
    env article latest content w pre attr host xyz post data :
  LatestArticleContent article = Some latest →
  emvi.GetArticle (client env) (Id article) (LanguageId latest) = Ok content →
  Content content = pre +:+ reference attr host xyz +:+ post →
  attr = "href" ∨ attr = "src" →
  simpleName (Id article) → free_of "$" (Id article) = true →
  openValue pre = false →
  host ≠ EmptyString → free_of dq host = true →
  containsFold apiPath host = false →
  simpleName xyz → free_of dq xyz = true → endsWith "=" xyz = false →
  usable env (Id article) w = true →
  httpGet env (host +:+ api +:+ xyz) = Body data →
  writeFileFails env (savedPath (Id article) xyz) = false →
  ∃ w',
    loadArticle env article w =
      Done (Some (withBody content
                    (rewriteContent env (Id article) pre +:+
                     newReference attr (Id article) xyz +:+
                     rewriteContent env (Id article) post)), w') ∧
    newReference attr (Id article) xyz =
      attr +:+ eqQuote +:+ "/" +:+ savedPath (Id article) xyz +:+
      String dq EmptyString ∧
    is_Some (files w' !! savedPath (Id article) xyz) ∧
    httpCount (host +:+ api +:+ xyz) (trace w) <
      httpCount (host +:+ api +:+ xyz) (trace w').
Proof.
  intros Hl Hc Hbody Hattr Hid Hdollar Hpre Hhost Hqh Hapi Hname Hqx Hex
    Huse Hget Hwrite.
  pose proof Hname as (Hxyz & _).
  rewrite <- Join_saved in Hwrite by done.
  destruct (reference_saved env article latest content w pre attr host xyz
              post data) as (w' & Hw & Hfile & Hcount); try done.
  exists w'. rewrite Join_saved in Hfile by done.
  split; [|split; [|done]].
  - by rewrite Hw, Hbody, rewriteContent_reference.
  - unfold newReference, savedPath. by rewrite !app_assoc_s.
Qed.

Lemma attachment_is_saved_where_the_markup_points_witness :
  ∃ w',
    loadArticle
      (fixtures.env
         (fixtures.single
            (markup "<a class='doc' href='/files/api/v1/content/f.pdf'>file</a>"))
         0 1 fixtures.listOrder)
      (fixtures.listed "a" 0) fixtures.emptyWorld =
      Done (Some {| Title := "a";
                    Content :=
                      markup "<a class='doc' href='/static/blog/a/f.pdf'>file</a>";
                    LanguageId := "en" |}, w') ∧
    is_Some (files w' !! "static/blog/a/f.pdf") ∧
    0 < httpCount "/files/api/v1/content/f.pdf" (trace w').
Proof.
  destruct (attachment_is_saved_where_the_markup_points
              (fixtures.env
                 (fixtures.single
                    (markup "<a class='doc' href='/files/api/v1/content/f.pdf'>file</a>"))
                 0 1 fixtures.listOrder)
              (fixtures.listed "a" 0)
              {| Title := EmptyString; Content := EmptyString; LanguageId := "en" |}
              {| Title := "a";
                 Content :=
                   markup "<a class='doc' href='/files/api/v1/content/f.pdf'>file</a>";
                 LanguageId := "en" |}
              fixtures.emptyWorld (markup "<a class='doc' ") "href" "/files"
              "f.pdf" ">file</a>" "png") as (w' & Hw & _ & Hfile & Hcount);
    try reflexivity; try discriminate; try (by repeat split).
  { by left. }
  exists w'. split; [|split; [exact Hfile|]].
  - rewrite Hw. vm_compute. reflexivity.
  - simpl in Hcount. lia.
Defined.

(** X12 ([downloadAttachments], [downloadAttachment]): the name of an
    attachment is not kept inside the directory of its article.  A
    reference whose name is ../name is fetched and saved as
    static/blog/name, beside the directories of the articles. *)
Theorem attachment_name_can_leave_the_directory
    env article latest content w pre attr host name post data :
  LatestArticleContent article = Some latest →
  emvi.GetArticle (client env) (Id article) (LanguageId latest) = Ok content →
  Content content = pre +:+ reference attr host ("../" +:+ name) +:+ post →
  attr = "href" ∨ attr = "src" →
  simpleName (Id article) →
  free_of dq pre = true →
  host ≠ EmptyString → free_of dq host = true →
  containsFold apiPath host = false →
  simpleName name → free_of dq name = true →
  usable env (Id article) w = true →
  httpGet env (host +:+ api +:+ "../" +:+ name) = Body data →
  writeFileFails env ("static/blog/" +:+ name) = false →
  ∃ c w',
    loadArticle env article w = Done (c, w') ∧
    is_Some (files w' !! ("static/blog/" +:+ name)) ∧
    0 < httpCount (host +:+ api +:+ "../" +:+ name) (trace w').
Proof.
  intros Hl Hc Hbody Hattr Hid Hpre Hhost Hqh Hapi Hname Hqn Huse Hget Hwrite.
  rewrite <- (Join_parent (Id article)) in Hwrite by done.
  destruct (reference_saved env article latest content w pre attr host
              ("../" +:+ name) post data) as (w' & Hw & Hfile & Hcount);
    try done.
  { by apply free_openValue. }
  rewrite Join_parent in Hfile by done. eexists _, w'.
  split; [done|]. split; [done|]. lia.
Qed.

Lemma attachment_name_can_leave_the_directory_witness :
  ∃ c w',
    loadArticle (fixtures.env escapingRemote 0 1 fixtures.listOrder)
      (fixtures.listed "a" 0) fixtures.emptyWorld = Done (c, w') ∧
    is_Some (files w' !! "static/blog/f.png").
Proof.
  destruct (attachment_name_can_leave_the_directory
              (fixtures.env escapingRemote 0 1 fixtures.listOrder)
              (fixtures.listed "a" 0)
              {| Title := EmptyString; Content := EmptyString; LanguageId := "en" |}
              {| Title := "a";
                 Content := markup "<img src='https://emvi.com/api/v1/content/../f.png'>";
                 LanguageId := "en" |}
              fixtures.emptyWorld "<img " "src" "https://emvi.com" "f.png" ">"
              "png") as (c & w' & Hw & Hfile & _);
    try reflexivity; try discriminate; try (by repeat split).
  { by right. }
  by exists c, w'.
Defined.

(** ** The offsets of the paging loop *)

Lemma offsets_app tr1 tr2 : offsets (tr1 ++ tr2) = offsets tr1 ++ offsets tr2.
Proof. unfold offsets. apply omap_app. Qed.

Lemma findAll_offsets fuel c off arts w r w' :
  findAll fuel c off arts w = Done (r, w') →
  ∃ n, Listing c off arts n r ∧
       offsets (trace w') =
       offsets (trace w) ++
       ((λ k, off + List.length (listedUpTo c off k)) <$> seq 0 n).
Proof.
  revert off arts w. induction fuel as [|fuel IH]; intros off arts w; [done|].
  cbn [findAll]. unfold mbind, M_bind. cbn [emit].
  destruct (FindArticles c off) as [results|e] eqn:He.
  - destruct results as [|a results].
    + intros [= <- <-]. exists 1. split; [by apply Listing_ends|].
      cbn. rewrite offsets_app. cbn. by rewrite Nat.add_0_r.
    + cbn [List.length Nat.ltb Nat.leb].
      intros (n & HL & Hoff)%IH. exists (S n).
      split; [by eapply Listing_page|].
      rewrite Hoff. cbn [trace logged]. rewrite offsets_app, <- app_assoc.
      f_equal. cbn [seq fmap list_fmap listedUpTo List.length app offsets omap].
      rewrite Nat.add_0_r. f_equal.
      rewrite <- seq_shift, <- list_fmap_compose.
      apply list_fmap_ext. intros i k _. cbn [compose listedUpTo].
      rewrite He, length_app. cbn [List.length]. lia.
  - intros [= <- <-]. exists 1. split; [by apply Listing_fails|].
    cbn. rewrite <- app_assoc, offsets_app. cbn.
    by rewrite Nat.add_0_r.
Qed.

(** X13 (the paging loop of [loadArticles]): every call asks for the
    offset that is the number of articles the calls before it have
    listed, starting at 0. *)
Theorem offsets_count_the_listed_articles fuel c n r w :
  Listing c 0 ∅ n r → n ≤ fuel →
  ∃ w', findAll fuel c 0 ∅ w = Done (r, w') ∧
        offsets (trace w') =
        offsets (trace w) ++
        ((λ k, List.length (listedUpTo c 0 k)) <$> seq 0 n).
Proof.
  intros HL Hn. destruct (Listing_findAll _ _ _ _ _ fuel w HL Hn) as [w' Hw].
  exists w'. split; [done|].
  destruct (findAll_offsets _ _ _ _ _ _ _ Hw) as (n' & HL' & Hoff).
  destruct (Listing_det _ _ _ _ _ _ _ HL HL') as [-> _]. by rewrite Hoff.
Qed.

Lemma offsets_count_the_listed_articles_witness :
  ∃ w', findAll 2 fixtures.remote 0 ∅ fixtures.emptyWorld =
          Done ((fixtures.listedArticles, None), w') ∧
        offsets (trace w') = [0; 3].
Proof.
  destruct (remote_Completes 0 1 fixtures.listOrder) as [(n & Hn & HL) _].
  destruct (offsets_count_the_listed_articles 2 _ n _ fixtures.emptyWorld HL Hn)
    as (w' & Hw & Hoff).
  exists w'. split; [done|]. rewrite Hoff.
  assert (n = 2) as ->; [|done].
  assert (Listing fixtures.remote 0 ∅ 2 (fixtures.listedArticles, None)) as HL2.
  { eapply (Listing_page _ 0 ∅); [done|done|]. by apply Listing_ends. }
  by destruct (Listing_det _ _ _ _ _ _ _ HL HL2).
Defined.

(** ** Package [main] *)

Lemma Split_spec s sep :
  ∃ init key,
    gostrings.Split s sep = init ++ [key] ∧ free_of sep key = true ∧
    ((init = [] ∧ s = key) ∨
     (init ≠ [] ∧ ∃ p, s = p +:+ String sep key)).
Proof.
  induction s as [|c s (init & key & HS & Hfree & Hs)].
  - exists [], EmptyString. repeat split. by left.
  - cbn [gostrings.Split]. destruct (Ascii.eqb c sep) eqn:Hc.
    + apply Ascii.eqb_eq in Hc as ->.
      exists (EmptyString :: init), key. rewrite HS.
      split; [done|]. split; [done|]. right. split; [done|].
      destruct Hs as [[_ ->]|[_ [p ->]]].
      * by exists EmptyString.
      * by exists (String sep p).
    + rewrite HS. destruct Hs as [[-> ->]|[Hne [p ->]]].
      * exists [], (String c key). cbn [app free_of]. rewrite Hc, Hfree.
        repeat split. by left.
      * destruct init as [|x init]; [done|].
        exists (String c x :: init), key.
        split; [done|]. split; [done|]. right. split; [done|].
        by exists (String c p).
Qed.

Lemma Split_plain s sep :
  free_of sep s = true → gostrings.Split s sep = [s].
Proof.
  induction s as [|c s IH]; [done|]. intros Hs. split_free Hs.
  cbn [gostrings.Split]. by rewrite Hc, IH.
Qed.

Lemma Split_first key sep rest :
  free_of sep key = true →
  gostrings.Split (key +:+ String sep rest) sep =
  key :: gostrings.Split rest sep.
Proof.
  induction key as [|c key IH]; intros Hk.
  - cbn [String.append gostrings.Split]. by rewrite Ascii.eqb_refl.
  - split_free Hk. cbn [String.append gostrings.Split].
    by rewrite Hc, IH.
Qed.

Lemma Split_last p key sep :
  free_of sep key = true →
  gostrings.Split (p +:+ String sep key) sep = gostrings.Split p sep ++ [key].
Proof.
  intros Hk. induction p as [|c p IH].
  - cbn [String.append gostrings.Split]. rewrite Ascii.eqb_refl.
    by rewrite Split_plain.
  - cbn [String.append gostrings.Split]. rewrite IH.
    destruct (Ascii.eqb c sep); [done|].
    destruct (Split_spec p sep) as (init & k & -> & _).
    by destruct init.
Qed.

(** The piece [serveBlogArticle] looks up: the last one. *)
Lemma slug_id slug key :
  free_of "-" key = true →
  slug = key ∨ (∃ p, slug = p +:+ String "-" key) →
  let pieces := gostrings.Split slug "-" in
  (List.length pieces =? 0)%nat = false ∧
  pieces !! (List.length pieces - 1) = Some key.
Proof.
  intros Hk [->|[p ->]]; cbn zeta.
  - by rewrite Split_plain.
  - rewrite Split_last by done. rewrite length_app. cbn [List.length].
    split; [apply Nat.eqb_neq; lia|].
    replace (List.length (gostrings.Split p "-") + 1 - 1)
      with (List.length (gostrings.Split p "-") + 0) by lia.
    by rewrite lookup_app_r, Nat.add_0_r, Nat.sub_diag by lia.
Qed.

(** X14 ([serveBlogArticle], [GetArticle]): the article of a slug is
    looked up under the text after the last hyphen of the slug (the whole
    slug when it has none).  Before the deadline, the request is led to
    /notfound, without a hit, when no article has that id or the id is
    empty; it panics when the article has no content, as after a failed
    fetch; otherwise the hit is counted and the title, the content and
    the date of the article are rendered. *)
Theorem article_page_follows_the_last_piece fuel env b w slug key :
  KeysAreIds (articles b) →
  (time.instant (now env) ≤ time.instant (nextUpdate b))%Z →
  free_of "-" key = true →
  slug = key ∨ (∃ p, slug = p +:+ "-" +:+ key) →
  main.serveBlogArticle fuel env slug b w =
  match articles b !! key with
  | None => Done ((main.notFound, b), w)
  | Some a =>
      if decide (key = EmptyString) then Done ((main.notFound, b), w)
      else
        match LatestArticleContent a with
        | None => Panics
        | Some c =>
            Done (({| main.hit := true;
                      main.reply :=
                        main.RenderWithoutCache "article.html"
                          (main.ArticleData (Title c) (Content c) (Published a)) |},
                   b), w)
        end
  end.
Proof.
  intros Hkeys Hnow Hk Hslug.
  destruct (slug_id slug key Hk Hslug) as [Hlen Hlast].
  unfold main.serveBlogArticle. rewrite Hlen, Hlast.
  destruct (reads_not_due fuel env b w Hnow) as (Hget & _).
  rewrite (bind_Done _ _ _ _ _ (Hget key)).
  destruct (articles b !! key) as [a|] eqn:Ha;
    cbn [default from_option id]; cbv beta iota; [|done].
  rewrite (Hkeys _ _ Ha).
  destruct (decide (key = EmptyString)) as [->|Hne]; [done|].
  destruct key; [done|]. cbn [String.length Nat.eqb].
  by destruct (LatestArticleContent a).
Qed.

Lemma article_page_follows_the_last_piece_witness :
  main.serveBlogArticle 1
    (fixtures.env fixtures.remote 0 0 fixtures.listOrder)
    "my-first-post-c" (fixtures.fourArticles 3600) fixtures.emptyWorld =
  Done (({| main.hit := true;
            main.reply :=
              main.RenderWithoutCache "article.html"
                (main.ArticleData EmptyString EmptyString (fixtures.at_ 0)) |},
         fixtures.fourArticles 3600), fixtures.emptyWorld).
Proof.
  rewrite (article_page_follows_the_last_piece 1 _ _ _ "my-first-post-c" "c").
  - reflexivity.
  - apply KeysAreIds_addAll. by intros id a.
  - vm_compute. discriminate.
  - reflexivity.
  - right. by exists "my-first-post".
Defined.

Lemma Split_last_piece s sep :
  ∃ key,
    (List.length (gostrings.Split s sep) =? 0)%nat = false ∧
    gostrings.Split s sep !! (List.length (gostrings.Split s sep) - 1) =
      Some key ∧
    free_of sep key = true ∧
    (s = key ∨ ∃ p, s = p +:+ String sep key).
Proof.
  destruct (Split_spec s sep) as (init & key & -> & Hfree & Hs).
  exists key. rewrite length_app. cbn [List.length].
  split; [apply Nat.eqb_neq; lia|]. split.
  - replace (List.length init + 1 - 1) with (List.length init + 0) by lia.
    by rewrite lookup_app_r, Nat.add_0_r, Nat.sub_diag by lia.
  - split; [done|]. destruct Hs as [[_ ->]|[_ Hp]]; auto.
Qed.

(** X15 ([serveBlogArticle]): whatever the slug, a request that is not
    led to /notfound is answered with an article of the cache whose id is
    not empty, has no hyphen and ends the slug.  An article whose id has
    a hyphen is never served. *)
Theorem only_ids_without_hyphen_are_served fuel env slug b w resp b' w' :
  Reachable b →
  main.serveBlogArticle fuel env slug b w = Done ((resp, b'), w') →
  resp ≠ main.notFound →
  ∃ a c,
    articles b' !! Id a = Some a ∧
    Id a ≠ EmptyString ∧ free_of "-" (Id a) = true ∧
    (slug = Id a ∨ ∃ p, slug = p +:+ "-" +:+ Id a) ∧
    LatestArticleContent a = Some c ∧
    resp = {| main.hit := true;
              main.reply :=
                main.RenderWithoutCache "article.html"
                  (main.ArticleData (Title c) (Content c) (Published a)) |}.
Proof.
  intros Hreach Hserve Hresp.
  destruct (Split_last_piece slug "-") as (key & Hlen & Hlast & Hfree & Hslug).
  revert Hserve. unfold main.serveBlogArticle. rewrite Hlen, Hlast.
  intros ([a b1] & w1 & Hget & Hrest)%bind_inv.
  pose proof (Reachable_GetArticle _ _ _ _ _ _ _ _ Hreach Hget) as Hreach1.
  apply Reachable_Inv in Hreach1 as [Hkeys _].
  apply bind_inv in Hget as (b2 & w2 & _ & [= <- <- <-]).
  destruct (articles b2 !! key) as [a|] eqn:Ha;
    cbn [default from_option id] in Hrest.
  2:{ cbn in Hrest. by injection Hrest as <- <- <-. }
  pose proof (Hkeys _ _ Ha) as Hid. rewrite Hid in Hrest.
  destruct key as [|k0 key].
  { cbn in Hrest. by injection Hrest as <- <- <-. }
  cbn [String.length Nat.eqb] in Hrest.
  destruct (LatestArticleContent a) as [c|] eqn:Hcontent; [|done].
  injection Hrest as <- <- <-. exists a, c. rewrite Hid.
  by repeat split.
Qed.

Lemma only_ids_without_hyphen_are_served_witness :
  ∃ a c,
    articles (refreshed (fixtures.env fixtures.remote 0 1 fixtures.listOrder)
                fixtures.listedArticles None
                (newBlog (fixtures.env fixtures.remote 0 1 fixtures.listOrder)))
      !! Id a = Some a ∧
    Id a ≠ EmptyString ∧ free_of "-" (Id a) = true ∧
    ("the-post-a" = Id a ∨ ∃ p, "the-post-a" = p +:+ "-" +:+ Id a) ∧
    LatestArticleContent a = Some c.
Proof.
  destruct (only_ids_without_hyphen_are_served 1
              (fixtures.env fixtures.remote 0 1 fixtures.listOrder)
              "the-post-a"
              (refreshed (fixtures.env fixtures.remote 0 1 fixtures.listOrder)
                 fixtures.listedArticles None
                 (newBlog (fixtures.env fixtures.remote 0 1 fixtures.listOrder)))
              fixtures.emptyWorld
              {| main.hit := true;
                 main.reply :=
                   main.RenderWithoutCache "article.html"
                     (main.ArticleData "a" (rewriteContent fixtures.sample "a" fixtures.body)
                        (fixtures.at_ 1609459200)) |}
              (refreshed (fixtures.env fixtures.remote 0 1 fixtures.listOrder)
                 fixtures.listedArticles None
                 (newBlog (fixtures.env fixtures.remote 0 1 fixtures.listOrder)))
              fixtures.emptyWorld)
    as (a & c & H1 & H2 & H3 & H4 & H5 & _).
  - apply remote_Reachable.
  - by vm_compute.
  - discriminate.
  - by exists a, c.
Defined.

(** X16 ([loadArticles], [serveBlogArticle]): an article whose content
    could not be fetched is stored without content, and the handler reads
    the title through that nil pointer.  After such a refresh, and until
    the next one, every request for the page of the article panics. *)
Theorem failed_fetch_makes_the_page_panic fuel env arts b w key a latest e :
  Completes fuel env arts None →
  arts !! key = Some a →
  LatestArticleContent a = Some latest →
  emvi.GetArticle (client env) (Id a) (LanguageId latest) = Err e →
  key ≠ EmptyString → free_of "-" key = true →
  ∃ b' w',
    loadArticles fuel env b w = Done (b', w') ∧
    ∀ fuel2 env2 slug,
      (time.instant (now env2) ≤ time.instant (nextUpdate b'))%Z →
      slug = key ∨ (∃ p, slug = p +:+ "-" +:+ key) →
      main.serveBlogArticle fuel2 env2 slug b' w' = Panics.
Proof.
  intros Hc Ha Hlatest Herr Hid Hfree.
  destruct (loadArticles_Completes fuel env arts None b w Hc) as (w' & Hw & _).
  exists (refreshed env arts None b), w'. split; [done|].
  intros fuel2 env2 slug Hnow Hslug.
  destruct (slug_id slug key Hfree Hslug) as [Hlen Hlast].
  unfold main.serveBlogArticle. rewrite Hlen, Hlast.
  destruct (reads_not_due fuel2 env2 (refreshed env arts None b) w' Hnow)
    as (Hget & _).
  rewrite (bind_Done _ _ _ _ _ (Hget key)).
  assert (articles (refreshed env arts None b) !! key =
          Some (withContent a None)) as ->.
  { cbn. rewrite lookup_fmap, Ha. cbn. unfold ingested. rewrite Hlatest.
    cbn. unfold fetched. by rewrite Herr. }
  cbn [default from_option id]. cbv beta iota. cbn [Id withContent].
  assert (Id a = key) as ->.
  { destruct Hc as [(n & _ & HL) _].
    apply KeysAreIds_Listing in HL; [|by intros ? ?]. by apply HL. }
  by destruct key.
Qed.

Lemma failed_fetch_makes_the_page_panic_witness :
  ∃ b' w',
    loadArticles 2 (fixtures.env fixtures.remote 0 1 fixtures.listOrder)
      (fixtures.emptyBlog 0) fixtures.emptyWorld = Done (b', w') ∧
    main.serveBlogArticle 1
      (fixtures.env fixtures.remote 2 3 fixtures.listOrder)
      "the-post-b" b' w' = Panics.
Proof.
  destruct (failed_fetch_makes_the_page_panic 2
              (fixtures.env fixtures.remote 0 1 fixtures.listOrder)
              fixtures.listedArticles (fixtures.emptyBlog 0) fixtures.emptyWorld
              "b" (fixtures.listed "b" 1609459300)
              {| Title := EmptyString; Content := EmptyString; LanguageId := "en" |}
              "unavailable") as (b' & w' & Hw & Hpanic);
    [apply remote_Completes|reflexivity..|discriminate|reflexivity|].
  exists b', w'. split; [done|]. apply Hpanic.
  - destruct (loadArticles_Completes 2
                (fixtures.env fixtures.remote 0 1 fixtures.listOrder)
                fixtures.listedArticles None (fixtures.emptyBlog 0)
                fixtures.emptyWorld (remote_Completes 0 1 fixtures.listOrder))
      as (w2 & Hw2 & _).
    rewrite Hw in Hw2. injection Hw2 as -> _. vm_compute. discriminate.
  - right. by exists "the-post".
Defined.

Lemma hasPrefix_app p s t :
  hasPrefix p s = true → hasPrefix p (s +:+ t) = true.
Proof.
  revert s. induction p as [|a p IH]; intros s; [done|].
  destruct s as [|b s]; [done|]. cbn [hasPrefix String.append].
  intros [-> ?]%andb_prop. by rewrite IH.
Qed.

Lemma first_sep c e :
  free_of c e = false →
  ∃ k v, e = k +:+ String c v ∧ free_of c k = true.
Proof.
  induction e as [|a e IH]; [done|]. cbn [free_of].
  destruct (Ascii.eqb a c) eqn:Ha.
  - apply Ascii.eqb_eq in Ha as ->. intros _. by exists EmptyString, e.
  - cbn [negb andb]. intros (k & v & -> & Hk)%IH.
    exists (String a k), v. split; [done|]. cbn [free_of]. by rewrite Ha, Hk.
Qed.

Lemma Split_two e sep :
  free_of sep e = false →
  ∃ k v rest, gostrings.Split e sep = k :: v :: rest.
Proof.
  intros (k & v & -> & Hk)%first_sep. rewrite Split_first by done.
  destruct (Split_spec v sep) as (init & key & -> & _).
  destruct init as [|x init]; by eexists _, _, _.
Qed.

(** X17 ([logEnvConfig]): a variable whose name starts with MB_ is
    logged as name=value, but only up to the first equals sign of the
    value: the entry is split at every equals sign and the first two
    pieces are logged.  Nothing is held back: a secret such as
    MB_EMVI_CLIENT_SECRET is logged like any other. *)
Theorem env_entry_is_logged_up_to_the_second_equals key value rest environ w :
  hasPrefix main.envPrefix key = true →
  free_of "=" key = true → free_of "=" value = true →
  rest = EmptyString ∨ hasPrefix "=" rest = true →
  main.logEnvConfig ((key +:+ "=" +:+ value +:+ rest) :: environ) w =
  main.logEnvConfig environ (logged (EvLog LInfo (key +:+ "=" +:+ value)) w).
Proof.
  intros Hprefix Hk Hv Hrest. unfold main.logEnvConfig. cbn [forEach].
  rewrite hasPrefix_app by done.
  change (key +:+ "=" +:+ value +:+ rest)
    with (key +:+ String "=" (value +:+ rest)).
  rewrite Split_first by done.
  assert (∃ more, gostrings.Split (value +:+ rest) "=" = value :: more)
    as [more ->].
  { destruct Hrest as [->|Hrest].
    - rewrite app_nil_r_s, Split_plain by done. by eexists.
    - destruct rest as [|c rest]; [done|]. cbn [hasPrefix] in Hrest.
      apply andb_prop in Hrest as [<-%Ascii.eqb_eq _].
      rewrite Split_first by done. by eexists. }
  done.
Qed.

Lemma env_entry_is_logged_up_to_the_second_equals_witness :
  main.logEnvConfig ["PATH=/bin"; "MB_EMVI_CLIENT_SECRET=c2VjcmV0=="; "MB_HOST=:80"]
    fixtures.emptyWorld =
  Done (tt, {| dirs := ∅; files := ∅;
               trace := [EvLog LInfo "MB_EMVI_CLIENT_SECRET=c2VjcmV0";
                         EvLog LInfo "MB_HOST=:80"] |}).
Proof.
  change (main.logEnvConfig
            ["PATH=/bin"; "MB_EMVI_CLIENT_SECRET=c2VjcmV0=="; "MB_HOST=:80"]
            fixtures.emptyWorld)
    with (main.logEnvConfig
            [("MB_EMVI_CLIENT_SECRET" +:+ "=" +:+ "c2VjcmV0" +:+ "==");
             "MB_HOST=:80"] fixtures.emptyWorld).
  rewrite env_entry_is_logged_up_to_the_second_equals;
    [reflexivity|reflexivity..|by right].
Defined.

(** X18 ([logEnvConfig]): the second piece of an entry is read without a
    check.  The function returns when every entry whose name starts with
    MB_ has an equals sign, and panics as soon as one has none. *)
Theorem env_entry_without_equals_panics environ w :
  (Exists (λ e, hasPrefix main.envPrefix e = true ∧ free_of "=" e = true)
     environ →
   main.logEnvConfig environ w = Panics) ∧
  (¬ Exists (λ e, hasPrefix main.envPrefix e = true ∧ free_of "=" e = true)
       environ →
   ∃ w', main.logEnvConfig environ w = Done (tt, w')).
Proof.
  revert w. induction environ as [|e environ IH]; intros w.
  { split; [by intros ?%Exists_nil|]. intros _. by exists w. }
  unfold main.logEnvConfig in *. cbn [forEach]. unfold mbind, M_bind.
  destruct (hasPrefix main.envPrefix e) eqn:Hp.
  - destruct (free_of "=" e) eqn:Hf.
    + rewrite Split_plain by done. cbn [lookup list_lookup]. unfold panic.
      split; [done|]. intros []. by left.
    + destruct (Split_two e "=" Hf) as (k & v & rest & ->).
      cbn [lookup list_lookup emit].
      destruct (IH (logged (EvLog LInfo (k +:+ "=" +:+ v)) w)) as [IH1 IH2].
      split.
      * intros [[_ ?]|?]%Exists_cons; [congruence|]. by apply IH1.
      * intros Hno. apply IH2. intros ?. apply Hno. by right.
  - cbn [mret M_ret]. destruct (IH w) as [IH1 IH2]. split.
    + intros [[? _]|?]%Exists_cons; [congruence|]. by apply IH1.
    + intros Hno. apply IH2. intros ?. apply Hno. by right.
Qed.

Lemma env_entry_without_equals_panics_witness :
  main.logEnvConfig ["MB_HOST=:80"; "MB_LOGLEVEL"; "MB_ALLOWED_ORIGINS=*"]
    fixtures.emptyWorld = Panics.
Proof.
  apply (env_entry_without_equals_panics
           ["MB_HOST=:80"; "MB_LOGLEVEL"; "MB_ALLOWED_ORIGINS=*"]).
  right. by left.
Defined.

Lemma Split_prefixed e :
  hasPrefix main.envPrefix e = true →
  ∀ k, gostrings.Split e "=" !! 0 = Some k →
       hasPrefix main.envPrefix k = true.
Proof.
  unfold main.envPrefix. intros H.
  destruct e as [|c1 [|c2 [|c3 e]]]; cbn [hasPrefix] in H;
    try (by rewrite ?andb_false_r in H).
  apply andb_prop in H as [<-%Ascii.eqb_eq H].
  apply andb_prop in H as [<-%Ascii.eqb_eq H].
  apply andb_prop in H as [<-%Ascii.eqb_eq _].
  cbn [gostrings.Split].
  change (Ascii.eqb "M" "=") with false. change (Ascii.eqb "B" "=") with false.
  change (Ascii.eqb "_" "=") with false. cbv iota.
  destruct (Split_spec e "=") as (init & key & -> & _).
  by destruct init; intros k [= <-].
Qed.

(** X19 ([logEnvConfig]): only the variables of the program are
    logged.  When the function returns, it has written one line for each
    entry that starts with MB_, in the order of the entries, and nothing
    else was done.  The line of an entry is the first two pieces that
    [strings.Split] makes of the entry at its equals signs, with an
    equals sign between them, and it starts with MB_. *)
Theorem only_prefixed_entries_are_logged environ w w' :
  main.logEnvConfig environ w = Done (tt, w') →
  dirs w' = dirs w ∧ files w' = files w ∧
  ∃ lines,
    trace w' = trace w ++ (EvLog LInfo <$> lines) ∧
    Forall (λ line, hasPrefix main.envPrefix line = true) lines ∧
    Forall2
      (λ line e, ∃ key value more,
         gostrings.Split e "=" = key :: value :: more ∧
         line = key +:+ "=" +:+ value)
      lines (filter (λ e, hasPrefix main.envPrefix e = true) environ).
Proof.
  revert w. induction environ as [|e environ IH]; intros w.
  { intros [= <-]. split; [done|]. split; [done|]. exists [].
    rewrite app_nil_r. split; [done|]. split; constructor. }
  unfold main.logEnvConfig in *. cbn [forEach]. unfold mbind, M_bind.
  rewrite filter_cons.
  destruct (hasPrefix main.envPrefix e) eqn:Hp.
  - destruct (gostrings.Split e "=" !! 0) as [k|] eqn:Hk; [|done].
    destruct (gostrings.Split e "=" !! 1) as [v|] eqn:Hv; [|done].
    cbn [emit]. intros (Hd & Hf & lines & Ht & Hall & Hlines)%IH.
    split; [done|]. split; [done|].
    exists ((k +:+ "=" +:+ v) :: lines). cbn [trace logged] in Ht.
    rewrite Ht, <- app_assoc. split; [done|]. split.
    + constructor; [|done]. apply hasPrefix_app. by eapply Split_prefixed.
    + rewrite decide_True by done. constructor; [|done].
      destruct (gostrings.Split e "=") as [|k' [|v' more]]; try done.
      injection Hk as ->. injection Hv as ->. by exists k, v, more.
  - cbn [mret M_ret]. intros (Hd & Hf & lines & Ht & Hall & Hlines)%IH.
    split; [done|]. split; [done|]. exists lines.
    rewrite decide_False by congruence. done.
Qed.

Lemma only_prefixed_entries_are_logged_witness :
  ∃ lines,
    trace {| dirs := ∅; files := ∅;
             trace := [EvLog LInfo "MB_HOST=:80"; EvLog LInfo "MB_A=b"] |} =
      trace fixtures.emptyWorld ++ (EvLog LInfo <$> lines) ∧
    Forall2
      (λ line e, ∃ key value more,
         gostrings.Split e "=" = key :: value :: more ∧
         line = key +:+ "=" +:+ value)
      lines ["MB_HOST=:80"; "MB_A=b=c"].
Proof.
  destruct (only_prefixed_entries_are_logged
              ["HOME=/root"; "MB_HOST=:80"; "PATH=/bin"; "MB_A=b=c"]
              fixtures.emptyWorld
              {| dirs := ∅; files := ∅;
                 trace := [EvLog LInfo "MB_HOST=:80"; EvLog LInfo "MB_A=b"] |})
    as (_ & _ & lines & Ht & _ & Hlines).
  - reflexivity.
  - exists lines. split; [exact Ht|exact Hlines].
Defined.

(** ** The blog page *)

Lemma filter_none {A} (P : A → Prop) `{!∀ x, Decision (P x)} (l : list A) :
  (∀ x, x ∈ l → ¬ P x) → filter P l = [].
Proof.
  induction l as [|x l IH]; intros Hl; [done|].
  rewrite filter_cons_False by (apply Hl; left).
  apply IH. intros y Hy. apply Hl. by right.
Qed.

Lemma buckets_concat (years : gmap Z (list Article)) (vals : list Article) :
  (∀ y, match years !! y with
        | Some l => l ≡ₚ filter (λ a, time.Year (Published a) = y) vals
        | None => filter (λ a, time.Year (Published a) = y) vals = []
        end) →
  List.concat (map_to_list years).*2 ≡ₚ vals.
Proof.
  revert vals. induction years as [|y l years Hy _ IH] using map_first_key_ind;
    intros vals H.
  - rewrite map_to_list_empty. destruct vals as [|a vals]; [done|].
    specialize (H (time.Year (Published a))). rewrite lookup_empty in H.
    by rewrite filter_cons_True in H.
  - rewrite map_to_list_insert by done. cbn [fmap list_fmap snd List.concat].
    pose proof (H y) as Hl. rewrite lookup_insert_eq in Hl.
    rewrite (IH (filter (λ a, time.Year (Published a) ≠ y) vals)).
    + rewrite Hl. apply (filter_app_complement _ vals).
    + intros y'. destruct (decide (y' = y)) as [->|Hne].
      * rewrite Hy. apply filter_none. by intros a [? _]%list_elem_of_filter.
      * specialize (H y'). rewrite lookup_insert_ne in H by done.
        rewrite list_filter_filter_l; [done|]. by intros a <-.
Qed.

(** X20 ([serveBlogPage], [GetArticles], [setArticles]): the blog page
    is rendered with the buckets of the years, and together the buckets
    hold every article of the cache exactly once. *)
Theorem blog_page_lists_every_article_once fuel env b w :
  Reachable b →
  (time.instant (now env) ≤ time.instant (nextUpdate b))%Z →
  ∃ years,
    main.serveBlogPage fuel env b w =
      Done (({| main.hit := true;
                main.reply := main.Render "blog.html" (main.BlogData years) |},
             b), w) ∧
    List.concat (map_to_list years).*2 ≡ₚ (map_to_list (articles b)).*2.
Proof.
  intros [_ Hyears]%Reachable_Inv Hnow.
  destruct (reads_not_due fuel env b w Hnow) as (_ & Hget & _).
  exists (articlesYear b). split.
  { unfold main.serveBlogPage. by rewrite (bind_Done _ _ _ _ _ Hget). }
  apply buckets_concat. intros y. specialize (Hyears y).
  unfold publishedIn in Hyears.
  destruct (articlesYear b !! y); [by destruct Hyears|done].
Qed.

Lemma blog_page_lists_every_article_once_witness :
  ∃ years,
    main.serveBlogPage 1 (fixtures.env fixtures.remote 2 3 fixtures.listOrder)
      (refreshed (fixtures.env fixtures.remote 0 1 fixtures.listOrder)
         fixtures.listedArticles None
         (newBlog (fixtures.env fixtures.remote 0 1 fixtures.listOrder)))
      fixtures.emptyWorld =
      Done (({| main.hit := true;
                main.reply := main.Render "blog.html" (main.BlogData years) |},
             refreshed (fixtures.env fixtures.remote 0 1 fixtures.listOrder)
               fixtures.listedArticles None
               (newBlog (fixtures.env fixtures.remote 0 1 fixtures.listOrder))),
            fixtures.emptyWorld) ∧
    List.length (List.concat (map_to_list years).*2) = 3.
Proof.
  destruct (blog_page_lists_every_article_once 1
              (fixtures.env fixtures.remote 2 3 fixtures.listOrder)
              (refreshed (fixtures.env fixtures.remote 0 1 fixtures.listOrder)
                 fixtures.listedArticles None
                 (newBlog (fixtures.env fixtures.remote 0 1 fixtures.listOrder)))
              fixtures.emptyWorld) as (years & Hserve & Hperm).
  - apply remote_Reachable.
  - vm_compute. discriminate.
  - exists years. split; [done|]. by rewrite Hperm.
Defined.

(** ** Links in any case *)

Lemma strip_linkOpen_before_fold a y o t :
  sameFold linkOpen o = true →
  free_of dq (String a y) = true →
  strip_lit true linkOpen (String a y +:+ o +:+ t) = None.
Proof.
  unfold linkOpen. intros Ho Hfree.
  destruct o as [|o0 [|o1 [|o2 [|o3 [|o4 o]]]]];
    cbn [sameFold String.append] in Ho; rewrite ?andb_false_r in Ho;
    try done.
  apply andb_prop in Ho as [H0 Ho]. apply andb_prop in Ho as [H1 Ho].
  apply andb_prop in Ho as [H2 Ho]. apply andb_prop in Ho as [H3 Ho].
  apply andb_prop in Ho as [H4 _].
  apply foldEq_not_dq in H0, H1, H2, H3, H4; try reflexivity.
  destruct y as [|b [|c [|d [|e [|f y]]]]]; split_free Hfree; crunch.
Qed.

Lemma rewriteLinks_fold env pre o x post :
  sameFold linkOpen o = true →
  free_of dq pre = true → x ≠ EmptyString → free_of dq x = true →
  rewriteLinks env (pre +:+ o +:+ x +:+ String dq post) =
  pre +:+ newLink x +:+ rewriteLinks env post.
Proof.
  intros Ho Hpre Hx Hq. unfold rewriteLinks, ReplaceAllString.
  rewrite (replace_copy_P _ _ _ (λ u, free_of dq u = true)); [|done| |].
  - f_equal.
    replace (o +:+ x +:+ String dq post)
      with ((o +:+ x +:+ String dq EmptyString) +:+ post)
      by (by rewrite !app_assoc_s).
    rewrite (replace_match _ _ _ _ post
               [(0%N, o +:+ x +:+ String dq EmptyString); (1%N, x)]).
    + by rewrite expand_linkTemplate.
    + destruct o; [done|]. done.
    + rewrite !app_assoc_s. cbn [String.append].
      by apply match_here_link_fold.
  - intros a y. apply free_of_tail.
  - intros a y Hfree. apply match_here_link_none.
    by apply strip_linkOpen_before_fold.
Qed.

(** X21 ([loadArticle], [linkRegex]): the pattern of the links is
    matched without regard to case, and the replacement is written in
    lower case.  A link whose attribute name or path is written in
    capitals, in whole or in part, is replaced like one in lower case,
    by href=Q/blog/xQ, where Q is the double quote. *)
Theorem link_is_matched_in_any_case env article latest content w pre o x post :
  LatestArticleContent article = Some latest →
  emvi.GetArticle (client env) (Id article) (LanguageId latest) = Ok content →
  Content content = pre +:+ o +:+ x +:+ String dq post →
  sameFold linkOpen o = true →
  free_of dq pre = true →
  x ≠ EmptyString → free_of dq x = true → endsWith "=" x = false →
  containsFold api ("/blog/" +:+ x) = false →
  ∃ w', loadArticle env article w =
        Done (Some (withBody content
                      (pre +:+ newLink x +:+ rewriteContent env (Id article) post)),
              w').
Proof.
  intros Hl Hc Hbody Ho Hpre Hx Hq He Hs.
  destruct (loadArticle_content env article latest content w Hl Hc) as [w' H].
  exists w'. rewrite H, Hbody. unfold rewriteContent.
  by rewrite rewriteLinks_fold, rewriteAttachments_newLink.
Qed.

Lemma link_is_matched_in_any_case_witness :
  ∃ w', loadArticle (fixtures.env capitalsRemote 0 1 fixtures.listOrder)
          (fixtures.listed "a" 0) fixtures.emptyWorld =
        Done (Some {| Title := "a";
                      Content := "<A " +:+ newLink "x" +:+
                                 rewriteContent fixtures.sample "a" ">next</A>";
                      LanguageId := "en" |}, w').
Proof.
  apply (link_is_matched_in_any_case
           (fixtures.env capitalsRemote 0 1 fixtures.listOrder)
           (fixtures.listed "a" 0)
           {| Title := EmptyString; Content := EmptyString; LanguageId := "en" |}
           {| Title := "a"; Content := markup "<A HREF='/Read/x'>next</A>";
              LanguageId := "en" |}
           fixtures.emptyWorld "<A " (markup "HREF='/Read/") "x" ">next</A>");
    try reflexivity.
  discriminate.
Defined.

(** ** One content fetch fails *)





